(** * SIParser: normalisation of SI unit expressions

    A shallow embedding of [src/SIParser.ts] and the properties of its
    recursive-descent grammar.

    Modelling conventions.
    - A JavaScript string is the list of its UTF-16 code units ([jsstring]);
      [js] turns an ASCII literal into such a list, and the three non-ASCII
      tokens of the unit table are spelled with their code units.
    - Every grammar rule returns an object [{consumed, rest, success, result}];
      [outcome] has one constructor per value of [success], the failure one
      without [result], as in the source.
    - Unit exponents are integer-valued JavaScript numbers, modelled in [Z]
      (exact below 2^53; [-0] and [0] are identified, which no comparison and
      no rendering of the source tells apart).
    - The magnitude is a JavaScript number, modelled by [jsnum]: [NaN] or an
      exact decimal fraction [m * 10^-k].  Rounding to binary64 and overflow
      are not modelled; [Number_toString] follows the ECMAScript rendering
      (positional notation for 1e-6 <= |x| < 1e21, exponent notation
      otherwise).
    - The numbers of the model are therefore the numbers of the code where
      binary64 holds them exactly: the integers below 2^53 in absolute
      value, read, added, subtracted, multiplied and printed without
      rounding.  A property whose statement depends on the value of a number
      is stated for such numbers ([safe_integer], [exact_input]).
    - An exponent vector is a JavaScript object used as a map; own properties
      are enumerated in insertion order, so it is an association list that is
      updated in place and extended at its end.
    - A property read on [undefined] throws a [TypeError]; [completion]
      records whether a call returns or throws. *)

From Stdlib Require Import String Ascii.
From Stdlib Require Import List NArith ZArith Bool Lia.
Import ListNotations.

Local Open Scope Z_scope.

(* ================================================================= *)
(** ** Strings *)

Abbreviation jschar := N.
Abbreviation jsstring := (list N).

Definition js (s : string) : jsstring :=
  map N_of_ascii (list_ascii_of_string s).

Definition ch (c : ascii) : jschar := N_of_ascii c.

Definition str_eqb (a b : jsstring) : bool :=
  if list_eq_dec N.eq_dec a b then true else false.

(** [s.indexOf(p) === 0] *)
Fixpoint starts_with (p s : jsstring) : bool :=
  match p, s with
  | [], _ => true
  | _ :: _, [] => false
  | a :: p', b :: s' => N.eqb a b && starts_with p' s'
  end.

(** [s.substring(n)] *)
Definition substring_from (n : nat) (s : jsstring) : jsstring := skipn n s.

(** [s.split(' ').join('')] *)
Definition strip_spaces (s : jsstring) : jsstring :=
  filter (fun c => negb (N.eqb c 32)) s.

(** [l.join(sep)] *)
Fixpoint join (sep : jsstring) (l : list jsstring) : jsstring :=
  match l with
  | [] => []
  | [x] => x
  | x :: l' => x ++ sep ++ join sep l'
  end.

(** ['0' <= c && c <= '9'] *)
Definition is_digit (c : jschar) : bool := (N.leb 48 c && N.leb c 57)%N.

(** The loop [for (i = 0; '0' <= string.charAt(i) && ...; ++i);] *)
Fixpoint digit_run (s : jsstring) : jsstring :=
  match s with
  | c :: s' => if is_digit c then c :: digit_run s' else []
  | [] => []
  end.

(* ================================================================= *)
(** ** Numbers *)

Inductive jsnum : Type :=
| NaN
| Dec (m : Z) (k : nat).

(** Canonical form of a decimal fraction: no trailing zero in the fraction. *)
Fixpoint normalize_dec (m : Z) (k : nat) : Z * nat :=
  match k with
  | O => (m, O)
  | S k' => if Z.eqb (m mod 10) 0 then normalize_dec (m / 10) k' else (m, k)
  end.

Definition mkDec (m : Z) (k : nat) : jsnum :=
  let (m', k') := normalize_dec m k in Dec m' k'.

Definition num_of_Z (z : Z) : jsnum := Dec z 0.

(** Unary minus. *)
Definition num_neg (x : jsnum) : jsnum :=
  match x with
  | NaN => NaN
  | Dec m k => Dec (- m) k
  end.

(** [x + 273.15], on exact decimals.  The source adds in binary64 and may
    round the sum; no property below depends on the digits of the sum. *)
Definition num_add_273_15 (x : jsnum) : jsnum :=
  match x with
  | NaN => NaN
  | Dec m k =>
      let k' := Nat.max k 2 in
      mkDec (m * 10 ^ Z.of_nat (k' - k) + 27315 * 10 ^ Z.of_nat (k' - 2)) k'
  end.

(** Value of a run of decimal digits, most significant first. *)
Definition digits_value (l : jsstring) : Z :=
  fold_left (fun acc c => 10 * acc + (Z.of_N c - 48)) l 0.

(** [parseInt(s)] on a non-empty run of digits: the exact value of the run,
    which is the number that the source holds when it is below 2^53. *)
Definition parseInt (s : jsstring) : Z := digits_value (digit_run s).

(** [parseFloat(s)] on [digits* '.' digits*] or [digits+]: the longest
    prefix that is a decimal literal, [NaN] when it holds no digit.  The
    result is the exact decimal; the source holds the nearest binary64
    number, which is that decimal when it is an integer below 2^53. *)
Definition parseFloat (s : jsstring) : jsnum :=
  let ip := digit_run s in
  let fp := match skipn (length ip) s with
            | 46%N :: t => digit_run t
            | _ => []
            end in
  match ip ++ fp with
  | [] => NaN
  | ds => mkDec (digits_value ds) (length fp)
  end.

(** Decimal digits of a natural number, most significant first. *)
Fixpoint digits_fuel (fuel : nat) (n : Z) (acc : jsstring) : jsstring :=
  match fuel with
  | O => acc
  | S fuel' =>
      let acc' := Z.to_N (48 + n mod 10) :: acc in
      if Z.ltb n 10 then acc' else digits_fuel fuel' (n / 10) acc'
  end.

Definition digits_of (n : Z) : jsstring :=
  digits_fuel (S (Z.to_nat (Z.log2 n))) n [].

Fixpoint strip_trailing_zeros_rev (r : jsstring) : jsstring :=
  match r with
  | 48%N :: r' => strip_trailing_zeros_rev r'
  | _ => r
  end.

Definition strip_trailing_zeros (l : jsstring) : jsstring :=
  rev (strip_trailing_zeros_rev (rev l)).

Definition sign_prefix (m : Z) : jsstring :=
  if Z.ltb m 0 then js "-" else [].

(** Positional rendering of [|m| * 10^-k]. *)
Definition positional (m : Z) (k : nat) : jsstring :=
  let d := digits_of (Z.abs m) in
  let p := repeat 48%N (S k - length d) ++ d in
  let ip := firstn (length p - k) p in
  let fp := skipn (length p - k) p in
  match fp with
  | [] => ip
  | _ => ip ++ js "." ++ fp
  end.

(** Exponent rendering [d.ddde+x] of [|m| * 10^-k], where [n] is the
    position of the decimal point relative to the first digit. *)
Definition exponential (m : Z) (n : Z) : jsstring :=
  let sig := strip_trailing_zeros (digits_of (Z.abs m)) in
  let e := n - 1 in
  let es := (if Z.ltb e 0 then js "-" else js "+") ++ digits_of (Z.abs e) in
  match sig with
  | [] => []
  | [d] => [d] ++ js "e" ++ es
  | d :: ds => [d] ++ js "." ++ ds ++ js "e" ++ es
  end.

(** Position of the decimal point of [m * 10^-k] relative to its first
    significant digit: [10^(n-1) <= |x| < 10^n]. *)
Definition point_position (m : Z) (k : nat) : Z :=
  Z.of_nat (length (digits_of (Z.abs m))) - Z.of_nat k.

(** Does [Number::toString] use positional notation? *)
Definition positional_range (x : jsnum) : bool :=
  match x with
  | NaN => false
  | Dec m k =>
      let (m', k') := normalize_dec m k in
      Z.eqb m' 0 ||
      (Z.ltb (-6) (point_position m' k') && Z.leb (point_position m' k') 21)
  end.

(** [Number::toString(x)] (radix 10). *)
Definition Number_toString (x : jsnum) : jsstring :=
  match x with
  | NaN => js "NaN"
  | Dec m k =>
      let (m', k') := normalize_dec m k in
      if positional_range x
      then sign_prefix m' ++ positional m' k'
      else sign_prefix m' ++ exponential m' (point_position m' k')
  end.

(** [JSON.stringify(x)] for a number. *)
Definition JSON_stringify (x : jsnum) : jsstring :=
  match x with
  | NaN => js "null"
  | _ => Number_toString x
  end.

(** String concatenation with an integer-valued number: ['' + n]; below
    2^53 the source holds [n] exactly and prints all its digits. *)
Definition int_toString (n : Z) : jsstring := Number_toString (num_of_Z n).

Definition show (s : jsstring) : string :=
  string_of_list_ascii (map ascii_of_N s).

(* ================================================================= *)
(** ** Objects used as exponent vectors *)

Definition exps := list (jsstring * Z).

(** [o[k]], [None] standing for [undefined]. *)
Fixpoint obj_get (o : exps) (k : jsstring) : option Z :=
  match o with
  | [] => None
  | (k', v) :: o' => if str_eqb k' k then Some v else obj_get o' k
  end.

(** [o.hasOwnProperty(k)] *)
Definition obj_has (o : exps) (k : jsstring) : bool :=
  match obj_get o k with Some _ => true | None => false end.

(** [o[k] = v] *)
Fixpoint obj_set (o : exps) (k : jsstring) (v : Z) : exps :=
  match o with
  | [] => [(k, v)]
  | (k', v') :: o' =>
      if str_eqb k' k then (k', v) :: o' else (k', v') :: obj_set o' k v
  end.

(** [Object.keys(o)] *)
Definition obj_keys (o : exps) : list jsstring := map fst o.

(** [x || 0] *)
Definition or0 (x : option Z) : Z :=
  match x with Some v => v | None => 0 end.

(** [Object.keys(o).forEach((key) => { o[key] = f(o[key]); })] *)
Definition obj_map (f : Z -> Z) (o : exps) : exps :=
  map (fun kv => (fst kv, f (snd kv))) o.

(** [Object.keys(t).forEach((key) => { o[key] = op(o[key] || 0, t[key]); })] *)
Definition obj_merge (op : Z -> Z -> Z) (o t : exps) : exps :=
  fold_left (fun acc kv => obj_set acc (fst kv) (op (or0 (obj_get acc (fst kv))) (snd kv))) t o.

(** [o[k] += x]; every vector this is applied to owns [k]
    (see [parseTerm_owns_10]). *)
Definition obj_add (o : exps) (k : jsstring) (x : Z) : exps :=
  obj_set o k (or0 (obj_get o k) + x).

(** ['' + o[k]] *)
Definition prop_toString (x : option Z) : jsstring :=
  match x with Some v => int_toString v | None => js "undefined" end.

(* ================================================================= *)
(** ** Parse outcomes *)

Inductive outcome (T : Type) : Type :=
| Success (consumed rest : jsstring) (result : T)
| Failure (consumed rest : jsstring).
Arguments Success {T} consumed rest result.
Arguments Failure {T} consumed rest.

Definition consumed {T} (o : outcome T) : jsstring :=
  match o with Success c _ _ => c | Failure c _ => c end.

Definition rest {T} (o : outcome T) : jsstring :=
  match o with Success _ r _ => r | Failure _ r => r end.

Definition success {T} (o : outcome T) : bool :=
  match o with Success _ _ _ => true | Failure _ _ => false end.

Definition result {T} (o : outcome T) : option T :=
  match o with Success _ _ v => Some v | Failure _ _ => None end.

Definition map_result {A B} (f : A -> B) (o : outcome A) : outcome B :=
  match o with
  | Success c r v => Success c r (f v)
  | Failure c r => Failure c r
  end.

Inductive exn : Type :=
| TypeError
| Error (message : jsstring).

Inductive completion (A : Type) : Type :=
| Returns (a : A)
| Throws (e : exn).
Arguments Returns {A} a.
Arguments Throws {A} e.

(** Recursion of a rule on the rest of its input: [body] is the text of the
    rule with its self-calls abstracted; the fuel is the length of the input,
    and [recurse_unfold] shows that it never runs out. *)
Section Fuel.
Context {T : Type}.
Variable body : (jsstring -> outcome T) -> jsstring -> outcome T.

Fixpoint iterate (fuel : nat) (s : jsstring) : outcome T :=
  match fuel with
  | O => Failure [] s
  | S n => body (iterate n) s
  end.

Definition recurse (s : jsstring) : outcome T := iterate (S (length s)) s.
End Fuel.

(* ================================================================= *)
(** ** Lexical rules *)

Definition _parseChar (s : jsstring) (char : jschar) : outcome unit :=
  match s with
  | c :: _ =>
      if N.eqb char c
      then Success [char] (substring_from 1 s) tt
      else Failure [] s
  | [] => Failure [] s
  end.

(** <digits> ::= 0 | 1 | 2 | 3 | 4 | 5 | 6 | 7 | 8 | 9 *)
Definition _parseDigits (s : jsstring) : outcome Z :=
  let i := length (digit_run s) in
  if negb (Nat.eqb i 0) then
    let consumed := firstn i s in
    Success consumed (substring_from i s) (parseInt consumed)
  else Failure [] s.

(** <dot-digits> ::= . <digits> *)
Definition _parseDotDigits (s : jsstring) : outcome jsnum :=
  match _parseChar s (ch ".") with
  | Success pc pr _ =>
      let digitsAfterPeriodResult := _parseDigits pr in
      let consumedAfterPeriod := pc ++ consumed digitsAfterPeriodResult in
      Success consumedAfterPeriod
              (substring_from (length consumedAfterPeriod) s)
              (parseFloat consumedAfterPeriod)
  | Failure pc _ => Failure pc s
  end.

(** <decimal> ::= + <decimal> | - <decimal>
                  | <digits> <dot-digits> | <digits> | <dot-digits> *)
Definition parseDecimal_body (_parseDecimal : jsstring -> outcome jsnum)
    (s : jsstring) : outcome jsnum :=
  match _parseChar s (ch "+") with
  | Success pc pr _ =>
      match _parseDecimal pr with
      | Success c r v => Success (pc ++ c) r v
      | Failure c _ => Failure (pc ++ c) s
      end
  | Failure _ _ =>
      match _parseChar s (ch "-") with
      | Success mc mr _ =>
          match _parseDecimal mr with
          | Success c r v => Success (mc ++ c) r (num_neg v)
          | Failure c _ => Failure (mc ++ c) s
          end
      | Failure _ _ =>
          let digitsResult := _parseDigits s in
          match _parseDotDigits (rest digitsResult) with
          | Success dc dr _ =>
              let consumedAroundPeriod := consumed digitsResult ++ dc in
              Success consumedAroundPeriod dr (parseFloat consumedAroundPeriod)
          | Failure _ _ => map_result num_of_Z digitsResult
          end
      end
  end.

Definition _parseDecimal : jsstring -> outcome jsnum :=
  recurse parseDecimal_body.

(** <integer> ::= + <integer> | - <integer> | <digits> *)
Definition parseInteger_body (_parseInteger : jsstring -> outcome Z)
    (s : jsstring) : outcome Z :=
  match _parseChar s (ch "+") with
  | Success pc pr _ =>
      match _parseInteger pr with
      | Success c r v => Success (pc ++ c) r v
      | Failure c _ => Failure (pc ++ c) s
      end
  | Failure _ _ =>
      match _parseChar s (ch "-") with
      | Success mc mr _ =>
          match _parseInteger mr with
          | Success c r v => Success (mc ++ c) r (- v)
          | Failure c _ => Failure (mc ++ c) s
          end
      | Failure _ _ =>
          match _parseDigits s with
          | Success c r v => Success c r v
          | Failure c _ => Failure c s
          end
      end
  end.

Definition _parseInteger : jsstring -> outcome Z :=
  recurse parseInteger_body.

(** <exponent> ::= <integer> *)
Definition _parseExponent (s : jsstring) : outcome Z := _parseInteger s.

(** <significand> ::= <decimal> *)
Definition _parseSignificand (s : jsstring) : outcome jsnum := _parseDecimal s.

(* ================================================================= *)
(** ** The prefix and unit tables of [_parseBase] *)

Definition mu : jsstring := [956%N].          (* U+03BC *)
Definition Omega : jsstring := [937%N].       (* U+03A9 *)
Definition degC : jsstring := [176%N; 67%N].  (* U+00B0 C *)

Definition prefixes : exps :=
  [ (js "Y", 24); (js "Z", 21); (js "E", 18); (js "P", 15); (js "T", 12);
    (js "G", 9); (js "M", 6); (js "k", 3); (js "h", 2); (js "da", 1);
    (js "", 0); (js "d", -1); (js "c", -2); (js "m", -3); (mu, -6);
    (js "n", -9); (js "p", -12); (js "f", -15); (js "a", -18);
    (js "z", -21); (js "y", -24) ].

Definition baseUnits : list jsstring :=
  [ js "m"; js "g"; js "s"; js "A"; js "K"; js "mol"; js "cd" ].

Record derived_unit : Type := {
  d_exponents : exps;
  d_conversion : option (jsnum -> jsnum)
}.

Definition derived (e : exps) : derived_unit :=
  {| d_exponents := e; d_conversion := None |}.

Definition derivedUnits : list (jsstring * derived_unit) :=
  [ (js "L", derived [(js "10", -3); (js "m", 3)]);
    (js "rad", derived []);
    (js "sr", derived []);
    (js "Hz", derived [(js "s", -1)]);
    (js "N", derived [(js "10", 3); (js "g", 1); (js "m", 1); (js "s", -2)]);
    (js "Pa", derived [(js "10", 3); (js "g", 1); (js "m", -1); (js "s", -2)]);
    (js "bar", derived [(js "10", 8); (js "g", 1); (js "m", -1); (js "s", -2)]);
    (js "J", derived [(js "10", 3); (js "g", 1); (js "m", 2); (js "s", -2)]);
    (js "W", derived [(js "10", 3); (js "g", 1); (js "m", 2); (js "s", -3)]);
    (js "C", derived [(js "s", 1); (js "A", 1)]);
    (js "V", derived [(js "10", 3); (js "g", 1); (js "m", 2); (js "s", -3);
                      (js "A", -1)]);
    (js "F", derived [(js "10", -3); (js "g", -1); (js "m", -2); (js "s", 4);
                      (js "A", 2)]);
    (Omega, derived [(js "10", 3); (js "g", 1); (js "m", 2); (js "s", -3);
                     (js "A", -2)]);
    (js "S", derived [(js "10", -3); (js "g", -1); (js "m", -2); (js "s", 3);
                      (js "A", 2)]);
    (js "Wb", derived [(js "10", 3); (js "g", 1); (js "m", 2); (js "s", -2);
                       (js "A", -1)]);
    (js "T", derived [(js "10", 3); (js "g", 1); (js "s", -2); (js "A", -1)]);
    (js "H", derived [(js "10", 3); (js "g", 1); (js "m", 2); (js "s", -2);
                      (js "A", -2)]);
    (degC, {| d_exponents := [(js "K", 1)];
              d_conversion := Some (fun magnitude => num_add_273_15 magnitude) |});
    (js "lm", derived [(js "cd", 1)]);
    (js "lx", derived [(js "m", -2); (js "cd", 1)]);
    (js "Bq", derived [(js "s", -1)]);
    (js "Gy", derived [(js "m", 2); (js "s", -2)]);
    (js "Sv", derived [(js "m", 2); (js "s", -2)]);
    (js "kat", derived [(js "mol", 1); (js "s", -1)]) ].

Definition perUnits : list jsstring :=
  [ js "%"; js "ppm"; js "ppb"; js "ppt"; js "ppq" ].

Definition prefixlessUnits : list jsstring := perUnits ++ [ degC ].

Definition units : list jsstring :=
  baseUnits ++ perUnits ++ map fst derivedUnits.

(** [l.indexOf(x) !== -1] *)
Definition includes (l : list jsstring) (x : jsstring) : bool :=
  existsb (str_eqb x) l.

Fixpoint lookup_derived (t : list (jsstring * derived_unit)) (u : jsstring)
  : option derived_unit :=
  match t with
  | [] => None
  | (k, d) :: t' => if str_eqb k u then Some d else lookup_derived t' u
  end.

(* ================================================================= *)
(** ** Base matcher *)

Definition total_length (m : jsstring * jsstring) : nat :=
  length (fst m) + length (snd m).

(** [Array.prototype.sort] with the comparator
    [(lhs, rhs) => total(rhs) - total(lhs)]: a stable sort by decreasing
    total length. *)
Fixpoint sort_insert (x : jsstring * jsstring) (l : list (jsstring * jsstring))
  : list (jsstring * jsstring) :=
  match l with
  | [] => [x]
  | y :: l' =>
      if Nat.leb (total_length y) (total_length x)
      then x :: y :: l'
      else y :: sort_insert x l'
  end.

Definition sort_longest_first (l : list (jsstring * jsstring))
  : list (jsstring * jsstring) :=
  fold_right sort_insert [] l.

(** The array [match] before it is sorted. *)
Definition matches (s : jsstring) : list (jsstring * jsstring) :=
  flat_map
    (fun prefix =>
       map (fun unit => (prefix, unit))
           (filter (fun unit =>
                      negb (includes prefixlessUnits unit) &&
                      starts_with (prefix ++ unit) s)
                   units))
    (filter (fun prefix => negb (str_eqb prefix []) && starts_with prefix s)
            (obj_keys prefixes))
  ++ map (fun unit => ([], unit))
         (filter (fun unit => starts_with unit s) units).

Record unit_result : Type := {
  exponents : exps;
  conversion : jsnum -> jsnum
}.

(** <base> ::= <base-unit> | <prefix> <base-unit>
               | <derived-unit> | <prefix> <derived-unit> *)
Definition _parseBase (s : jsstring) : outcome unit_result :=
  match sort_longest_first (matches s) with
  | (prefix, unit) :: _ =>
      let consumed := prefix ++ unit in
      let exponents0 := [(js "10", or0 (obj_get prefixes prefix))] in
      Success consumed (substring_from (length consumed) s)
        match lookup_derived derivedUnits unit with
        | Some d =>
            {| exponents := obj_merge Z.add exponents0 (d_exponents d);
               conversion := match d_conversion d with
                             | Some f => f
                             | None => fun magnitude => magnitude
                             end |}
        | None =>
            {| exponents := obj_set exponents0 unit 1;
               conversion := fun magnitude => magnitude |}
        end
  | [] => Failure [] s
  end.

(** <factor> ::= <base> | <base> ^ <exponent> *)
Definition _parseFactor (s : jsstring) : outcome unit_result :=
  match _parseBase s with
  | Success bc br b =>
      match _parseChar br (ch "^") with
      | Success cc cr _ =>
          let exponentResult := _parseExponent cr in
          let consumedAroundCaret := bc ++ cc ++ consumed exponentResult in
          match exponentResult with
          | Success _ er exponent =>
              Success consumedAroundCaret er
                {| exponents := obj_map (fun v => v * exponent) (exponents b);
                   conversion := conversion b |}
          | Failure _ _ => Failure consumedAroundCaret s
          end
      | Failure _ _ => Success bc br b
      end
  | Failure bc _ => Failure bc s
  end.

Definition parseCharTerm_with (_parseTerm : jsstring -> outcome unit_result)
    (s : jsstring) (char : jschar) : outcome unit_result :=
  match _parseChar s char with
  | Success cc cr _ =>
      let termResult := _parseTerm cr in
      let consumed := cc ++ consumed termResult in
      match termResult with
      | Success _ tr t => Success consumed tr t
      | Failure _ _ => Failure consumed s
      end
  | Failure cc _ => Failure cc s
  end.

(** <term> ::= ( <term> ) | <factor> <asterix-term>
               | <factor> <slash-term> | <factor> *)
Definition parseTerm_body (_parseTerm : jsstring -> outcome unit_result)
    (s : jsstring) : outcome unit_result :=
  match _parseChar s (ch "(") with
  | Success oc or _ =>
      match _parseTerm or with
      | Success tc tr t =>
          let closeParenthesisResult := _parseChar tr (ch ")") in
          let consumedInclusiveBetweenParentheses :=
            oc ++ tc ++ consumed closeParenthesisResult in
          match closeParenthesisResult with
          | Success _ cr _ => Success consumedInclusiveBetweenParentheses cr t
          | Failure _ _ => Failure consumedInclusiveBetweenParentheses s
          end
      | Failure tc _ => Failure (oc ++ tc) s
      end
  | Failure _ _ =>
      match _parseFactor s with
      | Success fc fr f =>
          match parseCharTerm_with _parseTerm fr (ch "*") with
          | Success ac ar a =>
              Success (fc ++ ac) ar
                {| exponents := obj_merge Z.add (exponents f) (exponents a);
                   conversion := fun magnitude =>
                     conversion f (conversion a magnitude) |}
          | Failure _ _ =>
              match parseCharTerm_with _parseTerm fr (ch "/") with
              | Success sc sr t =>
                  Success (fc ++ sc) sr
                    {| exponents := obj_merge Z.sub (exponents f) (exponents t);
                       conversion := fun magnitude =>
                         conversion f (conversion t magnitude) |}
              | Failure _ _ => Success fc fr f
              end
          end
      | Failure fc _ => Failure fc s
      end
  end.

Definition _parseTerm : jsstring -> outcome unit_result :=
  recurse parseTerm_body.

Definition _parseCharTerm : jsstring -> jschar -> outcome unit_result :=
  parseCharTerm_with _parseTerm.

(** <asterix-term> ::= * <term> *)
Definition _parseAsterixTerm (s : jsstring) : outcome unit_result :=
  _parseCharTerm s (ch "*").

(** <slash-term> ::= / <term> *)
Definition _parseSlashTerm (s : jsstring) : outcome unit_result :=
  _parseCharTerm s (ch "/").

(* ================================================================= *)
(** ** Magnitude and expression *)

Record magnitude_result : Type := {
  significand : jsnum;
  exponent : Z
}.

(** <magnitude> ::= <significand> | <significand> *10^ <exponent>
                    | <significand> E <exponent> | <significand> e <exponent> *)
Definition _parseMagnitude (s : jsstring) : outcome magnitude_result :=
  match _parseSignificand s with
  | Success sc sr sv =>
      let operator : option jsstring :=
        if starts_with (js "*10^") sr then Some (js "*10^")
        else match sr with
             | c :: _ =>
                 if N.eqb c (ch "E") || N.eqb c (ch "e") then Some [c] else None
             | [] => None
             end in
      match operator with
      | Some operator =>
          let exponentResult := _parseExponent (substring_from (length operator) sr) in
          let consumed := sc ++ operator ++ consumed exponentResult in
          match exponentResult with
          | Success _ _ ev =>
              Success consumed (substring_from (length consumed) s)
                {| significand := sv; exponent := ev |}
          | Failure _ _ => Failure consumed s
          end
      | None => Success sc sr {| significand := sv; exponent := 0 |}
      end
  | Failure sc _ => Failure sc s
  end.

Record expression_result : Type := {
  magnitude : jsnum;
  e_exponents : exps
}.

(** <expression> ::= <magnitude> <term> | <magnitude> <asterix-term>
                     | <magnitude> <slash-term> | <magnitude> | <term>

    When the magnitude fails on an empty input, the branch for a magnitude
    alone reads [magnitudeResult.result.significand] with
    [magnitudeResult.result] undefined, which throws. *)
Definition _parseExpression (s : jsstring)
  : completion (outcome expression_result) :=
  let magnitudeResult := _parseMagnitude s in
  if success magnitudeResult || str_eqb (consumed magnitudeResult) [] then
    match rest magnitudeResult with
    | c :: _ =>
        let operator : jsstring :=
          if N.eqb c (ch "*") then js "*"
          else if N.eqb c (ch "/") then js "/"
          else [] in
        let rest' :=
          substring_from (if str_eqb operator [] then 0 else 1)
                         (rest magnitudeResult) in
        let termResult := _parseTerm rest' in
        let consumed := consumed magnitudeResult ++ operator ++ consumed termResult in
        match termResult with
        | Success _ tr t =>
            let exponents1 :=
              if str_eqb operator (js "/")
              then obj_map Z.opp (exponents t)
              else exponents t in
            let exponents2 :=
              match magnitudeResult with
              | Success _ _ m => obj_add exponents1 (js "10") (exponent m)
              | Failure _ _ => exponents1
              end in
            Returns (Success consumed tr
              {| magnitude :=
                   match magnitudeResult with
                   | Success _ _ m => conversion t (significand m)
                   | Failure _ _ => NaN
                   end;
                 e_exponents := exponents2 |})
        | Failure _ _ => Returns (Failure consumed s)
        end
    | [] =>
        match magnitudeResult with
        | Success mc mr m =>
            Returns (Success mc mr
              {| magnitude := significand m;
                 e_exponents := [(js "10", exponent m)] |})
        | Failure _ _ => Throws TypeError
        end
    end
  else Returns (Failure (consumed magnitudeResult) s).

(* ================================================================= *)
(** ** Canonical rendering and the entry point *)

Definition canonical_keys : list jsstring :=
  [ js "10"; js "g"; js "m"; js "s"; js "A"; js "K"; js "cd"; js "mol";
    js "%"; js "ppm"; js "ppb"; js "ppt"; js "ppq" ].

Record normalized : Type := {
  n_magnitude : jsstring;
  n_units : jsstring
}.

(** [unit + (exponents[unit] !== 1 ? '^' + exponents[unit] : '')] *)
Definition render_unit (exponents : exps) (unit : jsstring) : jsstring :=
  unit ++ match obj_get exponents unit with
          | Some 1 => []
          | x => js "^" ++ prop_toString x
          end.

Definition magnitudeString (magnitude : jsnum) (exponents : exps) : jsstring :=
  JSON_stringify magnitude ++
  match obj_get exponents (js "10") with
  | Some 0 => []
  | x => js "*10^" ++ prop_toString x
  end.

Definition unitsString (exponents : exps) : jsstring :=
  let units := filter (fun unit => obj_has exponents unit) canonical_keys in
  join (js "*")
       (map (render_unit exponents)
            (filter (fun unit => negb (str_eqb unit (js "10"))) units)).

(** The argument is a string, so the [typeof] guard never fires. *)
Definition _normalizeUnits (input : jsstring) : completion (outcome normalized) :=
  let s := strip_spaces input in
  if str_eqb s [] then
    Returns (Success [] [] {| n_magnitude := []; n_units := [] |})
  else
    match _parseExpression s with
    | Returns (Success ec er e) =>
        Returns (Success ec er
          {| n_magnitude := magnitudeString (magnitude e) (e_exponents e);
             n_units := unitsString (e_exponents e) |})
    | Returns (Failure ec _) => Returns (Failure ec input)
    | Throws e => Throws e
    end.

(** Modelled from the spec: [_throttle] is not part of the sources; the
    spec describes it as a call-rate limiting wrapper around the entry point
    that does not alter its semantics, so it applies the function to its
    argument. *)
Definition _throttle {A B} (f : A -> B) (argument : A) : B := f argument.

Definition error_message (consumed input : jsstring) : jsstring :=
  js "Unable to parse after '" ++ consumed ++ js "' in '" ++ input ++
  js "'. Are you sure metric units are being used?".

Definition normalizeUnits (input : jsstring) : completion jsstring :=
  match _throttle _normalizeUnits input with
  | Returns (Success _ _ r) =>
      let magnitudeString := n_magnitude r in
      let unitsString := n_units r in
      Returns
        (if str_eqb magnitudeString [] && str_eqb unitsString []
         then []
         else magnitudeString ++
              (if str_eqb unitsString (js "%") || str_eqb unitsString []
               then [] else js " ") ++
              unitsString)
  | Returns (Failure c _) => Throws (Error (error_message c input))
  | Throws e => Throws e
  end.

Definition show_completion (c : completion jsstring) : completion string :=
  match c with
  | Returns s => Returns (show s)
  | Throws (Error m) => Throws (Error m)
  | Throws TypeError => Throws TypeError
  end.

(* ================================================================= *)
(** ** Vocabulary of the properties *)

(** On success the consumed text and the rest make up the input; on failure
    the rest is the whole input and the consumed text is a prefix of it. *)
Definition well_formed {T} (s : jsstring) (o : outcome T) : Prop :=
  match o with
  | Success c r _ => c ++ r = s
  | Failure c r => r = s /\ exists t, c ++ t = s
  end.

(** The head of an insertion is at least as long as every element. *)
Definition head_longest (l : list (jsstring * jsstring)) : Prop :=
  match l with
  | [] => True
  | x :: l' => forall y, In y l' -> (total_length y <= total_length x)%nat
  end.

(** The pairs the matcher considers: a prefix of the table, a unit of the
    table, prefix-less units only with the empty prefix, and their
    concatenation at the start of the input. *)
Definition candidate (s : jsstring) (m : jsstring * jsstring) : Prop :=
  In (fst m) (obj_keys prefixes) /\
  In (snd m) units /\
  (fst m = [] \/ includes prefixlessUnits (snd m) = false) /\
  starts_with (fst m ++ snd m) s = true.

(** The same shape for a rule that may throw: nothing is asked of a call
    that does not return. *)
Definition well_formed_completion {T} (s : jsstring)
    (c : completion (outcome T)) : Prop :=
  match c with
  | Returns o => well_formed s o
  | Throws _ => True
  end.

(** The magnitude and the exponent vector an input normalises to. *)
Definition normal_form (input : jsstring) : option (jsnum * exps) :=
  match _parseExpression (strip_spaces input) with
  | Returns (Success _ _ e) => Some (magnitude e, e_exponents e)
  | _ => None
  end.

(** Two normal forms stand for the same quantity: the same exponent on
    every key other than 10, and magnitudes that agree once the exponents
    of ten are taken into account. *)
Definition same_quantity (a b : jsnum * exps) : Prop :=
  (forall k, k <> js "10" -> obj_get (snd a) k = obj_get (snd b) k) /\
  match fst a, fst b with
  | Dec m1 k1, Dec m2 k2 =>
      let e1 := or0 (obj_get (snd a) (js "10")) - Z.of_nat k1 in
      let e2 := or0 (obj_get (snd b) (js "10")) - Z.of_nat k2 in
      m1 * 10 ^ (e1 - Z.min e1 e2) = m2 * 10 ^ (e2 - Z.min e1 e2)
  | _, _ => False
  end.

(** The canonical keys that may appear in the units string. *)
Definition unit_keys : list jsstring :=
  [ js "g"; js "m"; js "s"; js "A"; js "K"; js "cd"; js "mol";
    js "%"; js "ppm"; js "ppb"; js "ppt"; js "ppq" ].

(** [digits_value] continued from an accumulated value. *)
Definition digits_from (acc : Z) (l : jsstring) : Z :=
  fold_left (fun acc c => 10 * acc + (Z.of_N c - 48)) l acc.

Definition all_digits (d : jsstring) : Prop :=
  Forall (fun c => is_digit c = true) d.

(** A text that does not begin with a digit. *)
Definition no_digit_head (t : jsstring) : Prop :=
  match t with
  | [] => True
  | c :: _ => is_digit c = false
  end.

(** Decimal fractions in canonical form. *)
Definition normal (m : Z) (k : nat) : Prop := k = O \/ m mod 10 <> 0.

(** A text that may follow a decimal literal without extending it. *)
Definition decimal_tail (t : jsstring) : Prop :=
  match t with
  | [] => True
  | c :: _ => is_digit c = false /\ N.eqb (ch ".") c = false
  end.










(** Every exponent vector built by the grammar has the key 10 as its first
    own property. *)
Definition owns_10 (E : exps) : Prop :=
  exists v l, E = (js "10", v) :: l.




(** The output string of the entry point, from the two strings of
    [_normalizeUnits]. *)
Definition assemble (magnitudeString unitsString : jsstring) : jsstring :=
  if str_eqb magnitudeString [] && str_eqb unitsString []
  then []
  else magnitudeString ++
       (if str_eqb unitsString (js "%") || str_eqb unitsString []
        then [] else js " ") ++
       unitsString.


(** The result that [_parseBase] builds for a selected prefix and unit. *)
Definition base_result (prefix unit : jsstring) : unit_result :=
  let exponents0 := [(js "10", or0 (obj_get prefixes prefix))] in
  match lookup_derived derivedUnits unit with
  | Some d =>
      {| exponents := obj_merge Z.add exponents0 (d_exponents d);
         conversion := match d_conversion d with
                       | Some f => f
                       | None => fun magnitude => magnitude
                       end |}
  | None =>
      {| exponents := obj_set exponents0 unit 1;
         conversion := fun magnitude => magnitude |}
  end.

(** The exponent vector a unit of the tables stands for by itself. *)
Definition unit_vector (unit : jsstring) : exps :=
  match lookup_derived derivedUnits unit with
  | Some d => d_exponents d
  | None => [(unit, 1)]
  end.

(** Every key that a vector owns is one of the thirteen canonical keys. *)
Definition canonical_vector (E : exps) : Prop :=
  forall k, obj_has E k = true -> In k canonical_keys.

(** The pairs of the tables that the matcher may select. *)
Definition table_pairs : list (jsstring * jsstring) :=
  flat_map
    (fun prefix =>
       map (fun unit => (prefix, unit))
           (filter (fun unit =>
                      str_eqb prefix [] || negb (includes prefixlessUnits unit))
                   units))
    (obj_keys prefixes).

(** Exponent by exponent, [E] is [A] plus [B]. *)
Definition vector_sum (E A B : exps) : Prop :=
  forall k, or0 (obj_get E k) = or0 (obj_get A k) + or0 (obj_get B k).

(** Exponent by exponent, [E] is [A] minus [B]. *)
Definition vector_difference (E A B : exps) : Prop :=
  forall k, or0 (obj_get E k) = or0 (obj_get A k) - or0 (obj_get B k).

(** The leading run of signs of a text: what [_parseInteger] and
    [_parseDecimal] match before they look for digits. *)
Definition is_sign (c : jschar) : bool :=
  N.eqb (ch "+") c || N.eqb (ch "-") c.

Fixpoint sign_run (s : jsstring) : jsstring :=
  match s with
  | c :: s' => if is_sign c then c :: sign_run s' else []
  | [] => []
  end.

(** The operators that announce a power of ten after a significand. *)
Definition power_operator (op : jsstring) : Prop :=
  op = js "*10^" \/ op = js "E" \/ op = js "e".

(** The integers that a binary64 number holds exactly, with their
    neighbours: up to 2^53 - 1 in absolute value. *)
Definition safe_integer (v : Z) : bool := Z.abs v <=? 9007199254740991.

(** The length of the longest run of digits of a text, [current] digits
    having just been read. *)
Fixpoint longest_digit_run (s : jsstring) (current : nat) : nat :=
  match s with
  | [] => current
  | c :: s' =>
      if is_digit c then longest_digit_run s' (S current)
      else Nat.max current (longest_digit_run s' 0)
  end.

(** The inputs on which the integers of this model are the numbers of the
    code.  Every number written in the input has at most nine digits and the
    input has at most 100000 characters.  An exponent of the tables is at
    most 32 in absolute value (a prefix, at most 24, plus the unit's own
    power of ten, at most 8), a written exponent is below 10^9, a factor's
    exponent is therefore below 32 * 10^9, and every sum or difference that
    the grammar forms adds at most one factor per character and one power of
    ten of a magnitude: every integer that the code computes is below
    33 * 10^9 * 10^5 < 2^53 in absolute value, where binary64 addition,
    subtraction and multiplication of integers are exact and an integer is
    printed with all its digits. *)
Definition exact_input (s : jsstring) : bool :=
  (Z.of_nat (length s) <=? 100000) &&
  (longest_digit_run s 0 <=? 9)%nat.


(** Every exponent of the vector is at most [B] in absolute value. *)
Definition bounded_vector (B : Z) (E : exps) : Prop :=
  forall k, Z.abs (or0 (obj_get E k)) <= B.

(** Every exponent of the vector is an integer that a binary64 number holds
    exactly. *)
Definition safe_vector (E : exps) : Prop :=
  forall k, safe_integer (or0 (obj_get E k)) = true.

(* ================================================================= *)
(** * Properties *)

(** ** The model on examples *)

Example toString_examples :
  map (fun x => show (Number_toString x))
      [Dec 50 0; Dec (-5) 1; Dec 1500 3; Dec 27415 2; Dec 1 7; Dec 0 0;
       Dec (10 ^ 21) 0; Dec (12 * 10 ^ 20) 0; Dec 123 8; Dec 1 6; Dec (-7) 0]
  = ["50"; "-0.5"; "1.5"; "274.15"; "1e-7"; "0";
     "1e+21"; "1.2e+21"; "0.00000123"; "0.000001"; "-7"]%string.
Proof. vm_compute. reflexivity. Qed.

Example parseFloat_examples :
  map parseFloat [js "50.5"; js "."; js ".5"; js "5."; js "0.10"; js "007"]
  = [Dec 505 1; NaN; Dec 5 1; Dec 5 0; Dec 1 1; Dec 7 0].
Proof. vm_compute. reflexivity. Qed.

Example parseDecimal_examples :
  map _parseDecimal [js "50kPa"; js "-3.14"; js "+x"; js "."; js "m"]
  = [Success (js "50") (js "kPa") (Dec 50 0);
     Success (js "-3.14") [] (Dec (-314) 2);
     Failure (js "+") (js "+x");
     Success (js ".") [] NaN;
     Failure [] (js "m")].
Proof. vm_compute. reflexivity. Qed.

Example parseBase_examples :
  map (fun s => map_result exponents (_parseBase (js s)))
      ["kPa"; "mol"; "qPa"; "m%"; "dam"; "kat"]%string
  = [Success (js "kPa") [] [(js "10", 6); (js "g", 1); (js "m", -1); (js "s", -2)];
     Success (js "mol") [] [(js "10", 0); (js "mol", 1)];
     Failure [] (js "qPa");
     Success (js "m") (js "%") [(js "10", 0); (js "m", 1)];
     Success (js "dam") [] [(js "10", 1); (js "m", 1)];
     Success (js "kat") [] [(js "10", 0); (js "mol", 1); (js "s", -1)]].
Proof. vm_compute. reflexivity. Qed.

Example parseTerm_examples :
  map (fun s => map_result exponents (_parseTerm (js s)))
      ["kg*m^-1*s^-2"; "m/m"; "(m"; "kg/(m*s^2)"]%string
  = [Success (js "kg*m^-1*s^-2") []
       [(js "10", 3); (js "g", 1); (js "m", -1); (js "s", -2)];
     Success (js "m/m") [] [(js "10", 0); (js "m", 0)];
     Failure (js "(m") (js "(m");
     Success (js "kg/(m*s^2)") []
       [(js "10", 3); (js "g", 1); (js "m", -1); (js "s", -2)]].
Proof. vm_compute. reflexivity. Qed.

Example normalizeUnits_examples :
  map (fun s => show_completion (normalizeUnits (js s)))
      ["50 kPa"; "50*10^3 kg/(m*s^2)"; "5.0*10^4 kg*m^-1*s^-2"; ""; "4 m^2";
       "4 m^-2"; "1 m/m"; "kPa"; "12.5 %"; "3e2"; "1 / s"]%string
  = map Returns
      ["50*10^6 g*m^-1*s^-2"; "50*10^6 g*m^-1*s^-2"; "5*10^7 g*m^-1*s^-2"; "";
       "4 m^2"; "4 m^-2"; "1 m^0"; "null*10^6 g*m^-1*s^-2"; "12.5%";
       "3*10^2"; "1 s^-1"]%string.
Proof. vm_compute. reflexivity. Qed.

(** ** Strings and fuel *)

Lemma str_eqb_eq (a b : jsstring) : str_eqb a b = true <-> a = b.
Proof.
  unfold str_eqb. destruct (list_eq_dec N.eq_dec a b); split; congruence.
Qed.

Lemma str_eqb_neq (a b : jsstring) : str_eqb a b = false <-> a <> b.
Proof.
  unfold str_eqb. destruct (list_eq_dec N.eq_dec a b); split; congruence.
Qed.

Lemma str_eqb_refl (a : jsstring) : str_eqb a a = true.
Proof. now apply str_eqb_eq. Qed.

Lemma starts_with_prefix (p s : jsstring) :
  starts_with p s = true <-> exists t, p ++ t = s.
Proof.
  revert s. induction p as [|a p IH]; intros s; simpl.
  - split; eauto.
  - destruct s as [|b s].
    + split; [discriminate | intros [t H]; discriminate].
    + rewrite andb_true_iff, N.eqb_eq, IH. split.
      * intros [-> [t <-]]. now exists t.
      * intros [t H]. injection H as -> <-. eauto.
Qed.

Lemma prefix_skipn (c t s : jsstring) :
  c ++ t = s -> c ++ skipn (length c) s = s.
Proof.
  intros <-. now rewrite skipn_app, skipn_all, Nat.sub_diag.
Qed.

Section FuelFacts.
Context {T : Type}.
Variable body : (jsstring -> outcome T) -> jsstring -> outcome T.
Hypothesis body_local : forall f g s,
  (forall t, (length t < length s)%nat -> f t = g t) -> body f s = body g s.

Lemma iterate_enough (n m : nat) (s : jsstring) :
  (length s < n)%nat -> (length s < m)%nat ->
  iterate body n s = iterate body m s.
Proof.
  revert m s. induction n as [|n IH]; intros m s Hn Hm; [lia|].
  destruct m as [|m]; [lia|]. simpl.
  apply body_local. intros t Ht. apply IH; lia.
Qed.

(** The fuel never runs out: the rule satisfies its recursive equation. *)
Lemma recurse_unfold (s : jsstring) :
  recurse body s = body (recurse body) s.
Proof.
  unfold recurse at 1. simpl. apply body_local. intros t Ht.
  unfold recurse. apply iterate_enough; lia.
Qed.
End FuelFacts.

(** ** Shape of the outcomes *)

Lemma well_formed_prefix {T} (s : jsstring) (o : outcome T) :
  well_formed s o -> exists t, consumed o ++ t = s.
Proof. destruct o; simpl; [eauto | tauto]. Qed.

Lemma well_formed_failure {T} (s : jsstring) (o : outcome T) :
  well_formed s o -> success o = false -> rest o = s.
Proof. destruct o; simpl; [discriminate | tauto]. Qed.

Lemma well_formed_map {A B} (f : A -> B) (s : jsstring) (o : outcome A) :
  well_formed s o -> well_formed s (map_result f o).
Proof. now destruct o. Qed.

Lemma parseChar_inv (s : jsstring) (char : jschar) c r u :
  _parseChar s char = Success c r u -> c = [char] /\ s = char :: r.
Proof.
  unfold _parseChar. destruct s as [|a s]; [discriminate|].
  destruct (N.eqb_spec char a); [|discriminate].
  intros H. injection H as <- <- _. subst. auto.
Qed.

Lemma parseChar_fail (s : jsstring) (char : jschar) c r :
  _parseChar s char = Failure c r -> c = [] /\ r = s.
Proof.
  unfold _parseChar. destruct s as [|a s].
  - intros H. injection H as <- <-. auto.
  - destruct (N.eqb char a); [discriminate|].
    intros H. injection H as <- <-. auto.
Qed.

Lemma parseChar_wf (s : jsstring) (char : jschar) :
  well_formed s (_parseChar s char).
Proof.
  destruct (_parseChar s char) as [c r u|c r] eqn:E.
  - apply parseChar_inv in E as [-> ->]. reflexivity.
  - apply parseChar_fail in E as [-> ->]. simpl. eauto.
Qed.

Lemma parseDigits_wf (s : jsstring) : well_formed s (_parseDigits s).
Proof.
  unfold _parseDigits.
  destruct (negb (length (digit_run s) =? 0)%nat); simpl.
  - apply firstn_skipn.
  - eauto.
Qed.

Lemma parseDigits_fail (s : jsstring) c r :
  _parseDigits s = Failure c r -> c = [] /\ r = s.
Proof.
  unfold _parseDigits.
  destruct (negb (length (digit_run s) =? 0)%nat); [discriminate|].
  intros H. injection H as <- <-. auto.
Qed.

Lemma parseDotDigits_wf (s : jsstring) : well_formed s (_parseDotDigits s).
Proof.
  unfold _parseDotDigits.
  destruct (_parseChar s (ch ".")) as [pc pr u|pc pr] eqn:E.
  - apply parseChar_inv in E as [-> ->]. simpl.
    destruct (well_formed_prefix _ _ (parseDigits_wf pr)) as [t Ht].
    unfold substring_from. f_equal. now apply (prefix_skipn _ t).
  - apply parseChar_fail in E as [-> _]. simpl. eauto.
Qed.

Lemma parseDecimal_local f g s :
  (forall t, (length t < length s)%nat -> f t = g t) ->
  parseDecimal_body f s = parseDecimal_body g s.
Proof.
  intros H. unfold parseDecimal_body.
  destruct (_parseChar s (ch "+")) as [pc pr u|pc pr] eqn:E.
  - apply parseChar_inv in E as [-> ->]. rewrite H by (simpl; lia). reflexivity.
  - destruct (_parseChar s (ch "-")) as [mc mr u|mc mr] eqn:E'; [|reflexivity].
    apply parseChar_inv in E' as [-> ->]. rewrite H by (simpl; lia). reflexivity.
Qed.

Lemma parseDecimal_unfold (s : jsstring) :
  _parseDecimal s = parseDecimal_body _parseDecimal s.
Proof. apply recurse_unfold, parseDecimal_local. Qed.

Lemma parseInteger_local f g s :
  (forall t, (length t < length s)%nat -> f t = g t) ->
  parseInteger_body f s = parseInteger_body g s.
Proof.
  intros H. unfold parseInteger_body.
  destruct (_parseChar s (ch "+")) as [pc pr u|pc pr] eqn:E.
  - apply parseChar_inv in E as [-> ->]. rewrite H by (simpl; lia). reflexivity.
  - destruct (_parseChar s (ch "-")) as [mc mr u|mc mr] eqn:E'; [|reflexivity].
    apply parseChar_inv in E' as [-> ->]. rewrite H by (simpl; lia). reflexivity.
Qed.

Lemma parseInteger_unfold (s : jsstring) :
  _parseInteger s = parseInteger_body _parseInteger s.
Proof. apply recurse_unfold, parseInteger_local. Qed.

(** A sign followed by a well-formed outcome on the tail. *)
Lemma signed_wf {A B} (char : jschar) (r : jsstring) (o : outcome A)
    (f : A -> B) :
  well_formed r o ->
  well_formed (char :: r)
    match o with
    | Success c r' v => Success ([char] ++ c) r' (f v)
    | Failure c _ => Failure ([char] ++ c) (char :: r)
    end.
Proof.
  destruct o as [c r' v|c r']; simpl.
  - now intros ->.
  - intros [_ [t <-]]. eauto.
Qed.

Lemma parseDecimal_wf (s : jsstring) : well_formed s (_parseDecimal s).
Proof.
  induction s as [s IH] using (induction_ltof1 _ (@length jschar)).
  unfold ltof in IH. rewrite parseDecimal_unfold. unfold parseDecimal_body.
  destruct (_parseChar s (ch "+")) as [pc pr u|pc pr] eqn:E.
  - apply parseChar_inv in E as [-> ->].
    apply (signed_wf _ _ _ (fun v => v)), IH. simpl; lia.
  - clear E. destruct (_parseChar s (ch "-")) as [mc mr u|mc mr] eqn:E.
    + apply parseChar_inv in E as [-> ->].
      apply (signed_wf _ _ _ num_neg), IH. simpl; lia.
    + clear E. pose proof (parseDigits_wf s) as Hd.
      pose proof (parseDotDigits_wf (rest (_parseDigits s))) as Hp.
      destruct (_parseDotDigits (rest (_parseDigits s))) as [dc dr dv|dc dr].
      * destruct (_parseDigits s) as [c r v|c r] eqn:Ed; simpl in *.
        -- subst. now rewrite <- app_assoc.
        -- apply parseDigits_fail in Ed as [-> ->]. exact Hp.
      * now apply well_formed_map.
Qed.

Lemma parseInteger_wf (s : jsstring) : well_formed s (_parseInteger s).
Proof.
  induction s as [s IH] using (induction_ltof1 _ (@length jschar)).
  unfold ltof in IH. rewrite parseInteger_unfold. unfold parseInteger_body.
  destruct (_parseChar s (ch "+")) as [pc pr u|pc pr] eqn:E.
  - apply parseChar_inv in E as [-> ->].
    apply (signed_wf _ _ _ (fun v => v)), IH. simpl; lia.
  - clear E. destruct (_parseChar s (ch "-")) as [mc mr u|mc mr] eqn:E.
    + apply parseChar_inv in E as [-> ->].
      apply (signed_wf _ _ _ Z.opp), IH. simpl; lia.
    + clear E. pose proof (parseDigits_wf s) as Hd.
      destruct (_parseDigits s) as [c r v|c r]; simpl in *; tauto.
Qed.

(** ** The base matcher *)

Lemma sort_insert_In x y l : In y (sort_insert x l) <-> y = x \/ In y l.
Proof.
  induction l as [|z l IH]; simpl.
  - split; [intros [H|[]] | intros [H|[]]]; auto.
  - destruct (Nat.leb (total_length z) (total_length x)); simpl.
    + split; [intros [H|[H|H]] | intros [H|[H|H]]]; auto.
    + rewrite IH. split; [intros [H|[H|H]] | intros [H|[H|H]]]; auto.
Qed.

Lemma sort_In y l : In y (sort_longest_first l) <-> In y l.
Proof.
  induction l as [|x l IH]; simpl; [tauto|].
  rewrite sort_insert_In, IH. split; intros [H|H]; auto.
Qed.

Lemma sort_insert_head x l :
  head_longest l -> head_longest (sort_insert x l).
Proof.
  destruct l as [|z l]; simpl; [intros _ y []|].
  intros H. destruct (Nat.leb_spec (total_length z) (total_length x)); simpl.
  - intros y [<-|Hy]; [assumption|]. specialize (H y Hy). lia.
  - intros y Hy. apply sort_insert_In in Hy as [->|Hy]; [lia | auto].
Qed.

Lemma sort_head l : head_longest (sort_longest_first l).
Proof.
  induction l as [|x l IH]; simpl; [exact I | now apply sort_insert_head].
Qed.

Lemma starts_with_app_l (p u s : jsstring) :
  starts_with (p ++ u) s = true -> starts_with p s = true.
Proof.
  rewrite !starts_with_prefix. intros [t <-]. exists (u ++ t).
  now rewrite app_assoc.
Qed.

Lemma matches_candidate (s : jsstring) (m : jsstring * jsstring) :
  In m (matches s) <-> candidate s m.
Proof.
  unfold matches, candidate. rewrite in_app_iff, in_flat_map. split.
  - intros [[p [Hp Hm]]|Hm].
    + apply filter_In in Hp as [Hp Hc].
      apply in_map_iff in Hm as [u [<- Hu]].
      apply filter_In in Hu as [Hu Hc']. simpl.
      apply andb_true_iff in Hc' as [Hn Hs].
      apply negb_true_iff in Hn. auto.
    + apply in_map_iff in Hm as [u [<- Hu]].
      apply filter_In in Hu as [Hu Hs]. simpl. repeat split; auto.
      unfold prefixes, obj_keys. simpl. tauto.
  - destruct m as [p u]. cbn [fst snd]. intros (Hp & Hu & Hx & Hs).
    destruct p as [|a p].
    + right. apply in_map_iff. exists u. split; [reflexivity|].
      apply filter_In. auto.
    + destruct Hx as [Hx|Hx]; [discriminate|].
      left. exists (a :: p). split.
      * apply filter_In. split; [assumption|].
        apply andb_true_iff. split; [reflexivity|].
        now apply starts_with_app_l with u.
      * apply in_map_iff. exists u. split; [reflexivity|].
        apply filter_In. split; [assumption|].
        now rewrite Hx, Hs.
Qed.

Lemma parseBase_success_inv (s : jsstring) c r b :
  _parseBase s = Success c r b ->
  exists p u, candidate s (p, u) /\ c = p ++ u /\ c ++ r = s /\
    (forall m, candidate s m -> (total_length m <= length p + length u)%nat).
Proof.
  unfold _parseBase.
  pose proof (sort_head (matches s)) as Hh.
  pose proof (fun y => sort_In y (matches s)) as Hin.
  destruct (sort_longest_first (matches s)) as [|[p u] l]; [discriminate|].
  intros H. injection H as <- <- _. exists p, u.
  assert (Hc : candidate s (p, u)).
  { apply (proj1 (matches_candidate s (p, u))), (proj1 (Hin (p, u))).
    left. reflexivity. }
  split; [exact Hc|]. split; [reflexivity|]. split.
  - destruct Hc as (_ & _ & _ & Hs). cbn [fst snd] in Hs.
    apply starts_with_prefix in Hs as [t Ht].
    exact (prefix_skipn _ t _ Ht).
  - intros m Hm. apply (proj2 (matches_candidate s m)) in Hm.
    apply (proj2 (Hin m)) in Hm.
    destruct Hm as [<-|Hm]; [apply Nat.le_refl|]. exact (Hh m Hm).
Qed.

Lemma parseBase_fail_inv (s : jsstring) c r :
  _parseBase s = Failure c r ->
  c = [] /\ r = s /\ forall m, ~ candidate s m.
Proof.
  unfold _parseBase.
  pose proof (fun y => sort_In y (matches s)) as Hin.
  destruct (sort_longest_first (matches s)) as [|[p u] l]; [|discriminate].
  intros H. injection H as <- <-. split; [reflexivity|]. split; [reflexivity|].
  intros m Hm. apply (proj2 (matches_candidate s m)) in Hm.
  apply (proj2 (Hin m)) in Hm. exact Hm.
Qed.

Lemma parseBase_wf (s : jsstring) : well_formed s (_parseBase s).
Proof.
  destruct (_parseBase s) as [c r b|c r] eqn:E.
  - apply parseBase_success_inv in E as (p & u & _ & _ & H & _). exact H.
  - apply parseBase_fail_inv in E as (-> & -> & _). simpl. eauto.
Qed.

Lemma parseFactor_wf (s : jsstring) : well_formed s (_parseFactor s).
Proof.
  unfold _parseFactor. pose proof (parseBase_wf s) as Hb.
  destruct (_parseBase s) as [bc br b|bc br]; simpl in Hb; [|simpl; tauto].
  destruct (_parseChar br (ch "^")) as [cc cr u|cc cr] eqn:E; [|exact Hb].
  apply parseChar_inv in E as [-> ->].
  unfold _parseExponent. pose proof (parseInteger_wf cr) as Hi.
  destruct (_parseInteger cr) as [ec er ev|ec er]; simpl in *.
  - subst. now rewrite <- app_assoc.
  - split; [reflexivity|]. destruct Hi as [_ [t <-]].
    exists t. subst. now rewrite <- !app_assoc.
Qed.

(** ** Term, magnitude and expression *)

Lemma parseCharTerm_with_local f g s (char : jschar) :
  (forall t, (length t < length s)%nat -> f t = g t) ->
  parseCharTerm_with f s char = parseCharTerm_with g s char.
Proof.
  intros H. unfold parseCharTerm_with.
  destruct (_parseChar s char) as [cc cr u|cc cr] eqn:E; [|reflexivity].
  apply parseChar_inv in E as [-> ->]. rewrite H by (simpl; lia). reflexivity.
Qed.

Lemma parseTerm_local f g s :
  (forall t, (length t < length s)%nat -> f t = g t) ->
  parseTerm_body f s = parseTerm_body g s.
Proof.
  intros H. unfold parseTerm_body.
  destruct (_parseChar s (ch "(")) as [oc or u|oc or] eqn:E.
  - apply parseChar_inv in E as [-> ->]. rewrite H by (simpl; lia). reflexivity.
  - clear E. pose proof (parseFactor_wf s) as Hf.
    destruct (_parseFactor s) as [fc fr f0|fc fr]; [|reflexivity].
    simpl in Hf.
    assert (Hl : (length fr <= length s)%nat).
    { rewrite <- Hf, length_app. lia. }
    rewrite !(parseCharTerm_with_local f g fr); [reflexivity| |];
      intros t Ht; apply H; lia.
Qed.

Lemma parseTerm_unfold (s : jsstring) :
  _parseTerm s = parseTerm_body _parseTerm s.
Proof. apply recurse_unfold, parseTerm_local. Qed.

Lemma parseCharTerm_with_wf (f : jsstring -> outcome unit_result) s char :
  (forall t, (length t < length s)%nat -> well_formed t (f t)) ->
  well_formed s (parseCharTerm_with f s char).
Proof.
  intros H. unfold parseCharTerm_with.
  destruct (_parseChar s char) as [cc cr u|cc cr] eqn:E.
  - apply parseChar_inv in E as [-> ->].
    assert (Ht : well_formed cr (f cr)) by (apply H; simpl; lia).
    destruct (f cr) as [tc tr t|tc tr]; simpl in *.
    + now subst.
    + destruct Ht as [_ [t' <-]]. eauto.
  - apply parseChar_fail in E as [-> _]. simpl. eauto.
Qed.

Lemma parseTerm_wf (s : jsstring) : well_formed s (_parseTerm s).
Proof.
  induction s as [s IH] using (induction_ltof1 _ (@length jschar)).
  unfold ltof in IH. rewrite parseTerm_unfold. unfold parseTerm_body.
  destruct (_parseChar s (ch "(")) as [oc or u|oc or] eqn:E.
  - apply parseChar_inv in E as [-> ->].
    assert (Ht : well_formed or (_parseTerm or)) by (apply IH; simpl; lia).
    destruct (_parseTerm or) as [tc tr t|tc tr]; simpl in Ht.
    + destruct (_parseChar tr (ch ")")) as [cc cr u'|cc cr] eqn:Ec; simpl.
      * apply parseChar_inv in Ec as [-> ->]. subst.
        now rewrite <- app_assoc.
      * apply parseChar_fail in Ec as [-> _]. split; [reflexivity|].
        exists tr. subst. now rewrite app_nil_r.
    + destruct Ht as [_ [t' <-]]. simpl. eauto.
  - clear E. pose proof (parseFactor_wf s) as Hf.
    destruct (_parseFactor s) as [fc fr f|fc fr]; simpl in Hf; [|simpl; tauto].
    assert (Hl : (length fr <= length s)%nat).
    { rewrite <- Hf, length_app. lia. }
    assert (Hw : forall char, well_formed fr (parseCharTerm_with _parseTerm fr char)).
    { intros char. apply parseCharTerm_with_wf. intros t Ht. apply IH. lia. }
    pose proof (Hw (ch "*")) as Ha. pose proof (Hw (ch "/")) as Hs.
    destruct (parseCharTerm_with _parseTerm fr (ch "*")) as [ac ar a|ac ar];
      simpl in Ha.
    + simpl. subst. now rewrite <- app_assoc.
    + destruct (parseCharTerm_with _parseTerm fr (ch "/")) as [sc sr t|sc sr];
        simpl in Hs; simpl.
      * subst. now rewrite <- app_assoc.
      * exact Hf.
Qed.

Lemma parseCharTerm_wf (s : jsstring) (char : jschar) :
  well_formed s (_parseCharTerm s char).
Proof.
  apply parseCharTerm_with_wf. intros t _. apply parseTerm_wf.
Qed.

Lemma parseMagnitude_wf (s : jsstring) : well_formed s (_parseMagnitude s).
Proof.
  unfold _parseMagnitude, _parseSignificand.
  pose proof (parseDecimal_wf s) as Hd.
  destruct (_parseDecimal s) as [sc sr sv|sc sr]; simpl in Hd; [|simpl; tauto].
  set (operator := if starts_with (js "*10^") sr then _ else _).
  assert (Hop : forall op, operator = Some op -> exists t, op ++ t = sr).
  { intros op. unfold operator.
    destruct (starts_with (js "*10^") sr) eqn:Es.
    - intros H. injection H as <-. now apply starts_with_prefix.
    - destruct sr as [|c sr']; [discriminate|].
      destruct (N.eqb c (ch "E") || N.eqb c (ch "e")); [|discriminate].
      intros H. injection H as <-. now exists sr'. }
  destruct operator as [op|]; [|exact Hd].
  destruct (Hop op eq_refl) as [t Ht]. unfold _parseExponent.
  assert (Hs : substring_from (length op) sr = t).
  { unfold substring_from. rewrite <- Ht, skipn_app, skipn_all, Nat.sub_diag.
    reflexivity. }
  rewrite Hs. pose proof (parseInteger_wf t) as Hi.
  destruct (well_formed_prefix _ _ Hi) as [t' Ht'].
  assert (Hp : (sc ++ op ++ consumed (_parseInteger t)) ++ t' = s).
  { transitivity (sc ++ op ++ t); [|now rewrite Ht].
    rewrite <- !app_assoc. do 2 f_equal. exact Ht'. }
  destruct (_parseInteger t) as [ec er ev|ec er]; simpl in *.
  - exact (prefix_skipn _ _ _ Hp).
  - eauto.
Qed.

Lemma parseExpression_wf (s : jsstring) :
  well_formed_completion s (_parseExpression s).
Proof.
  unfold _parseExpression. pose proof (parseMagnitude_wf s) as Hm.
  destruct (success (_parseMagnitude s) || str_eqb (consumed (_parseMagnitude s)) [])
    eqn:Eg.
  2:{ simpl. split; [reflexivity|]. now apply well_formed_prefix. }
  assert (Hr : consumed (_parseMagnitude s) ++ rest (_parseMagnitude s) = s).
  { destruct (_parseMagnitude s) as [mc mr m|mc mr]; simpl in *; [exact Hm|].
    apply str_eqb_eq in Eg. subst. tauto. }
  destruct (rest (_parseMagnitude s)) as [|c r] eqn:Er.
  - destruct (_parseMagnitude s); simpl in *; [subst; assumption | exact I].
  - set (operator := if N.eqb c (ch "*") then _ else _).
    assert (Hop : operator ++
              substring_from (if str_eqb operator [] then 0 else 1) (c :: r)
            = c :: r).
    { unfold operator. destruct (N.eqb_spec c (ch "*")) as [->|_]; [reflexivity|].
      destruct (N.eqb_spec c (ch "/")) as [->|_]; reflexivity. }
    set (rest' := substring_from _ (c :: r)) in *.
    pose proof (parseTerm_wf rest') as Ht.
    destruct (well_formed_prefix _ _ Ht) as [t' Ht'].
    assert (Hp : (consumed (_parseMagnitude s) ++ operator ++ consumed (_parseTerm rest'))
                 ++ t' = s).
    { transitivity (consumed (_parseMagnitude s) ++ operator ++ rest');
        [|now rewrite Hop].
      rewrite <- !app_assoc. do 2 f_equal. exact Ht'. }
    destruct (_parseTerm rest') as [tc tr t|tc tr]; simpl in *.
    + transitivity (consumed (_parseMagnitude s) ++ operator ++ rest');
        [|now rewrite Hop].
      rewrite <- !app_assoc. do 2 f_equal. exact Ht.
    + eauto.
Qed.

Lemma normalizeUnits_internal_fail (input : jsstring) c r :
  _normalizeUnits input = Returns (Failure c r) ->
  r = input /\
  _parseExpression (strip_spaces input) = Returns (Failure c (strip_spaces input)).
Proof.
  unfold _normalizeUnits.
  destruct (str_eqb (strip_spaces input) []); [discriminate|].
  pose proof (parseExpression_wf (strip_spaces input)) as Hw.
  destruct (_parseExpression (strip_spaces input)) as [[ec er e|ec er]|e];
    try discriminate.
  intros H. injection H as <- <-. simpl in Hw. destruct Hw as [-> _]. auto.
Qed.

(* ================================================================= *)
(** * The claims *)

(** ** Failure outcomes *)

(** C9. Whenever a grammar rule returns a failure outcome, its [rest] field
    is the whole input of that call: a failed rule does not advance. *)
Theorem failure_rest_is_input (s : jsstring) (char : jschar) :
  (success (_parseChar s char) = false -> rest (_parseChar s char) = s) /\
  (success (_parseDigits s) = false -> rest (_parseDigits s) = s) /\
  (success (_parseDotDigits s) = false -> rest (_parseDotDigits s) = s) /\
  (success (_parseDecimal s) = false -> rest (_parseDecimal s) = s) /\
  (success (_parseSignificand s) = false -> rest (_parseSignificand s) = s) /\
  (success (_parseInteger s) = false -> rest (_parseInteger s) = s) /\
  (success (_parseExponent s) = false -> rest (_parseExponent s) = s) /\
  (success (_parseBase s) = false -> rest (_parseBase s) = s) /\
  (success (_parseFactor s) = false -> rest (_parseFactor s) = s) /\
  (success (_parseTerm s) = false -> rest (_parseTerm s) = s) /\
  (success (_parseCharTerm s char) = false -> rest (_parseCharTerm s char) = s) /\
  (success (_parseAsterixTerm s) = false -> rest (_parseAsterixTerm s) = s) /\
  (success (_parseSlashTerm s) = false -> rest (_parseSlashTerm s) = s) /\
  (success (_parseMagnitude s) = false -> rest (_parseMagnitude s) = s) /\
  (forall o, _parseExpression s = Returns o -> success o = false -> rest o = s) /\
  (forall o, _normalizeUnits s = Returns o -> success o = false -> rest o = s).
Proof.
  pose proof (@well_formed_failure) as F.
  split; [exact (F _ _ _ (parseChar_wf s char))|].
  split; [exact (F _ _ _ (parseDigits_wf s))|].
  split; [exact (F _ _ _ (parseDotDigits_wf s))|].
  split; [exact (F _ _ _ (parseDecimal_wf s))|].
  split; [exact (F _ _ _ (parseDecimal_wf s))|].
  split; [exact (F _ _ _ (parseInteger_wf s))|].
  split; [exact (F _ _ _ (parseInteger_wf s))|].
  split; [exact (F _ _ _ (parseBase_wf s))|].
  split; [exact (F _ _ _ (parseFactor_wf s))|].
  split; [exact (F _ _ _ (parseTerm_wf s))|].
  split; [exact (F _ _ _ (parseCharTerm_wf s char))|].
  split; [exact (F _ _ _ (parseCharTerm_wf s (ch "*")))|].
  split; [exact (F _ _ _ (parseCharTerm_wf s (ch "/")))|].
  split; [exact (F _ _ _ (parseMagnitude_wf s))|].
  split.
  - intros o Ho. apply F.
    pose proof (parseExpression_wf s) as H. rewrite Ho in H. exact H.
  - intros [c r n|c r] Ho; [discriminate|]. intros _.
    apply normalizeUnits_internal_fail in Ho. exact (proj1 Ho).
Qed.

Lemma failure_rest_is_input_witness :
  rest (_parseTerm (js "(m")) = js "(m" /\
  rest (_parseDecimal (js "+x")) = js "+x" /\
  rest (_parseMagnitude (js "5e")) = js "5e".
Proof.
  split; [|split].
  - apply (failure_rest_is_input (js "(m") (ch "*")). vm_compute. reflexivity.
  - apply (failure_rest_is_input (js "+x") (ch "*")). vm_compute. reflexivity.
  - apply (failure_rest_is_input (js "5e") (ch "*")). vm_compute. reflexivity.
Defined.

(** *** What a failure has consumed *)

Lemma parseInteger_failure (s c r : jsstring) :
  _parseInteger s = Failure c r ->
  c = sign_run s /\ success (_parseDigits (skipn (length c) s)) = false.
Proof.
  revert c r. induction s as [|a s IH]; intros c r;
    rewrite parseInteger_unfold; unfold parseInteger_body.
  - cbn. intros H. injection H as <- _. auto.
  - unfold _parseChar, substring_from. cbn [skipn sign_run]. unfold is_sign.
    destruct (N.eqb_spec (ch "+") a) as [<-|_].
    + destruct (_parseInteger s) as [c' r' v|c' r'] eqn:E; [discriminate|].
      intros H. injection H as <- _.
      destruct (IH _ _ eq_refl) as [-> Hd]. cbn [orb app length skipn]. auto.
    + destruct (N.eqb_spec (ch "-") a) as [<-|_].
      * destruct (_parseInteger s) as [c' r' v|c' r'] eqn:E; [discriminate|].
        intros H. injection H as <- _.
        destruct (IH _ _ eq_refl) as [-> Hd]. cbn [orb app length skipn]. auto.
      * cbn [orb].
        destruct (_parseDigits (a :: s)) as [c' r' v|c' r'] eqn:E;
          [discriminate|].
        intros H. injection H as <- _.
        destruct (parseDigits_fail _ _ _ E) as [-> _].
        cbn [length skipn]. rewrite E. auto.
Qed.

Lemma parseDecimal_failure (s c r : jsstring) :
  _parseDecimal s = Failure c r ->
  c = sign_run s /\
  success (_parseDigits (skipn (length c) s)) = false /\
  success (_parseDotDigits (skipn (length c) s)) = false.
Proof.
  revert c r. induction s as [|a s IH]; intros c r;
    rewrite parseDecimal_unfold; unfold parseDecimal_body.
  - cbn. intros H. injection H as <- _. auto.
  - unfold _parseChar at 1 2. unfold substring_from. cbn [skipn sign_run].
    unfold is_sign.
    destruct (N.eqb_spec (ch "+") a) as [<-|_].
    + destruct (_parseDecimal s) as [c' r' v|c' r'] eqn:E; [discriminate|].
      intros H. injection H as <- _.
      destruct (IH _ _ eq_refl) as [-> Hd]. cbn [orb app length skipn]. auto.
    + destruct (N.eqb_spec (ch "-") a) as [<-|_].
      * destruct (_parseDecimal s) as [c' r' v|c' r'] eqn:E; [discriminate|].
        intros H. injection H as <- _.
        destruct (IH _ _ eq_refl) as [-> Hd]. cbn [orb app length skipn]. auto.
      * cbn [orb].
        destruct (_parseDotDigits (rest (_parseDigits (a :: s))))
          as [dc dr dv|dc dr] eqn:Ep; [discriminate|].
        destruct (_parseDigits (a :: s)) as [c' r' v|c' r'] eqn:E;
          [discriminate|].
        cbn [map_result]. intros H. injection H as <- _.
        destruct (parseDigits_fail _ _ _ E) as [-> ->].
        cbn [length skipn rest] in *. rewrite E, Ep. auto.
Qed.

Lemma parseMagnitude_failure (s c r : jsstring) :
  _parseMagnitude s = Failure c r ->
  (success (_parseDecimal s) = false /\ c = consumed (_parseDecimal s)) \/
  (exists sc sv op t,
     _parseDecimal s = Success sc (op ++ t) sv /\ power_operator op /\
     success (_parseInteger t) = false /\
     c = sc ++ op ++ consumed (_parseInteger t)).
Proof.
  unfold _parseMagnitude, _parseSignificand.
  destruct (_parseDecimal s) as [sc sr sv|sc sr].
  2:{ intros H. injection H as <- _. left. auto. }
  set (operator := if starts_with (js "*10^") sr then _ else _).
  assert (Hop : forall op, operator = Some op ->
                  power_operator op /\ exists t, op ++ t = sr).
  { intros op. unfold operator, power_operator.
    destruct (starts_with (js "*10^") sr) eqn:Es.
    - intros H. injection H as <-. split; [auto|].
      now apply starts_with_prefix.
    - destruct sr as [|x sr']; [discriminate|].
      destruct (N.eqb_spec x (ch "E")) as [->|_].
      + intros H. injection H as <-. split; [auto|]. now exists sr'.
      + destruct (N.eqb_spec x (ch "e")) as [->|_]; [|discriminate].
        intros H. injection H as <-. split; [auto|]. now exists sr'. }
  destruct operator as [op|]; [|discriminate].
  destruct (Hop op eq_refl) as [Hp [t Ht]]. unfold _parseExponent.
  assert (Hs : substring_from (length op) sr = t).
  { unfold substring_from. rewrite <- Ht, skipn_app, skipn_all, Nat.sub_diag.
    reflexivity. }
  rewrite Hs. subst sr.
  destruct (_parseInteger t) as [ec er ev|ec er] eqn:E; [discriminate|].
  intros H. injection H as <- _. right.
  exists sc, sv, op, t. rewrite E. auto.
Qed.

Lemma parseFactor_failure (s c r : jsstring) :
  _parseFactor s = Failure c r ->
  (success (_parseBase s) = false /\ c = []) \/
  (exists bc cr b,
     _parseBase s = Success bc (ch "^" :: cr) b /\
     success (_parseInteger cr) = false /\
     c = bc ++ js "^" ++ consumed (_parseInteger cr)).
Proof.
  unfold _parseFactor.
  destruct (_parseBase s) as [bc br b|bc br] eqn:Eb.
  2:{ intros H. injection H as <- _. left.
      destruct (parseBase_fail_inv _ _ _ Eb) as [-> _]. auto. }
  destruct (_parseChar br (ch "^")) as [cc cr u|cc cr] eqn:E; [|discriminate].
  destruct (parseChar_inv _ _ _ _ _ E) as [-> ->].
  unfold _parseExponent.
  destruct (_parseInteger cr) as [ec er ev|ec er] eqn:Ei; [discriminate|].
  intros H. injection H as <- _. right. exists bc, cr, b. rewrite Ei.
  split; [reflexivity|]. split; reflexivity.
Qed.

Lemma parseCharTerm_failure (s : jsstring) (char : jschar) (c r : jsstring) :
  _parseCharTerm s char = Failure c r ->
  (success (_parseChar s char) = false /\ c = []) \/
  (exists t, s = char :: t /\ success (_parseTerm t) = false /\
             c = char :: consumed (_parseTerm t)).
Proof.
  unfold _parseCharTerm, parseCharTerm_with.
  destruct (_parseChar s char) as [cc cr u|cc cr] eqn:E.
  - destruct (parseChar_inv _ _ _ _ _ E) as [-> ->].
    destruct (_parseTerm cr) as [tc tr t|tc tr] eqn:Et; [discriminate|].
    intros H. injection H as <- _. right. exists cr. rewrite Et. auto.
  - destruct (parseChar_fail _ _ _ _ E) as [-> _].
    intros H. injection H as <- _. left. auto.
Qed.

Lemma parseTerm_failure (s c r : jsstring) :
  _parseTerm s = Failure c r ->
  (exists t, s = ch "(" :: t /\ success (_parseTerm t) = false /\
             c = ch "(" :: consumed (_parseTerm t)) \/
  (exists t tc tr u, s = ch "(" :: t /\ _parseTerm t = Success tc tr u /\
                     success (_parseChar tr (ch ")")) = false /\
                     c = ch "(" :: tc) \/
  (success (_parseChar s (ch "(")) = false /\
   success (_parseFactor s) = false /\ c = consumed (_parseFactor s)).
Proof.
  rewrite parseTerm_unfold. unfold parseTerm_body.
  destruct (_parseChar s (ch "(")) as [oc or u|oc or] eqn:E.
  - destruct (parseChar_inv _ _ _ _ _ E) as [-> ->].
    destruct (_parseTerm or) as [tc tr t|tc tr] eqn:Et.
    + destruct (_parseChar tr (ch ")")) as [cc cr u'|cc cr] eqn:Ec;
        [discriminate|].
      destruct (parseChar_fail _ _ _ _ Ec) as [-> _].
      cbn [consumed]. rewrite app_nil_r.
      intros H. injection H as <- _. right. left.
      exists or, tc, tr, t. rewrite Ec.
      split; [reflexivity|]. split; [exact Et|]. split; reflexivity.
    + intros H. injection H as <- _. left. exists or. rewrite Et. auto.
  - destruct (_parseFactor s) as [fc fr f|fc fr] eqn:Ef.
    + destruct (parseCharTerm_with _parseTerm fr (ch "*")); [discriminate|].
      destruct (parseCharTerm_with _parseTerm fr (ch "/")); discriminate.
    + intros H. injection H as <- _. right. right. auto.
Qed.

Lemma parseExpression_failure (s c r : jsstring) :
  _parseExpression s = Returns (Failure c r) ->
  (success (_parseMagnitude s) = false /\
   consumed (_parseMagnitude s) <> [] /\
   c = consumed (_parseMagnitude s)) \/
  (exists operator t,
     rest (_parseMagnitude s) = operator ++ t /\
     (operator = js "*" \/ operator = js "/" \/
      operator = [] /\ exists x t', t = x :: t' /\ x <> ch "*" /\ x <> ch "/") /\
     success (_parseTerm t) = false /\
     c = consumed (_parseMagnitude s) ++ operator ++ consumed (_parseTerm t)).
Proof.
  unfold _parseExpression.
  destruct (success (_parseMagnitude s) || str_eqb (consumed (_parseMagnitude s)) [])
    eqn:Eg.
  2:{ intros H. injection H as <- _. left.
      apply orb_false_iff in Eg as [Es En]. apply str_eqb_neq in En. auto. }
  destruct (rest (_parseMagnitude s)) as [|x t] eqn:Er.
  { destruct (_parseMagnitude s); discriminate. }
  set (operator := if N.eqb x (ch "*") then _ else _).
  set (rest' := substring_from _ (x :: t)).
  assert (Hop : x :: t = operator ++ rest' /\
                (operator = js "*" \/ operator = js "/" \/
                 operator = [] /\
                 exists y t', rest' = y :: t' /\ y <> ch "*" /\ y <> ch "/")).
  { unfold rest', operator.
    destruct (N.eqb_spec x (ch "*")) as [->|Ha]; [split; [reflexivity|auto]|].
    destruct (N.eqb_spec x (ch "/")) as [->|Hs]; [split; [reflexivity|auto]|].
    split; [reflexivity|]. right. right. split; [reflexivity|].
    exists x, t. auto. }
  destruct Hop as [Hr Ho].
  destruct (_parseTerm rest') as [tc tr u|tc tr] eqn:Et; [discriminate|].
  intros H. injection H as <- _. right.
  exists operator, rest'. rewrite Et. auto.
Qed.

(** C7, as stated, fails: a failing rule reports what it matched before the
    failing sub-rule in [consumed] and the whole input in [rest], so their
    concatenation is longer than the input. *)
Lemma failure_consumed_rest_counterexample :
  _parseTerm (js "(m") = Failure (js "(m") (js "(m") /\
  consumed (_parseTerm (js "(m")) ++ rest (_parseTerm (js "(m")) <> js "(m" /\
  _parseDecimal (js "+x") = Failure (js "+") (js "+x") /\
  _parseInteger (js "-") = Failure (js "-") (js "-") /\
  _parseFactor (js "m^") = Failure (js "m^") (js "m^") /\
  _parseMagnitude (js "5e") = Failure (js "5e") (js "5e") /\
  _parseExpression (js "5qPa") = Returns (Failure (js "5") (js "5qPa")).
Proof. vm_compute. repeat split; discriminate. Qed.

(** C7, amended. For each grammar rule and each input: on success
    [consumed ++ rest] is the input; on failure [rest] is the input and
    [consumed] is the text matched before the failing sub-rule, followed by
    what the failing sub-rule has itself consumed, namely
    - nothing for [_parseChar] and [_parseDigits];
    - the leading run of signs for [_parseInteger] and [_parseDecimal], the
      text after it beginning with no digit (nor with a period for a
      decimal);
    - for [_parseMagnitude], what the failed significand consumed, or the
      significand, the operator of the power of ten and what the failed
      exponent consumed;
    - for [_parseFactor], nothing when no unit is found, or the base, the
      caret and what the failed exponent consumed;
    - for [_parseTerm], the parenthesis and what the failed inner term
      consumed, or the parenthesis and the inner term when the closing
      parenthesis is missing, or what the failed factor consumed;
    - for [_parseExpression], what the failed magnitude consumed when that is
      not empty, or the magnitude, the operator and what the failed term
      consumed.
    The consumed text of a failure is a prefix of the input. *)
Theorem outcome_shape (s : jsstring) (char : jschar) :
  (well_formed s (_parseChar s char) /\
   well_formed s (_parseDigits s) /\
   well_formed s (_parseInteger s) /\
   well_formed s (_parseDecimal s) /\
   well_formed s (_parseMagnitude s) /\
   well_formed s (_parseFactor s) /\
   well_formed s (_parseTerm s) /\
   well_formed s (_parseCharTerm s char) /\
   well_formed_completion s (_parseExpression s)) /\
  (forall c r, _parseChar s char = Failure c r -> c = []) /\
  (forall c r, _parseDigits s = Failure c r -> c = []) /\
  (forall c r, _parseInteger s = Failure c r ->
     c = sign_run s /\ success (_parseDigits (skipn (length c) s)) = false) /\
  (forall c r, _parseDecimal s = Failure c r ->
     c = sign_run s /\
     success (_parseDigits (skipn (length c) s)) = false /\
     success (_parseDotDigits (skipn (length c) s)) = false) /\
  (forall c r, _parseMagnitude s = Failure c r ->
     (success (_parseDecimal s) = false /\ c = consumed (_parseDecimal s)) \/
     (exists sc sv op t,
        _parseDecimal s = Success sc (op ++ t) sv /\ power_operator op /\
        success (_parseInteger t) = false /\
        c = sc ++ op ++ consumed (_parseInteger t))) /\
  (forall c r, _parseFactor s = Failure c r ->
     (success (_parseBase s) = false /\ c = []) \/
     (exists bc cr b,
        _parseBase s = Success bc (ch "^" :: cr) b /\
        success (_parseInteger cr) = false /\
        c = bc ++ js "^" ++ consumed (_parseInteger cr))) /\
  (forall c r, _parseTerm s = Failure c r ->
     (exists t, s = ch "(" :: t /\ success (_parseTerm t) = false /\
                c = ch "(" :: consumed (_parseTerm t)) \/
     (exists t tc tr u, s = ch "(" :: t /\ _parseTerm t = Success tc tr u /\
                        success (_parseChar tr (ch ")")) = false /\
                        c = ch "(" :: tc) \/
     (success (_parseChar s (ch "(")) = false /\
      success (_parseFactor s) = false /\ c = consumed (_parseFactor s))) /\
  (forall c r, _parseCharTerm s char = Failure c r ->
     (success (_parseChar s char) = false /\ c = []) \/
     (exists t, s = char :: t /\ success (_parseTerm t) = false /\
                c = char :: consumed (_parseTerm t))) /\
  (forall c r, _parseExpression s = Returns (Failure c r) ->
     (success (_parseMagnitude s) = false /\
      consumed (_parseMagnitude s) <> [] /\
      c = consumed (_parseMagnitude s)) \/
     (exists operator t,
        rest (_parseMagnitude s) = operator ++ t /\
        (operator = js "*" \/ operator = js "/" \/
         operator = [] /\
         exists x t', t = x :: t' /\ x <> ch "*" /\ x <> ch "/") /\
        success (_parseTerm t) = false /\
        c = consumed (_parseMagnitude s) ++ operator ++
            consumed (_parseTerm t))).
Proof.
  split.
  { split; [exact (parseChar_wf s char)|].
    split; [exact (parseDigits_wf s)|].
    split; [exact (parseInteger_wf s)|].
    split; [exact (parseDecimal_wf s)|].
    split; [exact (parseMagnitude_wf s)|].
    split; [exact (parseFactor_wf s)|].
    split; [exact (parseTerm_wf s)|].
    split; [exact (parseCharTerm_wf s char)|].
    exact (parseExpression_wf s). }
  split; [exact (fun c r H => proj1 (parseChar_fail s char c r H))|].
  split; [exact (fun c r H => proj1 (parseDigits_fail s c r H))|].
  split; [exact (parseInteger_failure s)|].
  split; [exact (parseDecimal_failure s)|].
  split; [exact (parseMagnitude_failure s)|].
  split; [exact (parseFactor_failure s)|].
  split; [exact (parseTerm_failure s)|].
  split; [exact (parseCharTerm_failure s char)|].
  exact (parseExpression_failure s).
Qed.

(** On ["(m^-"] the term fails inside the parenthesis: the parenthesis, the
    base, the caret and the sign have been consumed, and no digit follows. *)
Lemma outcome_shape_witness :
  _parseTerm (js "(m^-") = Failure (js "(m^-") (js "(m^-") /\
  ((exists t, js "(m^-" = ch "(" :: t /\ success (_parseTerm t) = false /\
              js "(m^-" = ch "(" :: consumed (_parseTerm t)) \/
   (exists t tc tr u, js "(m^-" = ch "(" :: t /\
                      _parseTerm t = Success tc tr u /\
                      success (_parseChar tr (ch ")")) = false /\
                      js "(m^-" = ch "(" :: tc) \/
   (success (_parseChar (js "(m^-") (ch "(")) = false /\
    success (_parseFactor (js "(m^-")) = false /\
    js "(m^-" = consumed (_parseFactor (js "(m^-")))) /\
  (js "-" = sign_run (js "-") /\
   success (_parseDigits (skipn (length (js "-")) (js "-"))) = false).
Proof.
  assert (E : _parseTerm (js "(m^-") = Failure (js "(m^-") (js "(m^-"))
    by (vm_compute; reflexivity).
  assert (Ei : _parseInteger (js "-") = Failure (js "-") (js "-"))
    by (vm_compute; reflexivity).
  split; [exact E|]. split.
  - destruct (outcome_shape (js "(m^-") (ch "*"))
      as (_ & _ & _ & _ & _ & _ & _ & H & _).
    exact (H _ _ E).
  - destruct (outcome_shape (js "-") (ch "*")) as (_ & _ & _ & H & _).
    exact (H _ _ Ei).
Defined.

(** ** The base matcher (C5) *)

Lemma parseBase_mol (t : jsstring) :
  map_result exponents (_parseBase (js "mol" ++ t))
  = Success (js "mol") t [(js "10", 0); (js "mol", 1)].
Proof. vm_compute. reflexivity. Qed.

(** C5. [_parseBase] succeeds exactly when some pair (prefix, unit) of the
    tables, with the prefix-less units [%], [ppm], [ppb], [ppt], [ppq] and
    [°C] taken only with the empty prefix, has its concatenation at the
    start of the input; it then consumes such a pair of greatest total
    length.  On an input that begins with [mol] it consumes [mol].  When no
    pair matches it fails and consumes nothing. *)
Theorem parseBase_longest_match (s : jsstring) :
  (forall c r b, _parseBase s = Success c r b ->
     exists p u,
       c = p ++ u /\ c ++ r = s /\
       In p (obj_keys prefixes) /\ In u units /\
       starts_with (p ++ u) s = true /\
       (p <> [] -> ~ In u (perUnits ++ [degC])) /\
       (forall m, candidate s m ->
          (length (fst m) + length (snd m) <= length p + length u)%nat)) /\
  ((exists m, candidate s m) -> success (_parseBase s) = true) /\
  ((forall m, ~ candidate s m) -> _parseBase s = Failure [] s) /\
  (forall t, map_result exponents (_parseBase (js "mol" ++ t))
             = Success (js "mol") t [(js "10", 0); (js "mol", 1)]).
Proof.
  split; [|split; [|split]].
  - intros c r b H.
    apply parseBase_success_inv in H as (p & u & Hc & -> & Hr & Hmax).
    destruct Hc as (Hp & Hu & Hx & Hs). cbn [fst snd] in *.
    exists p, u. repeat (split; [assumption || reflexivity|]).
    split; [|exact Hmax].
    intros Hne Hin. destruct Hx as [Hx|Hx]; [contradiction|].
    unfold includes in Hx.
    assert (Ht : existsb (str_eqb u) prefixlessUnits = true).
    { apply existsb_exists. exists u. split; [exact Hin | apply str_eqb_refl]. }
    congruence.
  - intros [m Hm]. destruct (_parseBase s) as [c r b|c r] eqn:E; [reflexivity|].
    apply parseBase_fail_inv in E as (_ & _ & Hn). destruct (Hn m Hm).
  - intros Hn. destruct (_parseBase s) as [c r b|c r] eqn:E.
    + apply parseBase_success_inv in E as (p & u & Hc & _).
      destruct (Hn _ Hc).
    + apply parseBase_fail_inv in E as (-> & -> & _). reflexivity.
  - exact parseBase_mol.
Qed.

Lemma parseBase_longest_match_witness :
  exists p u,
    js "kPa" = p ++ u /\ js "kPa" ++ [] = js "kPa" /\
    In p (obj_keys prefixes) /\ In u units /\
    starts_with (p ++ u) (js "kPa") = true /\
    (p <> [] -> ~ In u (perUnits ++ [degC])) /\
    (forall m, candidate (js "kPa") m ->
       (length (fst m) + length (snd m) <= length p + length u)%nat).
Proof.
  refine (proj1 (parseBase_longest_match (js "kPa")) (js "kPa") []
            {| exponents := _; conversion := fun magnitude => magnitude |} _).
  vm_compute. reflexivity.
Defined.

(** ** Worked examples (C1, C6, C10) *)

(** C1. ["50 kPa"] normalises to ["50*10^6 g*m^-1*s^-2"]: the prefix [k]
    stands for 10^3, [Pa] for [{10: 3, g: 1, m: -1, s: -2}], and the
    exponent 6 of ten is folded into the magnitude string. *)
Theorem normalize_50_kPa :
  normalizeUnits (js "50 kPa") = Returns (js "50*10^6 g*m^-1*s^-2") /\
  _normalizeUnits (js "50 kPa")
  = Returns (Success (js "50kPa") []
               {| n_magnitude := js "50*10^6"; n_units := js "g*m^-1*s^-2" |}) /\
  obj_get prefixes (js "k") = Some 3 /\
  option_map d_exponents (lookup_derived derivedUnits (js "Pa"))
  = Some [(js "10", 3); (js "g", 1); (js "m", -1); (js "s", -2)] /\
  map_result exponents (_parseBase (js "kPa"))
  = Success (js "kPa") [] [(js "10", 6); (js "g", 1); (js "m", -1); (js "s", -2)].
Proof. vm_compute. repeat split. Qed.

(** C6, as stated, fails: the two inputs keep their own significands, 5 and
    50, and the exponents of ten differ accordingly. *)
Lemma cross_representation_counterexample :
  normal_form (js "5*10^4 kg*m^-1*s^-2") <> normal_form (js "50 kPa").
Proof. vm_compute. discriminate. Qed.

(** C6, amended. ["5*10^4 kg*m^-1*s^-2"] normalises to magnitude 5 with
    [{10: 7, g: 1, m: -1, s: -2}] and ["50 kPa"] to magnitude 50 with
    [{10: 6, g: 1, m: -1, s: -2}]: the exponents of the units other than
    ten are equal and both stand for the same quantity, 5*10^7 = 50*10^6;
    [kg] contributes 3 to the exponent of ten and 1 to that of [g]. *)
Theorem cross_representation :
  normal_form (js "5*10^4 kg*m^-1*s^-2")
  = Some (Dec 5 0, [(js "10", 7); (js "g", 1); (js "m", -1); (js "s", -2)]) /\
  normal_form (js "50 kPa")
  = Some (Dec 50 0, [(js "10", 6); (js "g", 1); (js "m", -1); (js "s", -2)]) /\
  same_quantity
    (Dec 5 0, [(js "10", 7); (js "g", 1); (js "m", -1); (js "s", -2)])
    (Dec 50 0, [(js "10", 6); (js "g", 1); (js "m", -1); (js "s", -2)]) /\
  map_result exponents (_parseBase (js "kg"))
  = Success (js "kg") [] [(js "10", 3); (js "g", 1)].
Proof.
  split; [vm_compute; reflexivity|]. split; [vm_compute; reflexivity|].
  split; [|vm_compute; reflexivity].
  split; [|vm_compute; reflexivity].
  intros k Hk. cbn [snd obj_get].
  apply str_eqb_neq in Hk.
  assert (Hk' : str_eqb (js "10") k = false).
  { apply str_eqb_neq. apply str_eqb_neq in Hk. congruence. }
  rewrite Hk'. reflexivity.
Qed.

(** ** Expressions without a magnitude (C8, C10) *)

Lemma parseTerm_empty : _parseTerm [] = Failure [] [].
Proof. vm_compute. reflexivity. Qed.

Lemma parseTerm_asterisk (s : jsstring) :
  _parseTerm (ch "*" :: s) = Failure [] (ch "*" :: s).
Proof. vm_compute. reflexivity. Qed.

Lemma parseTerm_slash (s : jsstring) :
  _parseTerm (ch "/" :: s) = Failure [] (ch "/" :: s).
Proof. vm_compute. reflexivity. Qed.

Lemma parseExpression_bare_term (s : jsstring) c r t :
  success (_parseMagnitude s) = false ->
  consumed (_parseMagnitude s) = [] ->
  _parseTerm s = Success c r t ->
  _parseExpression s
  = Returns (Success c r {| magnitude := NaN; e_exponents := exponents t |}).
Proof.
  intros Hs Hc Ht. unfold _parseExpression.
  pose proof (parseMagnitude_wf s) as Hw.
  destruct (_parseMagnitude s) as [mc mr m|mc mr]; [discriminate|].
  cbn [success consumed rest orb] in *. subst mc.
  destruct Hw as [-> _]. rewrite str_eqb_refl.
  destruct s as [|c0 s'].
  - rewrite parseTerm_empty in Ht. discriminate.
  - destruct (N.eqb_spec c0 (ch "*")) as [->|_].
    { rewrite parseTerm_asterisk in Ht. discriminate. }
    destruct (N.eqb_spec c0 (ch "/")) as [->|_].
    { rewrite parseTerm_slash in Ht. discriminate. }
    rewrite str_eqb_refl. unfold substring_from. cbn [skipn].
    rewrite Ht. reflexivity.
Qed.

(** C8. When the magnitude parser fails without consuming anything and a
    term parses from the input, [_parseExpression] succeeds: the magnitude of
    the result is [NaN] and its exponent vector is the term's own, with
    nothing added to the entry of ten. *)
Theorem expression_without_magnitude (s : jsstring) c r t :
  success (_parseMagnitude s) = false ->
  consumed (_parseMagnitude s) = [] ->
  _parseTerm s = Success c r t ->
  exists e,
    _parseExpression s = Returns (Success c r e) /\
    magnitude e = NaN /\
    e_exponents e = exponents t /\
    obj_get (e_exponents e) (js "10") = obj_get (exponents t) (js "10").
Proof.
  intros Hs Hc Ht. eexists. split.
  - exact (parseExpression_bare_term s c r t Hs Hc Ht).
  - repeat split.
Qed.

Lemma expression_without_magnitude_witness :
  exists e,
    _parseExpression (js "kPa") = Returns (Success (js "kPa") [] e) /\
    magnitude e = NaN /\
    e_exponents e = [(js "10", 6); (js "g", 1); (js "m", -1); (js "s", -2)] /\
    obj_get (e_exponents e) (js "10") = Some 6.
Proof.
  refine (expression_without_magnitude (js "kPa") (js "kPa") []
            {| exponents := [(js "10", 6); (js "g", 1); (js "m", -1); (js "s", -2)];
               conversion := fun magnitude => magnitude |} _ _ _);
    vm_compute; reflexivity.
Defined.

(** C10. For an input that is a bare unit term, [_normalizeUnits] reports
    success; the magnitude string is the JSON rendering [null] of [NaN],
    followed by the power of ten of the term when it is not 0, and the entry
    point returns it at the head of its output.  On ["kPa"] the magnitude
    string is ["null*10^6"] and the output ["null*10^6 g*m^-1*s^-2"]. *)
Theorem bare_term_renders_null :
  (forall input c r t,
     success (_parseMagnitude (strip_spaces input)) = false ->
     consumed (_parseMagnitude (strip_spaces input)) = [] ->
     _parseTerm (strip_spaces input) = Success c r t ->
     _normalizeUnits input
     = Returns (Success c r
         {| n_magnitude :=
              js "null" ++ match obj_get (exponents t) (js "10") with
                           | Some 0 => []
                           | x => js "*10^" ++ prop_toString x
                           end;
            n_units := unitsString (exponents t) |}) /\
     exists out, normalizeUnits input = Returns (js "null" ++ out)) /\
  _normalizeUnits (js "kPa")
  = Returns (Success (js "kPa") []
      {| n_magnitude := js "null*10^6"; n_units := js "g*m^-1*s^-2" |}) /\
  normalizeUnits (js "kPa") = Returns (js "null*10^6 g*m^-1*s^-2").
Proof.
  split; [|vm_compute; split; reflexivity].
  intros input c r t Hs Hc E.
  pose proof (parseExpression_bare_term _ c r t Hs Hc E) as He.
  assert (Hne : str_eqb (strip_spaces input) [] = false).
  { apply str_eqb_neq. intros H0. rewrite H0, parseTerm_empty in E. discriminate. }
  assert (Hn : _normalizeUnits input
               = Returns (Success c r
                   {| n_magnitude := magnitudeString NaN (exponents t);
                      n_units := unitsString (exponents t) |})).
  { unfold _normalizeUnits. rewrite Hne, He. reflexivity. }
  split; [exact Hn|].
  unfold normalizeUnits, _throttle. rewrite Hn.
  cbn [n_magnitude n_units]. unfold magnitudeString, JSON_stringify.
  eexists. change (js "null") with [110; 117; 108; 108]%N.
  cbn [app str_eqb andb].
  destruct (str_eqb _ _) eqn:E0 in |- *.
  - apply str_eqb_eq in E0. discriminate.
  - cbn [andb]. reflexivity.
Qed.

Lemma bare_term_renders_null_witness :
  _normalizeUnits (js "ms^-1")
  = Returns (Success (js "ms^-1") []
      {| n_magnitude := js "null*10^3"; n_units := js "s^-1" |}) /\
  exists out, normalizeUnits (js "ms^-1") = Returns (js "null" ++ out).
Proof.
  refine (proj1 bare_term_renders_null (js "ms^-1") (js "ms^-1") []
            {| exponents := [(js "10", 3); (js "s", -1)];
               conversion := fun magnitude => magnitude |} _ _ _);
    vm_compute; reflexivity.
Defined.

(** ** Errors (C4) *)

(** C4. On the empty string [_parseExpression] does not return a failure
    outcome: the magnitude fails having consumed nothing, the rest is empty,
    and the branch for a magnitude alone reads a field of the missing
    [result], which throws a [TypeError]. *)
Theorem parseExpression_empty_throws :
  _parseExpression [] = Throws TypeError.
Proof. vm_compute. reflexivity. Qed.

Lemma normalize_50_qPa :
  normalizeUnits (js "50 qPa")
  = Throws (Error (js "Unable to parse after '50' in '50 qPa'. Are you sure metric units are being used?")).
Proof. vm_compute. reflexivity. Qed.

(** A failed parse is raised by the entry point with a message that holds
    the consumed prefix and the input. *)
Lemma normalizeUnits_failure_message (input : jsstring) c r :
  _normalizeUnits input = Returns (Failure c r) ->
  normalizeUnits input
  = Throws (Error (js "Unable to parse after '" ++ c ++ js "' in '" ++ input
                   ++ js "'. Are you sure metric units are being used?")).
Proof.
  intros H. unfold normalizeUnits, _throttle. rewrite H. reflexivity.
Qed.

(** Through the entry point the empty expression is never parsed: every
    string either normalises or raises the parse error. *)
Lemma normalizeUnits_never_TypeError (input : jsstring) :
  normalizeUnits input <> Throws TypeError.
Proof.
  unfold normalizeUnits, _throttle, _normalizeUnits.
  destruct (str_eqb (strip_spaces input) []) eqn:E; [discriminate|].
  unfold _parseExpression.
  destruct (success _ || str_eqb _ []) eqn:Eg; [|discriminate].
  pose proof (parseMagnitude_wf (strip_spaces input)) as Hw.
  destruct (rest (_parseMagnitude (strip_spaces input))) as [|c0 r0] eqn:Er.
  - destruct (_parseMagnitude (strip_spaces input)) as [mc mr m|mc mr];
      [discriminate|].
    cbn [rest] in Er. destruct Hw as [Hr _]. rewrite Er in Hr.
    apply str_eqb_neq in E. congruence.
  - cbv zeta. destruct (_parseTerm _); discriminate.
Qed.

(** ** The units string (C2) *)

Lemma filter_filter_all {A} (f g : A -> bool) (l : list A) :
  Forall (fun x => f x = true) l -> filter f (filter g l) = filter g l.
Proof.
  induction 1 as [|x l Hx Hl IH]; simpl; [reflexivity|].
  destruct (g x); simpl; [rewrite Hx|]; now rewrite IH.
Qed.

Lemma unitsString_unit_keys (E : exps) :
  unitsString E
  = join (js "*") (map (render_unit E) (filter (obj_has E) unit_keys)).
Proof.
  unfold unitsString. do 2 f_equal.
  change canonical_keys with (js "10" :: unit_keys).
  assert (H : filter (fun unit => negb (str_eqb unit (js "10")))
                (filter (fun unit => obj_has E unit) unit_keys)
              = filter (obj_has E) unit_keys).
  { apply filter_filter_all. unfold unit_keys.
    repeat (constructor; [vm_compute; reflexivity|]). constructor. }
  cbn [filter]. destruct (obj_has E (js "10")); [|exact H].
  cbn [filter]. rewrite str_eqb_refl. exact H.
Qed.

(** C2, as stated, fails: a key that the exponent vector owns is rendered
    even when its exponent is 0.  In ["1 m/m"] the exponents of [m] cancel
    and the units string is ["m^0"]. *)
Lemma zero_exponent_counterexample :
  _parseExpression (js "1m/m")
  = Returns (Success (js "1m/m") []
      {| magnitude := Dec 1 0; e_exponents := [(js "10", 0); (js "m", 0)] |}) /\
  _normalizeUnits (js "1 m/m")
  = Returns (Success (js "1m/m") []
      {| n_magnitude := js "1"; n_units := js "m^0" |}) /\
  normalizeUnits (js "1 m/m") = Returns (js "1 m^0").
Proof. vm_compute. repeat split. Qed.

(** C2, amended. When [_normalizeUnits] succeeds on an input that is not
    blank, the units string is made of the keys that the final exponent
    vector owns (whatever their exponent, 0 included), taken in the order
    g, m, s, A, K, cd, mol, %, ppm, ppb, ppt, ppq; a key of exponent 1 is
    rendered bare and any other as key^exponent; the renderings are joined
    by [*]; the key 10 is not among them. *)
Theorem units_string_shape (input : jsstring) c r n :
  _normalizeUnits input = Returns (Success c r n) ->
  strip_spaces input <> [] ->
  exists e ks,
    _parseExpression (strip_spaces input) = Returns (Success c r e) /\
    ks = filter (obj_has (e_exponents e)) unit_keys /\
    n_units n = join (js "*") (map (render_unit (e_exponents e)) ks) /\
    (forall k, In k ks <->
               In k unit_keys /\ exists v, obj_get (e_exponents e) k = Some v) /\
    ~ In (js "10") ks /\
    (forall k, In k ks ->
       match obj_get (e_exponents e) k with
       | Some 1 => render_unit (e_exponents e) k = k
       | Some v => render_unit (e_exponents e) k = k ++ js "^" ++ int_toString v
       | None => False
       end).
Proof.
  intros H Hne. unfold _normalizeUnits in H.
  apply str_eqb_neq in Hne. rewrite Hne in H.
  destruct (_parseExpression (strip_spaces input)) as [[ec er e|ec er]|x];
    try discriminate.
  injection H as <- <- <-. exists e, (filter (obj_has (e_exponents e)) unit_keys).
  assert (Hin : forall k, In k (filter (obj_has (e_exponents e)) unit_keys) <->
                   In k unit_keys /\ exists v, obj_get (e_exponents e) k = Some v).
  { intros k. rewrite filter_In. unfold obj_has.
    destruct (obj_get (e_exponents e) k) as [v|].
    - split; [intros [Hk _]; eauto | tauto].
    - split; [intros [_ Hk]; discriminate | intros [_ [v Hv]]; discriminate]. }
  split; [reflexivity|]. split; [reflexivity|].
  split; [cbn [n_units]; apply unitsString_unit_keys|].
  split; [exact Hin|]. split.
  - intros Hk. apply Hin in Hk as [Hk _]. revert Hk. vm_compute.
    intuition discriminate.
  - intros k Hk. apply Hin in Hk as [_ [v Hv]]. unfold render_unit.
    rewrite Hv. destruct v as [|[p|p|]|p]; try reflexivity. apply app_nil_r.
Qed.

Lemma units_string_shape_witness :
  exists e ks,
    _parseExpression (strip_spaces (js "1 m/m"))
    = Returns (Success (js "1m/m") [] e) /\
    ks = filter (obj_has (e_exponents e)) unit_keys /\
    js "m^0" = join (js "*") (map (render_unit (e_exponents e)) ks) /\
    (forall k, In k ks <->
               In k unit_keys /\ exists v, obj_get (e_exponents e) k = Some v) /\
    ~ In (js "10") ks /\
    (forall k, In k ks ->
       match obj_get (e_exponents e) k with
       | Some 1 => render_unit (e_exponents e) k = k
       | Some v => render_unit (e_exponents e) k = k ++ js "^" ++ int_toString v
       | None => False
       end).
Proof.
  refine (units_string_shape (js "1 m/m") (js "1m/m") []
            {| n_magnitude := js "1"; n_units := js "m^0" |} _ _).
  - vm_compute. reflexivity.
  - vm_compute. discriminate.
Defined.

(** ** Rendering and reading back numbers *)

Lemma digits_from_app acc l1 l2 :
  digits_from acc (l1 ++ l2) = digits_from (digits_from acc l1) l2.
Proof. apply fold_left_app. Qed.

Lemma digit_char (n : Z) :
  0 <= n ->
  is_digit (Z.to_N (48 + n mod 10)) = true /\
  Z.of_N (Z.to_N (48 + n mod 10)) - 48 = n mod 10.
Proof.
  intros Hn. pose proof (Z.mod_pos_bound n 10 ltac:(lia)) as Hm.
  unfold is_digit. rewrite andb_true_iff, !N.leb_le. split; [split|]; lia.
Qed.

Lemma digits_fuel_spec (f : nat) : forall n acc,
  0 <= n < 2 ^ Z.of_nat (S f) ->
  exists d, digits_fuel (S f) n acc = d ++ acc /\ d <> [] /\
            Forall (fun c => is_digit c = true) d /\ digits_from 0 d = n.
Proof.
  induction f as [|f IH]; intros n acc Hn.
  - cbn [digits_fuel]. destruct (Z.ltb_spec n 10) as [Hl|Hl].
    + exists [Z.to_N (48 + n mod 10)]. destruct (digit_char n) as [Hd Hv]; [lia|].
      repeat split; [discriminate | repeat constructor; exact Hd |].
      unfold digits_from. cbn [fold_left]. rewrite Hv, Z.mod_small; lia.
    + change (2 ^ Z.of_nat 1) with 2 in Hn. lia.
  - cbn [digits_fuel]. destruct (Z.ltb_spec n 10) as [Hl|Hl].
    + exists [Z.to_N (48 + n mod 10)]. destruct (digit_char n) as [Hd Hv]; [lia|].
      repeat split; [discriminate | repeat constructor; exact Hd |].
      unfold digits_from. cbn [fold_left]. rewrite Hv, Z.mod_small; lia.
    + destruct (IH (n / 10) (Z.to_N (48 + n mod 10) :: acc)) as (d & Hd & Hne & Hall & Hv).
      { rewrite Nat2Z.inj_succ, Z.pow_succ_r in Hn by lia.
        split; [apply Z.div_pos; lia|].
        apply Z.div_lt_upper_bound; lia. }
      cbn [digits_fuel] in Hd. cbn [digits_fuel]. rewrite Hd.
      exists (d ++ [Z.to_N (48 + n mod 10)]).
      destruct (digit_char n) as [Hc Hcv]; [lia|].
      repeat split.
      * now rewrite <- app_assoc.
      * destruct d; discriminate.
      * apply Forall_app. split; [exact Hall | repeat constructor; exact Hc].
      * rewrite digits_from_app, Hv. unfold digits_from. cbn [fold_left].
        rewrite Hcv. pose proof (Z.div_mod n 10). lia.
Qed.

Lemma digits_of_spec (n : Z) :
  0 <= n ->
  digits_of n <> [] /\ all_digits (digits_of n) /\
  digits_value (digits_of n) = n.
Proof.
  intros Hn. unfold digits_of.
  destruct (digits_fuel_spec (Z.to_nat (Z.log2 n)) n []) as (d & Hd & Hne & Hall & Hv).
  { split; [exact Hn|]. rewrite Nat2Z.inj_succ, Z2Nat.id by apply Z.log2_nonneg.
    destruct (Z.eq_dec n 0) as [->|Hz]; [reflexivity|].
    apply Z.log2_spec. lia. }
  rewrite Hd, app_nil_r. auto.
Qed.

Lemma digit_run_app (d t : jsstring) :
  all_digits d -> no_digit_head t -> digit_run (d ++ t) = d.
Proof.
  intros Hd Ht. induction Hd as [|c d Hc Hd IH]; cbn [app digit_run].
  - destruct t as [|c t]; [reflexivity|]. cbn [no_digit_head digit_run] in *.
    now rewrite Ht.
  - now rewrite Hc, IH.
Qed.

Lemma digit_run_all (d : jsstring) : all_digits d -> digit_run d = d.
Proof.
  intros Hd. rewrite <- (app_nil_r d) at 1. now apply digit_run_app.
Qed.

Lemma parseDigits_digits (d t : jsstring) :
  all_digits d -> d <> [] -> no_digit_head t ->
  _parseDigits (d ++ t) = Success d t (digits_value d).
Proof.
  intros Hd Hne Ht. unfold _parseDigits. rewrite digit_run_app by assumption.
  assert (Hl : negb (length d =? 0)%nat = true)
    by (destruct d; [contradiction | reflexivity]).
  rewrite Hl. unfold substring_from, parseInt.
  rewrite firstn_app, firstn_all, Nat.sub_diag, firstn_O, app_nil_r.
  rewrite skipn_app, skipn_all, Nat.sub_diag, skipn_O.
  now rewrite digit_run_all.
Qed.

Lemma digits_head (d : jsstring) :
  all_digits d -> d <> [] ->
  exists c d', d = c :: d' /\ is_digit c = true.
Proof.
  intros Hd Hne. destruct d as [|c d']; [contradiction|].
  inversion Hd; subst. eauto.
Qed.

Lemma is_digit_not (c : jschar) (x : ascii) :
  is_digit c = true -> is_digit (ch x) = false -> N.eqb (ch x) c = false.
Proof.
  intros Hc Hx. destruct (N.eqb_spec (ch x) c) as [<-|]; congruence.
Qed.

Lemma parseChar_head_ne (c : jschar) (s : jsstring) (char : jschar) :
  N.eqb char c = false -> _parseChar (c :: s) char = Failure [] (c :: s).
Proof. intros H. unfold _parseChar. now rewrite H. Qed.

Lemma parseChar_head_eq (c : jschar) (s : jsstring) :
  _parseChar (c :: s) c = Success [c] s tt.
Proof. unfold _parseChar. now rewrite N.eqb_refl. Qed.

Lemma parseInteger_digits (d t : jsstring) :
  all_digits d -> d <> [] -> no_digit_head t ->
  _parseInteger (d ++ t) = Success d t (digits_value d).
Proof.
  intros Hd Hne Ht. rewrite parseInteger_unfold. unfold parseInteger_body.
  rewrite (parseDigits_digits d t Hd Hne Ht).
  destruct (digits_head d Hd Hne) as (c & d' & -> & Hc). cbn [app].
  rewrite !parseChar_head_ne; [reflexivity| |];
    apply is_digit_not; (exact Hc || reflexivity).
Qed.

Lemma positional_int (v : Z) : positional v 0 = digits_of (Z.abs v).
Proof.
  unfold positional.
  destruct (digits_of_spec (Z.abs v) (Z.abs_nonneg v)) as (Hne & _ & _).
  set (d := digits_of (Z.abs v)) in *.
  assert (Hz : (1 - length d = 0)%nat)
    by (destruct d; [contradiction | simpl; lia]).
  rewrite Hz. cbn [repeat app].
  now rewrite Nat.sub_0_r, skipn_all, firstn_all.
Qed.

Lemma int_toString_positional (v : Z) :
  positional_range (num_of_Z v) = true ->
  int_toString v = sign_prefix v ++ digits_of (Z.abs v).
Proof.
  intros H. unfold int_toString, Number_toString.
  unfold num_of_Z in *. cbn [normalize_dec]. rewrite H.
  now rewrite positional_int.
Qed.

Lemma parseInteger_int (v : Z) (t : jsstring) :
  positional_range (num_of_Z v) = true -> no_digit_head t ->
  _parseInteger (int_toString v ++ t) = Success (int_toString v) t v.
Proof.
  intros Hp Ht. rewrite (int_toString_positional v Hp).
  destruct (digits_of_spec (Z.abs v) (Z.abs_nonneg v)) as (Hne & Hall & Hv).
  unfold sign_prefix. destruct (Z.ltb_spec v 0) as [Hneg|Hpos].
  - change (js "-") with [ch "-"]. cbn [app].
    rewrite parseInteger_unfold. unfold parseInteger_body.
    rewrite parseChar_head_ne by reflexivity. rewrite parseChar_head_eq.
    rewrite (parseInteger_digits _ t Hall Hne Ht), Hv.
    cbn [app]. f_equal. lia.
  - cbn [app]. rewrite (parseInteger_digits _ t Hall Hne Ht), Hv.
    f_equal. lia.
Qed.


Lemma normal_fix (m : Z) (k : nat) : normal m k -> normalize_dec m k = (m, k).
Proof.
  intros [->|H]; [reflexivity|]. destruct k; [reflexivity|].
  cbn [normalize_dec]. destruct (Z.eqb_spec (m mod 10) 0); [contradiction|reflexivity].
Qed.


Lemma mkDec_normal (m : Z) (k : nat) : normal m k -> mkDec m k = Dec m k.
Proof. intros H. unfold mkDec. now rewrite normal_fix. Qed.

Lemma digits_from_zeros (j : nat) (d : jsstring) :
  digits_from 0 (repeat 48%N j ++ d) = digits_from 0 d.
Proof.
  induction j as [|j IH]; [reflexivity|]. cbn [repeat app].
  unfold digits_from in *. cbn [fold_left]. exact IH.
Qed.

Lemma decimal_tail_no_digit (t : jsstring) : decimal_tail t -> no_digit_head t.
Proof. destruct t; simpl; tauto. Qed.

Lemma parseDotDigits_tail (t : jsstring) :
  decimal_tail t -> success (_parseDotDigits t) = false.
Proof.
  intros Ht. unfold _parseDotDigits. destruct t as [|c t]; [reflexivity|].
  destruct Ht as [_ Ht]. now rewrite parseChar_head_ne.
Qed.

Lemma all_digits_zeros (j : nat) : all_digits (repeat 48%N j).
Proof. induction j; constructor; [reflexivity | assumption]. Qed.

Lemma parseDecimal_positional (a : Z) (k : nat) (t : jsstring) :
  0 <= a -> normal a k -> decimal_tail t ->
  _parseDecimal (positional a k ++ t) = Success (positional a k) t (Dec a k).
Proof.
  intros Ha Hn Ht. pose proof (decimal_tail_no_digit t Ht) as Ht'.
  destruct (digits_of_spec a Ha) as (Hne & Hall & Hv).
  unfold positional. rewrite (Z.abs_eq a Ha).
  set (d := digits_of a) in *.
  set (p := repeat 48%N (S k - length d) ++ d).
  assert (Hp : all_digits p).
  { apply Forall_app. split; [apply all_digits_zeros | exact Hall]. }
  assert (Hlen : (S k <= length p)%nat).
  { unfold p. rewrite length_app, repeat_length. lia. }
  assert (Hpv : digits_value p = a).
  { unfold p. change digits_value with (digits_from 0).
    now rewrite digits_from_zeros. }
  pose proof (firstn_skipn (length p - k) p) as Hsplit.
  assert (Hfl : length (skipn (length p - k) p) = k).
  { rewrite length_skipn. lia. }
  generalize dependent (skipn (length p - k) p).
  generalize (firstn (length p - k) p).
  intros ip fp Hsplit Hfl.
  assert (Hil : ip <> []).
  { intros H0. apply (f_equal (@length N)) in Hsplit.
    rewrite length_app, H0, Hfl in Hsplit. simpl in Hsplit. lia. }
  assert (Hip : all_digits ip /\ all_digits fp).
  { apply Forall_app. now rewrite Hsplit. }
  destruct Hip as [Hip Hfp].
  destruct (digits_head ip Hip Hil) as (c & ip' & Eip & Hc).
  assert (Hsign : forall s x, is_digit (ch x) = false ->
            _parseChar (ip ++ s) (ch x) = Failure [] (ip ++ s)).
  { intros s x Hx. rewrite Eip. cbn [app]. apply parseChar_head_ne.
    now apply is_digit_not. }
  rewrite parseDecimal_unfold. unfold parseDecimal_body.
  destruct k as [|k0].
  - (* no fraction *)
    destruct fp; [|discriminate]. rewrite app_nil_r in Hsplit.
    rewrite !Hsign by reflexivity.
    rewrite (parseDigits_digits ip t Hip Hil Ht'). cbn [rest consumed map_result].
    pose proof (parseDotDigits_tail t Ht) as Hdd.
    destruct (_parseDotDigits t); [discriminate|].
    unfold num_of_Z. rewrite Hsplit, Hpv. reflexivity.
  - (* a fraction *)
    assert (Hfne : fp <> []) by (intros H0; rewrite H0 in Hfl; discriminate).
    assert (Hm : match fp with [] => ip | _ :: _ => ip ++ js "." ++ fp end
                 = ip ++ js "." ++ fp)
      by (destruct fp; [contradiction | reflexivity]).
    rewrite Hm, <- app_assoc. rewrite !Hsign by reflexivity.
    change (js "." ++ fp) with (ch "." :: fp). cbn [app].
    rewrite (parseDigits_digits ip (ch "." :: fp ++ t) Hip Hil
               (eq_refl : no_digit_head (ch "." :: fp ++ t))).
    cbn [rest consumed].
    unfold _parseDotDigits. rewrite parseChar_head_eq.
    rewrite (parseDigits_digits fp t Hfp Hfne Ht'). cbn [consumed].
    change (ch "." :: fp) with ([ch "."] ++ fp).
    f_equal.
    + unfold substring_from.
      change (ch "." :: fp ++ t) with (([ch "."] ++ fp) ++ t).
      now rewrite skipn_app, skipn_all, Nat.sub_diag.
    + unfold parseFloat.
      replace (ip ++ [ch "."] ++ fp) with (ip ++ (ch "." :: fp ++ []))
        by now rewrite app_nil_r.
      rewrite (digit_run_app ip _ Hip
                 (eq_refl : no_digit_head (ch "." :: fp ++ []))).
      rewrite skipn_app, skipn_all, Nat.sub_diag. cbn [skipn app].
      change (ch ".") with 46%N. cbv iota.
      rewrite app_nil_r, (digit_run_all fp Hfp), Hsplit.
      destruct p as [|p0 p'] eqn:Ep; [simpl in Hlen; lia|].
      rewrite <- Ep in *. rewrite Hpv, Hfl. now apply mkDec_normal.
Qed.

Lemma positional_abs (m : Z) (k : nat) :
  positional (Z.abs m) k = positional m k.
Proof. unfold positional. now rewrite Z.abs_idemp. Qed.

Lemma stringify_positional (m : Z) (k : nat) :
  positional_range (Dec m k) = true ->
  JSON_stringify (Dec m k)
  = sign_prefix (fst (normalize_dec m k))
    ++ positional (fst (normalize_dec m k)) (snd (normalize_dec m k)).
Proof.
  intros H. unfold JSON_stringify, Number_toString. rewrite H.
  now destruct (normalize_dec m k).
Qed.








(** ** Reading back a canonical units string *)















(** ** The entry of ten *)

Lemma obj_set_owns_10 (E : exps) (k : jsstring) (v : Z) :
  owns_10 E -> owns_10 (obj_set E k v).
Proof.
  intros (v0 & l & ->). cbn [obj_set].
  destruct (str_eqb (js "10") k); eexists _, _; reflexivity.
Qed.

Lemma obj_merge_owns_10 (op : Z -> Z -> Z) (t E : exps) :
  owns_10 E -> owns_10 (obj_merge op E t).
Proof.
  unfold obj_merge. revert E. induction t as [|kv t IH]; intros E H; [exact H|].
  cbn [fold_left]. apply IH. now apply obj_set_owns_10.
Qed.

Lemma obj_map_owns_10 (f : Z -> Z) (E : exps) :
  owns_10 E -> owns_10 (obj_map f E).
Proof. intros (v0 & l & ->). eexists _, _. reflexivity. Qed.

Lemma owns_10_get (E : exps) :
  owns_10 E -> exists v, obj_get E (js "10") = Some v.
Proof.
  intros (v & l & ->). exists v. cbn [obj_get]. now rewrite str_eqb_refl.
Qed.

Lemma success_result {T} c r (v : T) c' r' v' :
  Success c r v = Success c' r' v' -> v = v'.
Proof. congruence. Qed.

Lemma parseBase_owns_10 (s : jsstring) c r b :
  _parseBase s = Success c r b -> owns_10 (exponents b).
Proof.
  unfold _parseBase.
  destruct (sort_longest_first (matches s)) as [|[p u] l]; [discriminate|].
  destruct (lookup_derived derivedUnits u) as [d|];
    intros H; apply success_result in H; subst b; cbn [exponents].
  - apply obj_merge_owns_10. eexists _, _. reflexivity.
  - apply obj_set_owns_10. eexists _, _. reflexivity.
Qed.

Lemma parseFactor_owns_10 (s : jsstring) c r f :
  _parseFactor s = Success c r f -> owns_10 (exponents f).
Proof.
  unfold _parseFactor.
  destruct (_parseBase s) as [bc br b|bc br] eqn:Eb; [|discriminate].
  apply parseBase_owns_10 in Eb.
  destruct (_parseChar br (ch "^")) as [cc cr u|cc cr].
  - destruct (_parseExponent cr) as [ec er ev|ec er]; [|discriminate].
    intros H. injection H as _ _ <-. now apply obj_map_owns_10.
  - intros H. injection H as _ _ <-. exact Eb.
Qed.

Lemma parseTerm_owns_10 (s : jsstring) : forall c r t,
  _parseTerm s = Success c r t -> owns_10 (exponents t).
Proof.
  induction s as [s IH] using (induction_ltof1 _ (@length N)).
  unfold ltof in IH. intros c r t. rewrite parseTerm_unfold.
  unfold parseTerm_body.
  destruct (_parseChar s (ch "(")) as [oc or u|oc or] eqn:E.
  - apply parseChar_inv in E as [-> ->].
    destruct (_parseTerm or) as [tc tr t0|tc tr] eqn:Et; [|discriminate].
    apply IH in Et; [|simpl; lia].
    destruct (_parseChar tr (ch ")")); [|discriminate].
    intros H. injection H as _ _ <-. exact Et.
  - clear E. destruct (_parseFactor s) as [fc fr f|fc fr] eqn:Ef; [|discriminate].
    apply parseFactor_owns_10 in Ef.
    destruct (parseCharTerm_with _parseTerm fr (ch "*")) as [ac ar a|ac ar].
    + intros H. injection H as _ _ <-. now apply obj_merge_owns_10.
    + destruct (parseCharTerm_with _parseTerm fr (ch "/")) as [sc sr t0|sc sr].
      * intros H. injection H as _ _ <-. now apply obj_merge_owns_10.
      * intros H. injection H as _ _ <-. exact Ef.
Qed.

Lemma parseExpression_owns_10 (s : jsstring) c r e :
  _parseExpression s = Returns (Success c r e) -> owns_10 (e_exponents e).
Proof.
  unfold _parseExpression.
  destruct (success (_parseMagnitude s) || str_eqb (consumed (_parseMagnitude s)) []);
    [|discriminate].
  destruct (rest (_parseMagnitude s)) as [|c0 r0].
  - destruct (_parseMagnitude s) as [mc mr m|mc mr]; [|discriminate].
    intros H. injection H as _ _ <-. eexists _, _. reflexivity.
  - cbv zeta.
    destruct (_parseTerm _) as [tc tr t|tc tr] eqn:Et; [|discriminate].
    apply parseTerm_owns_10 in Et.
    intros H. injection H as _ _ <-. cbn [e_exponents].
    assert (H1 : owns_10 (if str_eqb
                   (if N.eqb c0 (ch "*") then js "*"
                    else if N.eqb c0 (ch "/") then js "/" else []) (js "/")
                 then obj_map Z.opp (exponents t) else exponents t)).
    { destruct (str_eqb _ (js "/")); [now apply obj_map_owns_10 | exact Et]. }
    destruct (_parseMagnitude s); [now apply obj_set_owns_10 | exact H1].
Qed.

(** ** Reading back a canonical expression *)



(** ** Spaces *)













(** ** The units string as a list of pairs *)

Lemma obj_has_get (E : exps) (k : jsstring) :
  obj_has E k = true -> exists v, obj_get E k = Some v.
Proof. unfold obj_has. destruct (obj_get E k); [eauto | discriminate]. Qed.

Lemma obj_get_In (E : exps) (k : jsstring) (v : Z) :
  obj_get E k = Some v -> In (k, v) E.
Proof.
  induction E as [|[k' v'] E IH]; [discriminate|]. cbn [obj_get].
  destruct (str_eqb k' k) eqn:Ek.
  - apply str_eqb_eq in Ek. intros H. injection H as ->. subst. now left.
  - intros H. right. now apply IH.
Qed.








(** ** Normalising a canonical form (C3) *)





(* ================================================================= *)
(** * Further properties of the grammar *)

(** ** Progress *)

Lemma digit_run_prefix (s : jsstring) :
  exists t, digit_run s ++ t = s /\ no_digit_head t.
Proof.
  induction s as [|c s IH]; [now exists []|]. cbn [digit_run].
  destruct (is_digit c) eqn:Ec.
  - destruct IH as (t & Ht & Hn). exists t. cbn [app]. now rewrite Ht.
  - exists (c :: s). split; [reflexivity | exact Ec].
Qed.

Lemma digit_run_digits (s : jsstring) : all_digits (digit_run s).
Proof.
  induction s as [|c s IH]; [constructor|]. cbn [digit_run].
  destruct (is_digit c) eqn:Ec; constructor; assumption.
Qed.

Lemma parseDigits_success (s : jsstring) c r v :
  _parseDigits s = Success c r v ->
  c = digit_run s /\ c <> [] /\ c ++ r = s /\ no_digit_head r /\
  v = digits_value c.
Proof.
  unfold _parseDigits. destruct (digit_run_prefix s) as (t & Ht & Hn).
  destruct (negb (length (digit_run s) =? 0)%nat) eqn:El; [|discriminate].
  intros H. injection H as <- <- <-. unfold substring_from, parseInt.
  assert (Hf : firstn (length (digit_run s)) s = digit_run s).
  { rewrite <- Ht at 2. now rewrite firstn_app, firstn_all, Nat.sub_diag,
      firstn_O, app_nil_r. }
  assert (Hk : skipn (length (digit_run s)) s = t).
  { rewrite <- Ht at 2. now rewrite skipn_app, skipn_all, Nat.sub_diag. }
  rewrite Hf, Hk. repeat split; try assumption.
  - intros H0. rewrite H0 in El. discriminate.
  - now rewrite (digit_run_all _ (digit_run_digits s)).
Qed.

Lemma units_nonempty (u : jsstring) : In u units -> u <> [].
Proof.
  assert (H : forallb (fun u => negb (str_eqb u [])) units = true)
    by (vm_compute; reflexivity).
  rewrite forallb_forall in H. intros Hu E. specialize (H u Hu).
  rewrite E in H. discriminate.
Qed.

Lemma parseBase_progress (s : jsstring) c r b :
  _parseBase s = Success c r b -> c <> [].
Proof.
  intros H. apply parseBase_success_inv in H as (p & u & Hc & -> & _).
  destruct Hc as (_ & Hu & _). cbn [snd] in Hu.
  apply units_nonempty in Hu. intros E. apply app_eq_nil in E as [_ E].
  contradiction.
Qed.

Lemma parseFactor_progress (s : jsstring) c r f :
  _parseFactor s = Success c r f -> c <> [].
Proof.
  unfold _parseFactor.
  destruct (_parseBase s) as [bc br b|bc br] eqn:Eb; [|discriminate].
  apply parseBase_progress in Eb.
  destruct (_parseChar br (ch "^")) as [cc cr u|cc cr].
  - destruct (_parseExponent cr) as [ec er ev|ec er]; [|discriminate].
    intros H. injection H as <- _ _. intros E.
    apply app_eq_nil in E as [E _]. contradiction.
  - intros H. injection H as <- _ _. exact Eb.
Qed.

Lemma parseDecimal_progress (s : jsstring) : forall c r v,
  _parseDecimal s = Success c r v -> c <> [].
Proof.
  intros c r v. rewrite parseDecimal_unfold. unfold parseDecimal_body.
  destruct (_parseChar s (ch "+")) as [pc pr u|pc pr] eqn:E.
  - apply parseChar_inv in E as [-> ->].
    destruct (_parseDecimal pr); [|discriminate].
    intros H. injection H as <- _ _. discriminate.
  - clear E. destruct (_parseChar s (ch "-")) as [mc mr u|mc mr] eqn:E.
    + apply parseChar_inv in E as [-> ->].
      destruct (_parseDecimal mr); [|discriminate].
      intros H. injection H as <- _ _. discriminate.
    + clear E.
      destruct (_parseDotDigits (rest (_parseDigits s))) as [dc dr dv|dc dr] eqn:Ed.
      * unfold _parseDotDigits in Ed.
        destruct (_parseChar (rest (_parseDigits s)) (ch ".")) as [qc qr u|qc qr] eqn:Eq;
          [|discriminate].
        apply parseChar_inv in Eq as [-> _].
        injection Ed as <- _ _. intros H. injection H as <- _ _.
        intros E. apply app_eq_nil in E as [_ E]. discriminate.
      * destruct (_parseDigits s) as [gc gr gv|gc gr] eqn:Eg; [|discriminate].
        apply parseDigits_success in Eg as (_ & Hne & _).
        intros H. injection H as <- _ _. exact Hne.
Qed.

Lemma parseInteger_progress (s : jsstring) : forall c r v,
  _parseInteger s = Success c r v -> c <> [].
Proof.
  intros c r v. rewrite parseInteger_unfold. unfold parseInteger_body.
  destruct (_parseChar s (ch "+")) as [pc pr u|pc pr] eqn:E.
  - apply parseChar_inv in E as [-> ->].
    destruct (_parseInteger pr); [|discriminate].
    intros H. injection H as <- _ _. discriminate.
  - clear E. destruct (_parseChar s (ch "-")) as [mc mr u|mc mr] eqn:E.
    + apply parseChar_inv in E as [-> ->].
      destruct (_parseInteger mr); [|discriminate].
      intros H. injection H as <- _ _. discriminate.
    + clear E. destruct (_parseDigits s) as [gc gr gv|gc gr] eqn:Eg; [|discriminate].
      apply parseDigits_success in Eg as (_ & Hne & _).
      intros H. injection H as <- _ _. exact Hne.
Qed.

Lemma parseTerm_progress (s : jsstring) c r t :
  _parseTerm s = Success c r t -> c <> [].
Proof.
  rewrite parseTerm_unfold. unfold parseTerm_body.
  destruct (_parseChar s (ch "(")) as [oc or u|oc or] eqn:E.
  - apply parseChar_inv in E as [-> ->].
    destruct (_parseTerm or) as [tc tr t0|tc tr]; [|discriminate].
    destruct (_parseChar tr (ch ")")); [|discriminate].
    intros H. injection H as <- _ _. discriminate.
  - clear E. destruct (_parseFactor s) as [fc fr f|fc fr] eqn:Ef; [|discriminate].
    apply parseFactor_progress in Ef.
    assert (Hc : forall x, fc ++ x <> []).
    { intros x E. apply app_eq_nil in E as [E _]. contradiction. }
    destruct (parseCharTerm_with _parseTerm fr (ch "*")) as [ac ar a|ac ar].
    + intros H. injection H as <- _ _. apply Hc.
    + destruct (parseCharTerm_with _parseTerm fr (ch "/")) as [sc sr t0|sc sr];
        intros H; injection H as <- _ _; [apply Hc | exact Ef].
Qed.

Lemma parseMagnitude_progress (s : jsstring) c r m :
  _parseMagnitude s = Success c r m -> c <> [].
Proof.
  unfold _parseMagnitude, _parseSignificand.
  destruct (_parseDecimal s) as [sc sr sv|sc sr] eqn:Ed; [|discriminate].
  apply parseDecimal_progress in Ed.
  assert (Hc : forall x, sc ++ x <> []).
  { intros x E. apply app_eq_nil in E as [E _]. contradiction. }
  destruct (if starts_with (js "*10^") sr then _ else _) as [op|].
  - destruct (_parseExponent _); [|discriminate].
    intros H. injection H as <- _ _. apply Hc.
  - intros H. injection H as <- _ _. exact Ed.
Qed.

Lemma parseExpression_progress (s : jsstring) c r e :
  _parseExpression s = Returns (Success c r e) -> c <> [].
Proof.
  unfold _parseExpression.
  destruct (success (_parseMagnitude s) || str_eqb (consumed (_parseMagnitude s)) []);
    [|discriminate].
  destruct (rest (_parseMagnitude s)) as [|c0 r0].
  - destruct (_parseMagnitude s) as [mc mr m|mc mr] eqn:Em; [|discriminate].
    apply parseMagnitude_progress in Em.
    intros H. injection H as <- _ _. exact Em.
  - cbv zeta. destruct (_parseTerm _) as [tc tr t|tc tr] eqn:Et; [|discriminate].
    apply parseTerm_progress in Et. cbn [consumed].
    intros H. injection H as <- _ _. intros E.
    apply app_eq_nil in E as [_ E]. apply app_eq_nil in E as [_ E].
    contradiction.
Qed.

(** X1. A rule that succeeds has consumed at least one character. *)
Theorem success_consumes (s : jsstring) (char : jschar) :
  (forall c r v, _parseChar s char = Success c r v -> c <> []) /\
  (forall c r v, _parseDigits s = Success c r v -> c <> []) /\
  (forall c r v, _parseDotDigits s = Success c r v -> c <> []) /\
  (forall c r v, _parseDecimal s = Success c r v -> c <> []) /\
  (forall c r v, _parseInteger s = Success c r v -> c <> []) /\
  (forall c r v, _parseBase s = Success c r v -> c <> []) /\
  (forall c r v, _parseFactor s = Success c r v -> c <> []) /\
  (forall c r v, _parseTerm s = Success c r v -> c <> []) /\
  (forall c r v, _parseCharTerm s char = Success c r v -> c <> []) /\
  (forall c r v, _parseMagnitude s = Success c r v -> c <> []) /\
  (forall c r v, _parseExpression s = Returns (Success c r v) -> c <> []).
Proof.
  split.
  { intros c r v H. apply parseChar_inv in H as [-> _]. discriminate. }
  split.
  { intros c r v H. now apply parseDigits_success in H. }
  split.
  { intros c r v. unfold _parseDotDigits.
    destruct (_parseChar s (ch ".")) as [pc pr u|pc pr] eqn:E; [|discriminate].
    apply parseChar_inv in E as [-> _].
    intros H. injection H as <- _ _. discriminate. }
  split; [exact (parseDecimal_progress s)|].
  split; [exact (parseInteger_progress s)|].
  split; [exact (parseBase_progress s)|].
  split; [exact (parseFactor_progress s)|].
  split; [exact (parseTerm_progress s)|].
  split.
  { intros c r v. unfold _parseCharTerm, parseCharTerm_with.
    destruct (_parseChar s char) as [cc cr u|cc cr] eqn:E; [|discriminate].
    apply parseChar_inv in E as [-> _].
    destruct (_parseTerm cr); [|discriminate].
    intros H. injection H as <- _ _. discriminate. }
  split; [exact (parseMagnitude_progress s)|].
  exact (parseExpression_progress s).
Qed.

Lemma success_consumes_witness :
  js "kPa" <> [] /\ js "-3.14" <> [].
Proof.
  split.
  - destruct (success_consumes (js "kPa*s") (ch "*"))
      as (_ & _ & _ & _ & _ & Hbase & _).
    apply (Hbase (js "kPa") (js "*s")
             {| exponents := [(js "10", 6); (js "g", 1); (js "m", -1); (js "s", -2)];
                conversion := fun magnitude => magnitude |}).
    vm_compute. reflexivity.
  - destruct (success_consumes (js "-3.14m") (ch "*"))
      as (_ & _ & _ & Hdecimal & _).
    apply (Hdecimal (js "-3.14") (js "m") (Dec (-314) 2)).
    vm_compute. reflexivity.
Defined.

(** ** Digits, periods and signs *)

Lemma digits_from_nonneg (l : jsstring) : forall acc,
  0 <= acc -> all_digits l -> 0 <= digits_from acc l.
Proof.
  induction l as [|c l IH]; intros acc Ha Hl; [exact Ha|].
  inversion Hl as [|? ? Hc Hl']; subst. unfold digits_from in *.
  cbn [fold_left]. apply IH; [|exact Hl'].
  unfold is_digit in Hc. apply andb_true_iff in Hc as [Hc _].
  apply N.leb_le in Hc. lia.
Qed.

Lemma parseDigits_no_digit (t : jsstring) :
  no_digit_head t -> _parseDigits t = Failure [] t.
Proof.
  intros Ht. unfold _parseDigits.
  assert (E : digit_run t = []).
  { destruct t as [|c t]; [reflexivity|]. cbn [no_digit_head digit_run] in *.
    now rewrite Ht. }
  now rewrite E.
Qed.

(** X2. [_parseDigits] succeeds exactly when the input begins with a digit;
    it then consumes the whole leading run of digits and leaves a rest that
    does not begin with a digit.  When the run has at most fifteen digits,
    a number below 2^53 that [parseInt] returns exactly, the result is the
    value of the run, which is not negative. *)
Theorem digits_maximal_run (s : jsstring) :
  (success (_parseDigits s) = true <->
   exists c t, s = c :: t /\ is_digit c = true) /\
  (forall c r v, _parseDigits s = Success c r v ->
     c = digit_run s /\ all_digits c /\ c ++ r = s /\ no_digit_head r /\
     ((length c <= 15)%nat -> v = digits_value c /\ 0 <= v)).
Proof.
  split.
  - split.
    + destruct s as [|c t]; [discriminate|]. intros H.
      exists c, t. split; [reflexivity|].
      destruct (is_digit c) eqn:Ec; [reflexivity|].
      rewrite (parseDigits_no_digit (c :: t) Ec) in H. discriminate.
    + intros (c & t & -> & Hc). unfold _parseDigits. cbn [digit_run].
      now rewrite Hc.
  - intros c r v H. apply parseDigits_success in H as (Hc & Hne & Hs & Hr & Hv).
    assert (Hd : all_digits c) by (rewrite Hc; apply digit_run_digits).
    repeat split; try assumption. rewrite Hv.
    apply (digits_from_nonneg c 0); [lia | exact Hd].
Qed.

Lemma digits_maximal_run_witness :
  js "2024" = digit_run (js "2024-11") /\ all_digits (js "2024") /\
  js "2024" ++ js "-11" = js "2024-11" /\ no_digit_head (js "-11") /\
  2024 = digits_value (js "2024") /\ 0 <= 2024.
Proof.
  destruct (proj2 (digits_maximal_run (js "2024-11"))
              (js "2024") (js "-11") 2024 eq_refl)
    as (H1 & H2 & H3 & H4 & H5).
  split; [exact H1|]. split; [exact H2|]. split; [exact H3|].
  split; [exact H4|]. apply H5. vm_compute. lia.
Defined.

(** X3. A period needs no digit around it: a lone period is read as a
    decimal whose value is [NaN], and digits followed by a period alone are
    read, period included, as the value of the digits (at most fifteen
    digits, a number that [parseFloat] returns exactly). *)
Theorem period_without_digits :
  (forall t, no_digit_head t ->
     _parseDecimal (ch "." :: t) = Success [ch "."] t NaN) /\
  (forall d t, all_digits d -> d <> [] -> (length d <= 15)%nat ->
     no_digit_head t ->
     _parseDecimal (d ++ ch "." :: t)
     = Success (d ++ [ch "."]) t (Dec (digits_value d) 0)).
Proof.
  split.
  - intros t Ht. rewrite parseDecimal_unfold. unfold parseDecimal_body.
    rewrite !parseChar_head_ne by reflexivity.
    rewrite (parseDigits_no_digit (ch "." :: t) eq_refl). cbn [rest consumed].
    unfold _parseDotDigits. rewrite parseChar_head_eq.
    rewrite (parseDigits_no_digit t Ht). reflexivity.
  - intros d t Hd Hne _ Ht. rewrite parseDecimal_unfold.
    unfold parseDecimal_body.
    destruct (digits_head d Hd Hne) as (c & d' & Ed & Hc).
    assert (Hsign : forall x, is_digit (ch x) = false ->
              _parseChar (d ++ ch "." :: t) (ch x) = Failure [] (d ++ ch "." :: t)).
    { intros x Hx. rewrite Ed. cbn [app]. apply parseChar_head_ne.
      now apply is_digit_not. }
    rewrite !Hsign by reflexivity.
    rewrite (parseDigits_digits d (ch "." :: t) Hd Hne
               (eq_refl : no_digit_head (ch "." :: t))).
    cbn [rest consumed]. unfold _parseDotDigits. rewrite parseChar_head_eq.
    rewrite (parseDigits_no_digit t Ht). cbn [consumed app].
    f_equal. unfold parseFloat.
    rewrite (digit_run_app d [ch "."] Hd (eq_refl : no_digit_head [ch "."])).
    rewrite skipn_app, skipn_all, Nat.sub_diag. cbn [skipn app].
    change (ch ".") with 46%N. cbv iota. cbn [digit_run length].
    rewrite app_nil_r. destruct d as [|c0 d0]; [contradiction|].
    reflexivity.
Qed.

Lemma period_without_digits_witness :
  _parseDecimal (js ".m") = Success (js ".") (js "m") NaN /\
  _parseDecimal (js "5.m") = Success (js "5.") (js "m") (Dec 5 0).
Proof.
  split.
  - apply (proj1 period_without_digits (js "m")). vm_compute. reflexivity.
  - apply (proj2 period_without_digits (js "5") (js "m")).
    + repeat constructor.
    + discriminate.
    + vm_compute. lia.
    + vm_compute. reflexivity.
Defined.

Lemma digits_fuel_length (fuel : nat) : forall n acc d,
  0 <= n < 10 ^ Z.of_nat (S d) ->
  (length (digits_fuel fuel n acc) <= length acc + S d)%nat.
Proof.
  induction fuel as [|fuel IH]; intros n acc d Hn; cbn [digits_fuel]; [lia|].
  destruct (Z.ltb_spec n 10) as [Hlt|Hge]; [cbn [length]; lia|].
  destruct d as [|d].
  { change (10 ^ Z.of_nat 1) with 10 in Hn. lia. }
  assert (Hq : 0 <= n / 10 < 10 ^ Z.of_nat (S d)).
  { split; [apply Z.div_pos; lia|].
    apply Z.div_lt_upper_bound; [lia|].
    rewrite (Nat2Z.inj_succ (S d)), Z.pow_succ_r in Hn by lia. lia. }
  specialize (IH _ (Z.to_N (48 + n mod 10) :: acc) _ Hq).
  cbn [length] in IH. lia.
Qed.

Lemma safe_positional (v : Z) :
  Z.abs v < 10 ^ 21 -> positional_range (num_of_Z v) = true.
Proof.
  intros Hv. unfold num_of_Z, positional_range. cbn [normalize_dec].
  destruct (Z.eqb v 0); [reflexivity|]. cbn [orb].
  unfold point_position, digits_of.
  pose proof (digits_fuel_length (S (Z.to_nat (Z.log2 (Z.abs v)))) (Z.abs v) []
                20 (conj (Z.abs_nonneg v) Hv)) as Hl.
  cbn [length] in Hl.
  apply andb_true_iff. split; [apply Z.ltb_lt | apply Z.leb_le]; lia.
Qed.

Lemma safe_integer_positional (v : Z) :
  safe_integer v = true -> positional_range (num_of_Z v) = true.
Proof.
  unfold safe_integer. intros H. apply Z.leb_le in H.
  apply safe_positional. change (10 ^ 21) with 1000000000000000000000. lia.
Qed.

(** X4. An integer that a binary64 number holds exactly (below 2^53 in
    absolute value) is printed with all its digits, and this rendering is
    read back by [_parseInteger] as that integer, whatever follows it that
    is not a digit. *)
Theorem integer_round_trip (v : Z) (t : jsstring) :
  safe_integer v = true -> no_digit_head t ->
  _parseInteger (int_toString v ++ t) = Success (int_toString v) t v.
Proof.
  intros Hv. exact (parseInteger_int v t (safe_integer_positional v Hv)).
Qed.

Lemma integer_round_trip_witness :
  _parseInteger (int_toString (-42) ++ js "*s") = Success (int_toString (-42)) (js "*s") (-42).
Proof.
  apply (integer_round_trip (-42) (js "*s")); vm_compute; reflexivity.
Defined.

(** X5. An integer magnitude that a binary64 number holds exactly (below
    2^53 in absolute value), rendered by [JSON.stringify], is read back
    whole by [_parseDecimal] as that integer, before any text that begins
    neither with a digit nor with a period. *)
Theorem decimal_round_trip (m : Z) (t : jsstring) :
  safe_integer m = true -> decimal_tail t ->
  _parseDecimal (JSON_stringify (Dec m 0) ++ t)
  = Success (JSON_stringify (Dec m 0)) t (Dec m 0).
Proof.
  intros Hm Ht. pose proof (safe_integer_positional m Hm) as Hp.
  unfold num_of_Z in Hp. rewrite (stringify_positional m 0 Hp).
  cbn [normalize_dec fst snd].
  assert (Hn : forall a, normal a 0) by (intros a; now left).
  unfold sign_prefix. destruct (Z.ltb_spec m 0) as [Hneg|Hpos].
  - change (js "-") with [ch "-"]. cbn [app].
    rewrite parseDecimal_unfold. unfold parseDecimal_body.
    rewrite parseChar_head_ne by reflexivity. rewrite parseChar_head_eq.
    rewrite <- positional_abs.
    rewrite (parseDecimal_positional (Z.abs m) 0 t (Z.abs_nonneg m)
               (Hn _) Ht).
    cbn [app num_neg]. do 2 f_equal. lia.
  - cbn [app]. exact (parseDecimal_positional m 0 t Hpos (Hn _) Ht).
Qed.

Lemma decimal_round_trip_witness :
  _parseDecimal (JSON_stringify (Dec (-3140) 0) ++ js "kg")
  = Success (JSON_stringify (Dec (-3140) 0)) (js "kg") (Dec (-3140) 0).
Proof.
  apply (decimal_round_trip (-3140) (js "kg")).
  - vm_compute. reflexivity.
  - vm_compute. split; reflexivity.
Defined.

(** ** The entry point *)

(** X6. Every exponent vector that the grammar returns owns the key 10:
    [exponents['10']] is never undefined when the magnitude string is
    built. *)
Theorem ten_is_always_owned (s : jsstring) :
  (forall c r b, _parseBase s = Success c r b ->
     obj_has (exponents b) (js "10") = true) /\
  (forall c r f, _parseFactor s = Success c r f ->
     obj_has (exponents f) (js "10") = true) /\
  (forall c r t, _parseTerm s = Success c r t ->
     obj_has (exponents t) (js "10") = true) /\
  (forall c r e, _parseExpression s = Returns (Success c r e) ->
     obj_has (e_exponents e) (js "10") = true).
Proof.
  assert (H10 : forall E, owns_10 E -> obj_has E (js "10") = true).
  { intros E HE. destruct (owns_10_get _ HE) as [v Hv].
    unfold obj_has. now rewrite Hv. }
  split; [intros c r b H; exact (H10 _ (parseBase_owns_10 s c r b H))|].
  split; [intros c r f H; exact (H10 _ (parseFactor_owns_10 s c r f H))|].
  split; [intros c r t H; exact (H10 _ (parseTerm_owns_10 s c r t H))|].
  intros c r e H. exact (H10 _ (parseExpression_owns_10 s c r e H)).
Qed.

Lemma ten_is_always_owned_witness :
  obj_has [(js "10", -2); (js "m", 1); (js "s", -1)] (js "10") = true.
Proof.
  apply (proj1 (proj2 (proj2 (ten_is_always_owned (js "cm/s"))))
           (js "cm/s") []
           {| exponents := [(js "10", -2); (js "m", 1); (js "s", -1)];
              conversion := fun magnitude => magnitude |}).
  vm_compute. reflexivity.
Defined.

Lemma normalizeUnits_returns (input out : jsstring) :
  normalizeUnits input = Returns out ->
  exists c r n,
    _normalizeUnits input = Returns (Success c r n) /\
    out = assemble (n_magnitude n) (n_units n).
Proof.
  unfold normalizeUnits, _throttle.
  destruct (_normalizeUnits input) as [[c r n|c r]|e]; try discriminate.
  intros H. injection H as <-. now exists c, r, n.
Qed.

Lemma normalizeUnits_internal_spaces (a b : jsstring) c r n :
  strip_spaces a = strip_spaces b ->
  _normalizeUnits a = Returns (Success c r n) ->
  _normalizeUnits b = Returns (Success c r n).
Proof.
  unfold _normalizeUnits. intros <-.
  destruct (str_eqb (strip_spaces a) []); [trivial|].
  destruct (_parseExpression (strip_spaces a)) as [[ec er e|ec er]|x];
    try discriminate. trivial.
Qed.

(** X7. Spaces are ignored wherever they stand: two inputs that differ only
    in their spaces normalise to the same output, and an input made of
    spaces only normalises to the empty string. *)
Theorem spaces_are_ignored :
  (forall a b out, strip_spaces a = strip_spaces b ->
     normalizeUnits a = Returns out -> normalizeUnits b = Returns out) /\
  (forall input, strip_spaces input = [] -> normalizeUnits input = Returns []).
Proof.
  split.
  - intros a b out Hs Ha.
    destruct (normalizeUnits_returns a out Ha) as (c & r & n & Hn & ->).
    apply (normalizeUnits_internal_spaces a b c r n Hs) in Hn.
    unfold normalizeUnits, _throttle. rewrite Hn. reflexivity.
  - intros input Hs. unfold normalizeUnits, _throttle, _normalizeUnits.
    rewrite Hs. reflexivity.
Qed.

Lemma spaces_are_ignored_witness :
  normalizeUnits (js " 5 0k Pa ") = Returns (js "50*10^6 g*m^-1*s^-2") /\
  normalizeUnits (js "   ") = Returns [].
Proof.
  split.
  - apply (proj1 spaces_are_ignored (js "50 kPa")); vm_compute; reflexivity.
  - apply (proj2 spaces_are_ignored (js "   ")). vm_compute. reflexivity.
Defined.

(** X8. The only exception that [normalizeUnits] raises on a string is its
    own parse error: the expression parser has failed on the input without
    its spaces, and the message quotes what that parser consumed, a prefix
    of the input without its spaces, and then the input as given. *)
Theorem thrown_error_is_parse_error (input : jsstring) (e : exn) :
  normalizeUnits input = Throws e ->
  exists c,
    e = Error (error_message c input) /\
    _parseExpression (strip_spaces input)
    = Returns (Failure c (strip_spaces input)) /\
    starts_with c (strip_spaces input) = true.
Proof.
  intros H. pose proof (normalizeUnits_never_TypeError input) as Hn.
  unfold normalizeUnits, _throttle in H, Hn.
  destruct (_normalizeUnits input) as [[c r n|c r]|x] eqn:E; try discriminate.
  - injection H as <-. exists c. split; [reflexivity|].
    apply normalizeUnits_internal_fail in E as [_ E]. split; [exact E|].
    pose proof (parseExpression_wf (strip_spaces input)) as Hw.
    rewrite E in Hw. destruct Hw as [_ Hp]. now apply starts_with_prefix.
  - injection H as <-. unfold _normalizeUnits in E.
    destruct (str_eqb (strip_spaces input) []); [discriminate|].
    destruct (_parseExpression (strip_spaces input)) as [[ec er e0|ec er]|y] eqn:Ee;
      try discriminate.
    injection E as <-. destruct y; [contradiction|].
    exfalso. revert Ee. unfold _parseExpression.
    destruct (success _ || str_eqb _ []); [|discriminate].
    destruct (rest (_parseMagnitude (strip_spaces input))).
    + destruct (_parseMagnitude (strip_spaces input)); discriminate.
    + cbv zeta. destruct (_parseTerm _); discriminate.
Qed.

Lemma thrown_error_is_parse_error_witness :
  exists c,
    Error (error_message (js "50") (js "5 0 qPa")) = Error (error_message c (js "5 0 qPa")) /\
    _parseExpression (strip_spaces (js "5 0 qPa"))
    = Returns (Failure c (strip_spaces (js "5 0 qPa"))) /\
    starts_with c (strip_spaces (js "5 0 qPa")) = true.
Proof.
  apply (thrown_error_is_parse_error (js "5 0 qPa")). vm_compute. reflexivity.
Defined.

(** ** Celsius, parentheses and the letter E *)




(** X10. A term that opens with a parenthesis is the term between the
    parentheses and ends at the closing one: what follows the closing
    parenthesis, an operator included, is left in [rest] and takes no part
    in the result. *)
Theorem parenthesised_term (s c r : jsstring) (t : unit_result) :
  _parseTerm (ch "(" :: s) = Success c r t <->
  exists tc, _parseTerm s = Success tc (ch ")" :: r) t /\
             c = ch "(" :: tc ++ [ch ")"].
Proof.
  rewrite parseTerm_unfold. unfold parseTerm_body.
  rewrite parseChar_head_eq. split.
  - destruct (_parseTerm s) as [tc tr t0|tc tr]; [|discriminate].
    destruct (_parseChar tr (ch ")")) as [cc cr u|cc cr] eqn:E; [|discriminate].
    apply parseChar_inv in E as [-> ->]. cbn [consumed].
    intros H. injection H as <- <- <-. now exists tc.
  - intros (tc & -> & ->). rewrite parseChar_head_eq. reflexivity.
Qed.

Lemma parenthesised_term_witness :
  _parseTerm (js "(kg*m)/s^2")
  = Success (js "(kg*m)") (js "/s^2")
      {| exponents := [(js "10", 3); (js "g", 1); (js "m", 1)];
         conversion := fun magnitude => magnitude |}.
Proof.
  apply (proj2 (parenthesised_term (js "kg*m)/s^2") (js "(kg*m)") (js "/s^2")
                  {| exponents := [(js "10", 3); (js "g", 1); (js "m", 1)];
                     conversion := fun magnitude => magnitude |})).
  exists (js "kg*m"). split; vm_compute; reflexivity.
Defined.

(** X11. After a significand the letters [E] and [e] always announce a power
    of ten: when no integer follows the letter, the expression fails, so a
    unit that begins with [E] (the prefix exa) cannot follow a number
    directly. *)
Theorem letter_E_needs_integer (s c t : jsstring) (x : jschar) (v : jsnum) :
  _parseDecimal s = Success c (x :: t) v ->
  x = ch "E" \/ x = ch "e" ->
  success (_parseInteger t) = false ->
  _parseExpression s
  = Returns (Failure (c ++ [x] ++ consumed (_parseInteger t)) s).
Proof.
  intros Hd Hx Hi.
  assert (Hm : _parseMagnitude s
               = Failure (c ++ [x] ++ consumed (_parseInteger t)) s).
  { unfold _parseMagnitude, _parseSignificand, _parseExponent. rewrite Hd.
    destruct Hx as [-> | ->];
      (change (starts_with (js "*10^") (_ :: t)) with false; cbv iota;
       rewrite N.eqb_refl, ?orb_true_r; cbn [orb]; cbv iota;
       unfold substring_from; cbn [length skipn];
       destruct (_parseInteger t); [discriminate | reflexivity]). }
  unfold _parseExpression. rewrite Hm. cbn [success consumed orb].
  assert (Hne : str_eqb (c ++ [x] ++ consumed (_parseInteger t)) [] = false).
  { apply str_eqb_neq. intros E. apply app_eq_nil in E as [_ E]. discriminate. }
  rewrite Hne. reflexivity.
Qed.

Lemma letter_E_needs_integer_witness :
  _parseExpression (js "5Em") = Returns (Failure (js "5E") (js "5Em")).
Proof.
  apply (letter_E_needs_integer (js "5Em") (js "5") (js "m") (ch "E") (Dec 5 0)).
  - vm_compute. reflexivity.
  - left. reflexivity.
  - vm_compute. reflexivity.
Defined.

(** ** Reading and writing exponent vectors *)

Lemma str_eqb_sym (a b : jsstring) : str_eqb a b = str_eqb b a.
Proof.
  destruct (str_eqb b a) eqn:E.
  - apply str_eqb_eq in E. subst. apply str_eqb_refl.
  - apply str_eqb_neq. apply str_eqb_neq in E. congruence.
Qed.

Lemma obj_get_set (E : exps) (k k' : jsstring) (v : Z) :
  obj_get (obj_set E k v) k'
  = if str_eqb k k' then Some v else obj_get E k'.
Proof.
  induction E as [|[k0 v0] E IH]; [reflexivity|]. cbn [obj_set].
  destruct (str_eqb k0 k) eqn:E0; cbn [obj_get].
  - apply str_eqb_eq in E0. subst k0. now destruct (str_eqb k k').
  - rewrite IH. destruct (str_eqb k0 k') eqn:E1; [|reflexivity].
    apply str_eqb_eq in E1. subst k'. rewrite str_eqb_sym, E0. reflexivity.
Qed.

Lemma obj_get_map (f : Z -> Z) (E : exps) (k : jsstring) :
  obj_get (obj_map f E) k = option_map f (obj_get E k).
Proof.
  induction E as [|[k0 v0] E IH]; [reflexivity|]. cbn [obj_map map obj_get fst snd].
  destruct (str_eqb k0 k); [reflexivity | exact IH].
Qed.

Lemma obj_get_absent (E : exps) (k : jsstring) :
  ~ In k (obj_keys E) -> obj_get E k = None.
Proof.
  induction E as [|[k0 v0] E IH]; [reflexivity|]. cbn [obj_keys map fst In obj_get].
  intros H. destruct (str_eqb k0 k) eqn:E0.
  - apply str_eqb_eq in E0. tauto.
  - apply IH. tauto.
Qed.

Lemma obj_get_present (E : exps) (k : jsstring) :
  In k (obj_keys E) -> obj_has E k = true.
Proof.
  unfold obj_has.
  induction E as [|[k0 v0] E IH]; [intros []|]. cbn [obj_keys map fst In obj_get].
  destruct (str_eqb k0 k) eqn:E0; [reflexivity|].
  intros [H|H]; [subst; rewrite str_eqb_refl in E0; discriminate | now apply IH].
Qed.

Lemma obj_has_keys (E : exps) (k : jsstring) :
  obj_has E k = true -> In k (obj_keys E).
Proof.
  intros H. apply obj_has_get in H as [v Hv]. apply obj_get_In in Hv.
  apply in_map_iff. now exists (k, v).
Qed.

(** What [obj_merge] leaves under each key, for a second vector without
    repeated keys. *)
Lemma obj_merge_get (op : Z -> Z -> Z) (B : exps) : forall A k,
  NoDup (obj_keys B) ->
  obj_get (obj_merge op A B) k
  = match obj_get B k with
    | Some b => Some (op (or0 (obj_get A k)) b)
    | None => obj_get A k
    end.
Proof.
  unfold obj_merge.
  induction B as [|[k1 v1] B IH]; intros A k Hn; [reflexivity|].
  cbn [obj_keys map fst] in Hn. inversion Hn as [|? ? Hnin Hn']; subst.
  cbn [fold_left fst snd obj_get]. rewrite (IH _ k Hn'), obj_get_set.
  destruct (str_eqb k1 k) eqn:E1.
  - apply str_eqb_eq in E1. subst k1.
    now rewrite (obj_get_absent B k Hnin).
  - reflexivity.
Qed.

Lemma obj_set_keys (E : exps) (k : jsstring) (v : Z) :
  obj_keys (obj_set E k v)
  = if obj_has E k then obj_keys E else obj_keys E ++ [k].
Proof.
  unfold obj_has.
  induction E as [|[k0 v0] E IH]; [reflexivity|].
  cbn [obj_set obj_get]. destruct (str_eqb k0 k); [reflexivity|].
  change (obj_keys ((k0, v0) :: obj_set E k v))
    with (k0 :: obj_keys (obj_set E k v)).
  rewrite IH. now destruct (obj_get E k).
Qed.

Lemma obj_set_NoDup (E : exps) (k : jsstring) (v : Z) :
  NoDup (obj_keys E) -> NoDup (obj_keys (obj_set E k v)).
Proof.
  intros H. rewrite obj_set_keys. destruct (obj_has E k) eqn:Eh; [exact H|].
  apply NoDup_app; [exact H | repeat constructor; intros [] |].
  intros x Hx [<-|[]]. apply obj_get_present in Hx. congruence.
Qed.

Lemma obj_merge_NoDup (op : Z -> Z -> Z) (B : exps) : forall A,
  NoDup (obj_keys A) -> NoDup (obj_keys (obj_merge op A B)).
Proof.
  unfold obj_merge. induction B as [|kv B IH]; intros A H; [exact H|].
  cbn [fold_left]. apply IH. now apply obj_set_NoDup.
Qed.

Lemma obj_map_keys (f : Z -> Z) (E : exps) : obj_keys (obj_map f E) = obj_keys E.
Proof. unfold obj_keys, obj_map. rewrite map_map. reflexivity. Qed.

Lemma derived_NoDup (u : jsstring) (d : derived_unit) :
  lookup_derived derivedUnits u = Some d -> NoDup (obj_keys (d_exponents d)).
Proof.
  unfold derivedUnits, lookup_derived.
  repeat (destruct (str_eqb _ u);
          [intros H; injection H as <-; cbn [d_exponents derived obj_keys map fst];
           repeat (constructor; [cbn [In]; intuition discriminate|]); constructor|]).
  discriminate.
Qed.

Lemma base_result_NoDup (p u : jsstring) :
  NoDup (obj_keys (exponents (base_result p u))).
Proof.
  unfold base_result.
  destruct (lookup_derived derivedUnits u) as [d|]; cbn [exponents].
  - apply obj_merge_NoDup. repeat constructor. intros [].
  - apply obj_set_NoDup. repeat constructor. intros [].
Qed.

Lemma parseBase_success_full (s : jsstring) c r b :
  _parseBase s = Success c r b ->
  exists p u,
    candidate s (p, u) /\ c = p ++ u /\ c ++ r = s /\ b = base_result p u /\
    (forall m, candidate s m -> (total_length m <= length p + length u)%nat).
Proof.
  unfold _parseBase.
  pose proof (sort_head (matches s)) as Hh.
  pose proof (fun y => sort_In y (matches s)) as Hin.
  destruct (sort_longest_first (matches s)) as [|[p u] l]; [discriminate|].
  intros H. exists p, u.
  assert (Hc : candidate s (p, u)).
  { apply (proj1 (matches_candidate s (p, u))), (proj1 (Hin (p, u))).
    left. reflexivity. }
  split; [exact Hc|]. split; [congruence|]. split; [|split].
  - assert (Hcu : c = p ++ u) by congruence.
    assert (Hr : r = substring_from (length (p ++ u)) s) by congruence.
    subst c r. destruct Hc as (_ & _ & _ & Hs). cbn [fst snd] in Hs.
    apply starts_with_prefix in Hs as [t Ht].
    exact (prefix_skipn _ t _ Ht).
  - apply success_result in H. subst b. reflexivity.
  - intros m Hm. apply (proj2 (matches_candidate s m)) in Hm.
    apply (proj2 (Hin m)) in Hm.
    destruct Hm as [<-|Hm]; [apply Nat.le_refl|]. exact (Hh m Hm).
Qed.

Lemma parseBase_NoDup (s : jsstring) c r b :
  _parseBase s = Success c r b -> NoDup (obj_keys (exponents b)).
Proof.
  intros H. apply parseBase_success_full in H as (p & u & _ & _ & _ & -> & _).
  apply base_result_NoDup.
Qed.

Lemma parseFactor_NoDup (s : jsstring) c r f :
  _parseFactor s = Success c r f -> NoDup (obj_keys (exponents f)).
Proof.
  unfold _parseFactor.
  destruct (_parseBase s) as [bc br b|bc br] eqn:Eb; [|discriminate].
  apply parseBase_NoDup in Eb.
  destruct (_parseChar br (ch "^")) as [cc cr u|cc cr].
  - destruct (_parseExponent cr) as [ec er ev|ec er]; [|discriminate].
    intros H. apply success_result in H. subst f. cbn [exponents].
    now rewrite obj_map_keys.
  - intros H. apply success_result in H. now subst f.
Qed.

Lemma parseTerm_NoDup (s : jsstring) : forall c r t,
  _parseTerm s = Success c r t -> NoDup (obj_keys (exponents t)).
Proof.
  induction s as [s IH] using (induction_ltof1 _ (@length N)).
  unfold ltof in IH. intros c r t. rewrite parseTerm_unfold.
  unfold parseTerm_body.
  destruct (_parseChar s (ch "(")) as [oc or u|oc or] eqn:E.
  - apply parseChar_inv in E as [-> ->].
    destruct (_parseTerm or) as [tc tr t0|tc tr] eqn:Et; [|discriminate].
    apply IH in Et; [|simpl; lia].
    destruct (_parseChar tr (ch ")")); [|discriminate].
    intros H. apply success_result in H. now subst t.
  - clear E. destruct (_parseFactor s) as [fc fr f|fc fr] eqn:Ef; [|discriminate].
    apply parseFactor_NoDup in Ef.
    destruct (parseCharTerm_with _parseTerm fr (ch "*")) as [ac ar a|ac ar].
    + intros H. apply success_result in H. subst t. cbn [exponents].
      now apply obj_merge_NoDup.
    + destruct (parseCharTerm_with _parseTerm fr (ch "/")) as [sc sr t0|sc sr];
        intros H; apply success_result in H; subst t; cbn [exponents];
        [now apply obj_merge_NoDup | exact Ef].
Qed.

Lemma parseCharTerm_inv (s : jsstring) (char : jschar) c r t :
  _parseCharTerm s char = Success c r t ->
  exists s' tc, s = char :: s' /\ _parseTerm s' = Success tc r t /\
                c = char :: tc.
Proof.
  unfold _parseCharTerm, parseCharTerm_with.
  destruct (_parseChar s char) as [cc cr u|cc cr] eqn:E; [|discriminate].
  apply parseChar_inv in E as [-> ->].
  destruct (_parseTerm cr) as [tc tr t0|tc tr] eqn:Et; [|discriminate].
  cbn [consumed]. intros H. injection H as <- <- <-. now exists cr, tc.
Qed.

Lemma parseFactor_parenthesis (s : jsstring) :
  _parseFactor (ch "(" :: s) = Failure [] (ch "(" :: s).
Proof. vm_compute. reflexivity. Qed.

Lemma parseFactor_not_parenthesis (s : jsstring) c r f :
  _parseFactor s = Success c r f ->
  _parseChar s (ch "(") = Failure [] s.
Proof.
  intros H. destruct s as [|c0 s']; [reflexivity|].
  destruct (N.eqb_spec (ch "(") c0) as [<-|Hne].
  - rewrite parseFactor_parenthesis in H. discriminate.
  - apply parseChar_head_ne. now apply N.eqb_neq.
Qed.

(** ** The algebra of exponents *)

(** Multiplying a factor by a term adds their exponents key by key, and
    dividing it by a term subtracts them; a key that one side lacks counts
    for 0. *)
Lemma parseTerm_sum (s fc fr : jsstring) (f : unit_result) :
  _parseFactor s = Success fc fr f ->
  (forall ac ar a, _parseAsterixTerm fr = Success ac ar a ->
     exists t, _parseTerm s = Success (fc ++ ac) ar t /\
               vector_sum (exponents t) (exponents f) (exponents a)) /\
  (success (_parseAsterixTerm fr) = false ->
   forall sc sr d, _parseSlashTerm fr = Success sc sr d ->
     exists t, _parseTerm s = Success (fc ++ sc) sr t /\
               vector_difference (exponents t) (exponents f) (exponents d)).
Proof.
  intros Hf. pose proof (parseFactor_not_parenthesis s fc fr f Hf) as Hp.
  assert (Hget : forall op (x : unit_result),
            NoDup (obj_keys (exponents x)) ->
            forall k, or0 (obj_get (obj_merge op (exponents f) (exponents x)) k)
                      = match obj_get (exponents x) k with
                        | Some b => op (or0 (obj_get (exponents f) k)) b
                        | None => or0 (obj_get (exponents f) k)
                        end).
  { intros op x Hn k. rewrite (obj_merge_get op _ _ k Hn).
    now destruct (obj_get (exponents x) k). }
  split.
  - intros ac ar a Ha. rewrite parseTerm_unfold. unfold parseTerm_body.
    rewrite Hp, Hf. unfold _parseAsterixTerm, _parseCharTerm in Ha. rewrite Ha.
    eexists. split; [reflexivity|]. cbn [exponents]. intros k.
    apply parseCharTerm_inv in Ha as (s' & tc & _ & Ht & _).
    apply parseTerm_NoDup in Ht.
    rewrite (Hget Z.add a Ht k).
    destruct (obj_get (exponents a) k); cbn [or0]; lia.
  - intros Ha sc sr d Hd. rewrite parseTerm_unfold. unfold parseTerm_body.
    rewrite Hp, Hf. unfold _parseAsterixTerm, _parseSlashTerm, _parseCharTerm in *.
    destruct (parseCharTerm_with _parseTerm fr (ch "*")); [discriminate|].
    rewrite Hd. eexists. split; [reflexivity|]. cbn [exponents]. intros k.
    apply parseCharTerm_inv in Hd as (s' & tc & _ & Ht & _).
    apply parseTerm_NoDup in Ht.
    rewrite (Hget Z.sub d Ht k).
    destruct (obj_get (exponents d) k); cbn [or0]; lia.
Qed.

Lemma or0_opp (x : option Z) : or0 (option_map Z.opp x) = - or0 x.
Proof. now destruct x. Qed.

(** A magnitude multiplied by a term, with [*] or by juxtaposition, adds
    its power of ten to the exponent of ten of the term; a magnitude divided
    by a term first negates every exponent of the term.  The numeric
    magnitude is the conversion of the term applied to the significand. *)
Lemma parseExpression_sum (s mc tr : jsstring) (x : jschar)
    (m : magnitude_result) (tc r : jsstring) (t : unit_result) :
  (_parseMagnitude s = Success mc (ch "*" :: tr) m ->
   _parseTerm tr = Success tc r t ->
   exists e,
     _parseExpression s = Returns (Success (mc ++ js "*" ++ tc) r e) /\
     magnitude e = conversion t (significand m) /\
     vector_sum (e_exponents e) [(js "10", exponent m)] (exponents t)) /\
  (_parseMagnitude s = Success mc (ch "/" :: tr) m ->
   _parseTerm tr = Success tc r t ->
   exists e,
     _parseExpression s = Returns (Success (mc ++ js "/" ++ tc) r e) /\
     magnitude e = conversion t (significand m) /\
     vector_difference (e_exponents e) [(js "10", exponent m)] (exponents t)) /\
  (_parseMagnitude s = Success mc (x :: tr) m ->
   x <> ch "*" -> x <> ch "/" ->
   _parseTerm (x :: tr) = Success tc r t ->
   exists e,
     _parseExpression s = Returns (Success (mc ++ tc) r e) /\
     magnitude e = conversion t (significand m) /\
     vector_sum (e_exponents e) [(js "10", exponent m)] (exponents t)).
Proof.
  assert (Hadd : forall E em k,
            or0 (obj_get (obj_add E (js "10") em) k)
            = or0 (obj_get [(js "10", em)] k) + or0 (obj_get E k)).
  { intros E em k. unfold obj_add. rewrite obj_get_set. cbn [obj_get].
    destruct (str_eqb (js "10") k) eqn:Ek; cbn [or0]; [|lia].
    apply str_eqb_eq in Ek. subst k. lia. }
  split; [|split].
  - intros Hm Ht. unfold _parseExpression. rewrite Hm.
    cbn [success orb rest consumed]. cbv zeta. rewrite N.eqb_refl.
    change (str_eqb (js "*") []) with false. cbv iota.
    unfold substring_from. cbn [skipn]. rewrite Ht. cbn [consumed].
    change (str_eqb (js "*") (js "/")) with false. cbv iota.
    eexists. split; [reflexivity|]. split; [reflexivity|].
    cbn [e_exponents]. intros k. apply Hadd.
  - intros Hm Ht. unfold _parseExpression. rewrite Hm.
    cbn [success orb rest consumed]. cbv zeta.
    change (N.eqb (ch "/") (ch "*")) with false. cbv iota. rewrite N.eqb_refl.
    change (str_eqb (js "/") []) with false. cbv iota.
    unfold substring_from. cbn [skipn]. rewrite Ht. cbn [consumed].
    rewrite str_eqb_refl.
    eexists. split; [reflexivity|]. split; [reflexivity|].
    cbn [e_exponents]. intros k. rewrite Hadd, obj_get_map, or0_opp. lia.
  - intros Hm Hs Hd Ht. unfold _parseExpression. rewrite Hm.
    cbn [success orb rest consumed]. cbv zeta.
    apply N.eqb_neq in Hs, Hd. rewrite Hs, Hd. rewrite str_eqb_refl.
    unfold substring_from. cbn [skipn]. rewrite Ht. cbn [consumed app].
    change (str_eqb [] (js "/")) with false. cbv iota.
    eexists. split; [reflexivity|]. split; [reflexivity|].
    cbn [e_exponents]. intros k. apply Hadd.
Qed.

(** ** The keys of the exponent vectors *)

Lemma obj_has_set (E : exps) (k k' : jsstring) (v : Z) :
  obj_has (obj_set E k v) k' = str_eqb k k' || obj_has E k'.
Proof.
  unfold obj_has. rewrite obj_get_set. now destruct (str_eqb k k').
Qed.

Lemma canonical_set (E : exps) (k : jsstring) (v : Z) :
  canonical_vector E -> In k canonical_keys ->
  canonical_vector (obj_set E k v).
Proof.
  intros HE Hk k' H. rewrite obj_has_set in H.
  apply orb_true_iff in H as [H|H]; [|now apply HE].
  apply str_eqb_eq in H. now subst.
Qed.

Lemma canonical_merge (op : Z -> Z -> Z) (B : exps) : forall A,
  canonical_vector A ->
  (forall kv, In kv B -> In (fst kv) canonical_keys) ->
  canonical_vector (obj_merge op A B).
Proof.
  unfold obj_merge. induction B as [|kv B IH]; intros A HA HB; [exact HA|].
  cbn [fold_left]. apply IH.
  - apply canonical_set; [exact HA | apply HB; now left].
  - intros kv' H. apply HB. now right.
Qed.

Lemma canonical_entries (E : exps) :
  canonical_vector E -> forall kv, In kv E -> In (fst kv) canonical_keys.
Proof.
  intros HE kv H. apply HE, obj_get_present, in_map, H.
Qed.

Lemma canonical_map (f : Z -> Z) (E : exps) :
  canonical_vector E -> canonical_vector (obj_map f E).
Proof.
  intros HE k H. apply HE. unfold obj_has in *. rewrite obj_get_map in H.
  now destruct (obj_get E k).
Qed.

Lemma canonical_ten (v : Z) : canonical_vector [(js "10", v)].
Proof.
  intros k H. unfold obj_has in H. cbn [obj_get] in H.
  destruct (str_eqb (js "10") k) eqn:E; [|discriminate].
  apply str_eqb_eq in E. subst k. now left.
Qed.

Lemma derived_canonical (u : jsstring) (d : derived_unit) :
  lookup_derived derivedUnits u = Some d ->
  forall kv, In kv (d_exponents d) -> In (fst kv) canonical_keys.
Proof.
  assert (H : forallb (fun ud =>
                forallb (fun kv => includes canonical_keys (fst kv))
                        (d_exponents (snd ud)))
              derivedUnits = true) by (vm_compute; reflexivity).
  rewrite forallb_forall in H. intros Hl.
  assert (Hin : exists u', In (u', d) derivedUnits).
  { revert Hl. generalize derivedUnits. intros l.
    induction l as [|[u0 d0] l IH]; [discriminate|]. cbn [lookup_derived].
    destruct (str_eqb u0 u).
    - intros E. injection E as ->. exists u0. now left.
    - intros E. destruct (IH E) as [u' Hu']. exists u'. now right. }
  destruct Hin as [u' Hu']. specialize (H _ Hu'). cbn [snd] in H.
  rewrite forallb_forall in H. intros kv Hkv. specialize (H kv Hkv).
  unfold includes in H. apply existsb_exists in H as (k & Hk & E).
  apply str_eqb_eq in E. now subst.
Qed.

Lemma plain_unit_canonical (u : jsstring) :
  In u units -> lookup_derived derivedUnits u = None -> In u canonical_keys.
Proof.
  assert (H : forallb (fun u =>
                match lookup_derived derivedUnits u with
                | Some _ => true
                | None => includes canonical_keys u
                end) units = true) by (vm_compute; reflexivity).
  rewrite forallb_forall in H. intros Hu Hl. specialize (H u Hu).
  rewrite Hl in H. unfold includes in H.
  apply existsb_exists in H as (k & Hk & E).
  apply str_eqb_eq in E. now subst.
Qed.

Lemma base_result_canonical (p u : jsstring) :
  In u units -> canonical_vector (exponents (base_result p u)).
Proof.
  intros Hu. unfold base_result.
  destruct (lookup_derived derivedUnits u) as [d|] eqn:El; cbn [exponents].
  - apply canonical_merge; [apply canonical_ten | exact (derived_canonical u d El)].
  - apply canonical_set; [apply canonical_ten | exact (plain_unit_canonical u Hu El)].
Qed.

Lemma parseFactor_canonical (s : jsstring) c r f :
  _parseFactor s = Success c r f -> canonical_vector (exponents f).
Proof.
  unfold _parseFactor.
  destruct (_parseBase s) as [bc br b|bc br] eqn:Eb; [|discriminate].
  apply parseBase_success_full in Eb as (p & u & Hc & _ & _ & -> & _).
  destruct Hc as (_ & Hu & _). cbn [snd] in Hu.
  pose proof (base_result_canonical p u Hu) as Hb.
  destruct (_parseChar br (ch "^")) as [cc cr x|cc cr].
  - destruct (_parseExponent cr) as [ec er ev|ec er]; [|discriminate].
    intros H. apply success_result in H. subst f. cbn [exponents].
    now apply canonical_map.
  - intros H. apply success_result in H. now subst f.
Qed.

Lemma parseTerm_canonical (s : jsstring) : forall c r t,
  _parseTerm s = Success c r t -> canonical_vector (exponents t).
Proof.
  induction s as [s IH] using (induction_ltof1 _ (@length N)).
  unfold ltof in IH. intros c r t. rewrite parseTerm_unfold.
  unfold parseTerm_body.
  destruct (_parseChar s (ch "(")) as [oc or u|oc or] eqn:E.
  - apply parseChar_inv in E as [-> ->].
    destruct (_parseTerm or) as [tc tr t0|tc tr] eqn:Et; [|discriminate].
    apply IH in Et; [|simpl; lia].
    destruct (_parseChar tr (ch ")")); [|discriminate].
    intros H. apply success_result in H. now subst t.
  - clear E. pose proof (parseFactor_wf s) as Hw.
    destruct (_parseFactor s) as [fc fr f|fc fr] eqn:Ef; [|discriminate].
    cbn [well_formed] in Hw.
    assert (Hl : (length fr <= length s)%nat).
    { rewrite <- Hw, length_app. lia. }
    apply parseFactor_canonical in Ef.
    assert (Hsub : forall char ac ar a,
              parseCharTerm_with _parseTerm fr char = Success ac ar a ->
              canonical_vector (exponents a)).
    { intros char ac ar a Ha.
      apply (parseCharTerm_inv fr char) in Ha as (s' & tc & -> & Ht & _).
      apply IH in Ht; [exact Ht | simpl in Hl; lia]. }
    destruct (parseCharTerm_with _parseTerm fr (ch "*")) as [ac ar a|ac ar] eqn:Ea.
    + intros H. apply success_result in H. subst t. cbn [exponents].
      apply canonical_merge; [exact Ef|].
      apply canonical_entries, (Hsub _ _ _ _ Ea).
    + destruct (parseCharTerm_with _parseTerm fr (ch "/")) as [sc sr t0|sc sr] eqn:Es;
        intros H; apply success_result in H; subst t; cbn [exponents];
        [|exact Ef].
      apply canonical_merge; [exact Ef|].
      apply canonical_entries, (Hsub _ _ _ _ Es).
Qed.

(** X14. Every key that the exponent vector of a parsed term or expression
    owns is one of the thirteen canonical keys: each key of the vector of an
    expression, other than 10, is among the keys that the units string
    renders, so the rendering drops no key of the vector. *)
Theorem keys_are_canonical (s : jsstring) :
  (forall c r t k, _parseTerm s = Success c r t ->
     obj_has (exponents t) k = true -> In k canonical_keys) /\
  (forall c r e k, _parseExpression s = Returns (Success c r e) ->
     obj_has (e_exponents e) k = true ->
     k = js "10" \/ In k (filter (obj_has (e_exponents e)) unit_keys)).
Proof.
  split.
  - intros c r t k H. exact (parseTerm_canonical s c r t H k).
  - intros c r e k H Hk.
    assert (Hc : canonical_vector (e_exponents e)).
    { revert H. unfold _parseExpression.
      destruct (success (_parseMagnitude s) || str_eqb (consumed (_parseMagnitude s)) []);
        [|discriminate].
      destruct (rest (_parseMagnitude s)) as [|c0 r0].
      - destruct (_parseMagnitude s) as [mc mr m|mc mr]; [|discriminate].
        intros H. injection H as _ _ <-. apply canonical_ten.
      - cbv zeta.
        destruct (_parseTerm _) as [tc tr t|tc tr] eqn:Et; [|discriminate].
        apply parseTerm_canonical in Et.
        intros H. injection H as _ _ <-. cbn [e_exponents].
        assert (H1 : canonical_vector
                  (if str_eqb
                        (if N.eqb c0 (ch "*") then js "*"
                         else if N.eqb c0 (ch "/") then js "/" else []) (js "/")
                   then obj_map Z.opp (exponents t) else exponents t)).
        { destruct (str_eqb _ (js "/")); [now apply canonical_map | exact Et]. }
        destruct (_parseMagnitude s); [|exact H1].
        apply canonical_set; [exact H1 | now left]. }
    specialize (Hc k Hk). change canonical_keys with (js "10" :: unit_keys) in Hc.
    destruct Hc as [<-|Hc]; [now left|]. right.
    apply filter_In. now split.
Qed.

Lemma keys_are_canonical_witness :
  In (js "A") canonical_keys.
Proof.
  apply (proj1 (keys_are_canonical (js "mV/s")) (js "mV/s") []
           {| exponents := [(js "10", 0); (js "g", 1); (js "m", 2);
                            (js "s", -4); (js "A", -1)];
              conversion := fun magnitude => magnitude |} (js "A"));
    vm_compute; reflexivity.
Defined.

(** ** The tables read back *)

Lemma table_pairs_In (p u : jsstring) :
  In p (obj_keys prefixes) -> In u units ->
  p = [] \/ includes prefixlessUnits u = false ->
  In (p, u) table_pairs.
Proof.
  intros Hp Hu Hx. unfold table_pairs. apply in_flat_map. exists p.
  split; [exact Hp|]. apply in_map_iff. exists u. split; [reflexivity|].
  apply filter_In. split; [exact Hu|].
  destruct Hx as [->|Hx]; [reflexivity|]. rewrite Hx. apply orb_true_r.
Qed.

(** No two pairs of the tables spell the same text. *)
Lemma table_pairs_unambiguous (x y : jsstring * jsstring) :
  In x table_pairs -> In y table_pairs ->
  fst x ++ snd x = fst y ++ snd y -> x = y.
Proof.
  assert (H : forallb (fun x =>
                forallb (fun y =>
                  implb (str_eqb (fst x ++ snd x) (fst y ++ snd y))
                        (str_eqb (fst x) (fst y) && str_eqb (snd x) (snd y)))
                  table_pairs) table_pairs = true)
    by (vm_compute; reflexivity).
  rewrite forallb_forall in H. intros Hx Hy E.
  specialize (H x Hx). rewrite forallb_forall in H. specialize (H y Hy).
  apply str_eqb_eq in E. rewrite E in H. cbn [implb] in H.
  apply andb_true_iff in H as [H1 H2]. apply str_eqb_eq in H1, H2.
  destruct x, y. cbn [fst snd] in *. now subst.
Qed.

Lemma units_not_10 (u : jsstring) : In u units -> str_eqb (js "10") u = false.
Proof.
  assert (H : forallb (fun u => negb (str_eqb (js "10") u)) units = true)
    by (vm_compute; reflexivity).
  rewrite forallb_forall in H. intros Hu. specialize (H u Hu).
  now apply negb_true_iff in H.
Qed.

Lemma base_result_sum (p u : jsstring) :
  In u units ->
  vector_sum (exponents (base_result p u))
             [(js "10", or0 (obj_get prefixes p))] (unit_vector u).
Proof.
  intros Hu k. unfold base_result, unit_vector.
  destruct (lookup_derived derivedUnits u) as [d|] eqn:El; cbn [exponents].
  - rewrite (obj_merge_get Z.add _ _ k (derived_NoDup u d El)).
    destruct (obj_get (d_exponents d) k); cbn [or0]; lia.
  - rewrite obj_get_set. cbn [obj_get].
    destruct (str_eqb u k) eqn:Ek; cbn [or0]; [|lia].
    apply str_eqb_eq in Ek. subst k. rewrite (units_not_10 u Hu). reflexivity.
Qed.

(** X15. Every unit of the tables, alone or behind any prefix it may take,
    is read whole as that prefix and that unit when it is the whole input:
    no other pair of the tables spells the same text.  The exponent of ten
    of the result is the power of the prefix plus the unit's own, and the
    other exponents are the unit's. *)
Theorem prefixed_unit_read_whole (p u : jsstring) :
  In p (obj_keys prefixes) -> In u units ->
  p = [] \/ includes prefixlessUnits u = false ->
  exists b,
    _parseBase (p ++ u) = Success (p ++ u) [] b /\
    vector_sum (exponents b)
               [(js "10", or0 (obj_get prefixes p))] (unit_vector u).
Proof.
  intros Hp Hu Hx.
  assert (Hc : candidate (p ++ u) (p, u)).
  { repeat split; try assumption. cbn [fst snd].
    apply starts_with_prefix. exists []. apply app_nil_r. }
  destruct (_parseBase (p ++ u)) as [c r b|c r] eqn:E.
  - apply parseBase_success_full in E as (p' & u' & Hc' & -> & Hr & -> & Hmax).
    specialize (Hmax _ Hc). unfold total_length in Hmax. cbn [fst snd] in Hmax.
    assert (Hlen : length ((p' ++ u') ++ r) = length (p ++ u)) by now rewrite Hr.
    rewrite !length_app in Hlen.
    assert (Hnil : r = []) by (destruct r; [reflexivity | simpl in Hlen; lia]).
    subst r. rewrite app_nil_r in Hr.
    assert (Heq : (p', u') = (p, u)).
    { apply table_pairs_unambiguous; [| |exact Hr].
      - destruct Hc' as (H1 & H2 & H3 & _). now apply table_pairs_In.
      - now apply table_pairs_In. }
    injection Heq as -> ->. exists (base_result p u).
    split; [reflexivity | now apply base_result_sum].
  - apply parseBase_fail_inv in E as (_ & _ & Hn). destruct (Hn _ Hc).
Qed.

Lemma prefixed_unit_read_whole_witness :
  exists b,
    _parseBase (js "m" ++ js "mol") = Success (js "m" ++ js "mol") [] b /\
    vector_sum (exponents b)
               [(js "10", or0 (obj_get prefixes (js "m")))]
               (unit_vector (js "mol")).
Proof.
  apply (prefixed_unit_read_whole (js "m") (js "mol")).
  - vm_compute. tauto.
  - vm_compute. tauto.
  - right. vm_compute. reflexivity.
Defined.

(** ** Powers and signs *)

(** A base followed by [^] and an integer has every exponent of the base
    multiplied by that integer and keeps the conversion of the base; a base
    followed by [^] without an integer fails the factor, the caret counted
    in what was consumed. *)
Lemma parseFactor_power (s bc cr : jsstring) (b : unit_result) :
  _parseBase s = Success bc (ch "^" :: cr) b ->
  (forall ec er n, _parseExponent cr = Success ec er n ->
     exists f,
       _parseFactor s = Success (bc ++ js "^" ++ ec) er f /\
       conversion f = conversion b /\
       forall k, or0 (obj_get (exponents f) k) = or0 (obj_get (exponents b) k) * n) /\
  (forall ec er, _parseExponent cr = Failure ec er ->
     _parseFactor s = Failure (bc ++ js "^" ++ ec) s).
Proof.
  intros Hb. split.
  - intros ec er n He. unfold _parseFactor. rewrite Hb, parseChar_head_eq, He.
    eexists. split; [reflexivity|]. split; [reflexivity|].
    intros k. cbn [exponents]. rewrite obj_get_map.
    now destruct (obj_get (exponents b) k).
  - intros ec er He. unfold _parseFactor.
    rewrite Hb, parseChar_head_eq, He. reflexivity.
Qed.

Lemma num_neg_involutive (x : jsnum) : num_neg (num_neg x) = x.
Proof. destruct x as [|m k]; [reflexivity|]. cbn [num_neg]. f_equal. lia. Qed.

(** X17. Signs may be stacked before an integer or a decimal: a [+] leaves
    the value that follows unchanged, a [-] negates it, and so two [-]
    cancel; each sign is added to what was consumed. *)
Theorem signs_stack (s c r : jsstring) :
  (forall v, _parseInteger s = Success c r v ->
     _parseInteger (ch "+" :: s) = Success (ch "+" :: c) r v /\
     _parseInteger (ch "-" :: s) = Success (ch "-" :: c) r (- v) /\
     _parseInteger (ch "-" :: ch "-" :: s)
     = Success (ch "-" :: ch "-" :: c) r v) /\
  (forall x, _parseDecimal s = Success c r x ->
     _parseDecimal (ch "+" :: s) = Success (ch "+" :: c) r x /\
     _parseDecimal (ch "-" :: s) = Success (ch "-" :: c) r (num_neg x) /\
     _parseDecimal (ch "-" :: ch "-" :: s)
     = Success (ch "-" :: ch "-" :: c) r x).
Proof.
  split.
  - intros v H.
    assert (Hp : _parseInteger (ch "+" :: s) = Success (ch "+" :: c) r v).
    { rewrite parseInteger_unfold. unfold parseInteger_body.
      now rewrite parseChar_head_eq, H. }
    assert (Hm : forall s' c' v', _parseInteger s' = Success c' r v' ->
              _parseInteger (ch "-" :: s') = Success (ch "-" :: c') r (- v')).
    { intros s' c' v' H'. rewrite parseInteger_unfold. unfold parseInteger_body.
      rewrite parseChar_head_ne by reflexivity.
      now rewrite parseChar_head_eq, H'. }
    split; [exact Hp|]. split; [exact (Hm _ _ _ H)|].
    rewrite (Hm _ _ _ (Hm _ _ _ H)). f_equal. lia.
  - intros x H.
    assert (Hp : _parseDecimal (ch "+" :: s) = Success (ch "+" :: c) r x).
    { rewrite parseDecimal_unfold. unfold parseDecimal_body.
      now rewrite parseChar_head_eq, H. }
    assert (Hm : forall s' c' x', _parseDecimal s' = Success c' r x' ->
              _parseDecimal (ch "-" :: s') = Success (ch "-" :: c') r (num_neg x')).
    { intros s' c' x' H'. rewrite parseDecimal_unfold. unfold parseDecimal_body.
      rewrite parseChar_head_ne by reflexivity.
      now rewrite parseChar_head_eq, H'. }
    split; [exact Hp|]. split; [exact (Hm _ _ _ H)|].
    rewrite (Hm _ _ _ (Hm _ _ _ H)). f_equal. apply num_neg_involutive.
Qed.

Lemma signs_stack_witness :
  _parseInteger (js "--7m") = Success (js "--7") (js "m") 7 /\
  _parseDecimal (js "-2.5m") = Success (js "-2.5") (js "m") (Dec (-25) 1).
Proof.
  split.
  - apply (proj1 (signs_stack (js "7m") (js "7") (js "m")) 7).
    vm_compute. reflexivity.
  - apply (proj2 (signs_stack (js "2.5m") (js "2.5") (js "m")) (Dec 25 1)).
    vm_compute. reflexivity.
Defined.

(* ================================================================= *)
(** * The range in which integers are exact *)

(** ** Runs of digits *)

Lemma longest_digit_run_ge (s : jsstring) : forall cur,
  (cur <= longest_digit_run s cur)%nat.
Proof.
  induction s as [|c s IH]; intros cur; cbn [longest_digit_run]; [lia|].
  destruct (is_digit c).
  - specialize (IH (S cur)). lia.
  - lia.
Qed.

Lemma longest_digit_run_mono (s : jsstring) : forall a b,
  (a <= b)%nat -> (longest_digit_run s a <= longest_digit_run s b)%nat.
Proof.
  induction s as [|c s IH]; intros a b Hab; cbn [longest_digit_run]; [lia|].
  destruct (is_digit c).
  - apply IH. lia.
  - lia.
Qed.

(** A suffix has no longer run of digits than the whole text. *)
Lemma longest_digit_run_suffix (a b : jsstring) : forall cur,
  (longest_digit_run b 0 <= longest_digit_run (a ++ b) cur)%nat.
Proof.
  induction a as [|c a IH]; intros cur; cbn [app longest_digit_run].
  - apply longest_digit_run_mono. lia.
  - destruct (is_digit c).
    + apply IH.
    + specialize (IH O). lia.
Qed.

Lemma digit_run_longest (s : jsstring) : forall cur,
  (length (digit_run s) + cur <= longest_digit_run s cur)%nat.
Proof.
  induction s as [|c s IH]; intros cur; cbn [digit_run longest_digit_run].
  - cbn [length]. lia.
  - destruct (is_digit c).
    + cbn [length]. specialize (IH (S cur)). lia.
    + cbn [length]. lia.
Qed.

Lemma exact_input_suffix (a b : jsstring) :
  exact_input (a ++ b) = true -> exact_input b = true.
Proof.
  unfold exact_input. rewrite !andb_true_iff, !Z.leb_le, !Nat.leb_le.
  rewrite length_app. pose proof (longest_digit_run_suffix a b 0). lia.
Qed.

(** ** The numbers that are read *)

Lemma digits_from_bound (l : jsstring) : forall acc,
  0 <= acc -> all_digits l ->
  digits_from acc l < (acc + 1) * 10 ^ Z.of_nat (length l).
Proof.
  induction l as [|c l IH]; intros acc Ha Hl.
  - cbn. lia.
  - inversion Hl as [|? ? Hc Hl']; subst. unfold digits_from in *.
    cbn [fold_left length]. unfold is_digit in Hc.
    apply andb_true_iff in Hc as [Hc1 Hc2].
    apply N.leb_le in Hc1, Hc2.
    assert (Hacc : 0 <= 10 * acc + (Z.of_N c - 48)) by lia.
    specialize (IH _ Hacc Hl').
    rewrite Nat2Z.inj_succ, Z.pow_succ_r by lia.
    assert (Hp : 0 < 10 ^ Z.of_nat (length l)) by (apply Z.pow_pos_nonneg; lia).
    nia.
Qed.

Lemma parseDigits_bound (s : jsstring) c r v :
  (longest_digit_run s 0 <= 9)%nat ->
  _parseDigits s = Success c r v -> 0 <= v < 10 ^ 9.
Proof.
  intros Hd H. apply parseDigits_success in H as (Hc & _ & _ & _ & Hv).
  assert (Ha : all_digits c) by (rewrite Hc; apply digit_run_digits).
  assert (Hl : (length c <= 9)%nat).
  { rewrite Hc. pose proof (digit_run_longest s 0). lia. }
  pose proof (digits_from_nonneg c 0 (Z.le_refl 0) Ha) as H0.
  pose proof (digits_from_bound c 0 (Z.le_refl 0) Ha) as H1.
  unfold digits_value in Hv. unfold digits_from in H0, H1. rewrite <- Hv in H0, H1.
  split; [exact H0|].
  assert (Hp : 10 ^ Z.of_nat (length c) <= 10 ^ 9)
    by (apply Z.pow_le_mono_r; lia).
  lia.
Qed.

Lemma parseInteger_bound (s : jsstring) : forall c r v,
  (longest_digit_run s 0 <= 9)%nat ->
  _parseInteger s = Success c r v -> Z.abs v < 10 ^ 9.
Proof.
  induction s as [|a s IH]; intros c r v Hd;
    rewrite parseInteger_unfold; unfold parseInteger_body.
  - cbn. discriminate.
  - assert (Hs : (longest_digit_run s 0 <= 9)%nat).
    { pose proof (longest_digit_run_suffix [a] s 0). cbn [app] in *. lia. }
    unfold _parseChar, substring_from. cbn [skipn].
    destruct (N.eqb (ch "+") a).
    + destruct (_parseInteger s) as [c' r' v'|c' r'] eqn:E; [|discriminate].
      intros H. apply success_result in H. subst v.
      exact (IH _ _ _ Hs eq_refl).
    + destruct (N.eqb (ch "-") a).
      * destruct (_parseInteger s) as [c' r' v'|c' r'] eqn:E; [|discriminate].
        intros H. apply success_result in H. subst v.
        rewrite Z.abs_opp. exact (IH _ _ _ Hs eq_refl).
      * destruct (_parseDigits (a :: s)) as [c' r' v'|c' r'] eqn:E;
          [|discriminate].
        intros H. apply success_result in H. subst v.
        apply (parseDigits_bound _ _ _ _ Hd) in E. lia.
Qed.

Lemma parseMagnitude_bound (s : jsstring) c r m :
  (longest_digit_run s 0 <= 9)%nat ->
  _parseMagnitude s = Success c r m -> Z.abs (exponent m) < 10 ^ 9.
Proof.
  intros Hd. unfold _parseMagnitude, _parseSignificand.
  pose proof (parseDecimal_wf s) as Hw.
  destruct (_parseDecimal s) as [sc sr sv|sc sr]; [|discriminate].
  cbn [well_formed] in Hw.
  set (operator := if starts_with (js "*10^") sr then _ else _).
  assert (Hop : forall op, operator = Some op -> exists t, op ++ t = sr).
  { intros op. unfold operator.
    destruct (starts_with (js "*10^") sr) eqn:Es.
    - intros H. injection H as <-. now apply starts_with_prefix.
    - destruct sr as [|x sr']; [discriminate|].
      destruct (N.eqb x (ch "E") || N.eqb x (ch "e")); [|discriminate].
      intros H. injection H as <-. now exists sr'. }
  destruct operator as [op|].
  2:{ intros H. apply success_result in H. subst m. cbn [exponent]. lia. }
  destruct (Hop op eq_refl) as [t Ht]. unfold _parseExponent.
  assert (Hs : substring_from (length op) sr = t).
  { unfold substring_from. rewrite <- Ht, skipn_app, skipn_all, Nat.sub_diag.
    reflexivity. }
  rewrite Hs.
  assert (Hdt : (longest_digit_run t 0 <= 9)%nat).
  { pose proof (longest_digit_run_suffix (sc ++ op) t 0) as Hx.
    rewrite <- app_assoc, Ht, Hw in Hx. lia. }
  destruct (_parseInteger t) as [ec er ev|ec er] eqn:E; [|discriminate].
  intros H. apply success_result in H. subst m. cbn [exponent].
  exact (parseInteger_bound _ _ _ _ Hdt E).
Qed.

(** ** The exponents that are computed *)

Lemma entries_bounded (B : Z) (E : exps) :
  0 <= B -> forallb (fun kv => Z.abs (snd kv) <=? B) E = true ->
  bounded_vector B E.
Proof.
  intros HB H k. rewrite forallb_forall in H.
  destruct (obj_get E k) as [v|] eqn:Ek; cbn [or0]; [|lia].
  apply obj_get_In in Ek. specialize (H _ Ek). cbn [snd] in H.
  now apply Z.leb_le.
Qed.

(** A prefix is at most 24 and the power of ten of a unit at most 8. *)
Lemma parseBase_bound (s : jsstring) c r b :
  _parseBase s = Success c r b -> bounded_vector 32 (exponents b).
Proof.
  intros H. apply parseBase_success_full in H as (p & u & Hc & _ & _ & -> & _).
  destruct Hc as (Hp & Hu & Hx & _). cbn [fst snd] in Hp, Hu, Hx.
  pose proof (table_pairs_In p u Hp Hu Hx) as Hin.
  assert (T : forallb
                (fun pu => forallb (fun kv => Z.abs (snd kv) <=? 32)
                                   (exponents (base_result (fst pu) (snd pu))))
                table_pairs = true) by (vm_compute; reflexivity).
  rewrite forallb_forall in T. specialize (T _ Hin). cbn [fst snd] in T.
  apply entries_bounded; [lia | exact T].
Qed.

Lemma parseFactor_bound (s : jsstring) c r f :
  (longest_digit_run s 0 <= 9)%nat ->
  _parseFactor s = Success c r f ->
  bounded_vector 32000000000 (exponents f).
Proof.
  intros Hd. unfold _parseFactor. pose proof (parseBase_wf s) as Hw.
  destruct (_parseBase s) as [bc br b|bc br] eqn:Eb; [|discriminate].
  cbn [well_formed] in Hw.
  pose proof (parseBase_bound _ _ _ _ Eb) as Hb.
  destruct (_parseChar br (ch "^")) as [cc cr u|cc cr] eqn:E.
  - apply parseChar_inv in E as [-> ->]. unfold _parseExponent.
    assert (Hdc : (longest_digit_run cr 0 <= 9)%nat).
    { pose proof (longest_digit_run_suffix (bc ++ [ch "^"]) cr 0) as Hx.
      rewrite <- app_assoc in Hx. cbn [app] in Hx. rewrite Hw in Hx. lia. }
    destruct (_parseInteger cr) as [ec er ev|ec er] eqn:Ei; [|discriminate].
    apply (parseInteger_bound _ _ _ _ Hdc) in Ei.
    intros H. apply success_result in H. subst f. cbn [exponents].
    intros k. rewrite obj_get_map. specialize (Hb k).
    destruct (obj_get (exponents b) k) as [z|]; cbn [option_map or0] in *;
      [|lia].
    rewrite Z.abs_mul.
    pose proof (Z.abs_nonneg z). pose proof (Z.abs_nonneg ev). nia.
  - intros H. apply success_result in H. subst f.
    intros k. specialize (Hb k). lia.
Qed.

Lemma success_consumed {T} c r (v : T) c' r' v' :
  Success c r v = Success c' r' v' -> c = c'.
Proof. congruence. Qed.

(** Each character of a term adds at most the exponent of one factor. *)
Lemma parseTerm_bound (s : jsstring) : forall c r t,
  (longest_digit_run s 0 <= 9)%nat ->
  _parseTerm s = Success c r t ->
  bounded_vector (32000000000 * Z.of_nat (length c)) (exponents t).
Proof.
  induction s as [s IH] using (induction_ltof1 _ (@length N)).
  unfold ltof in IH. intros c r t Hd. rewrite parseTerm_unfold.
  unfold parseTerm_body.
  destruct (_parseChar s (ch "(")) as [oc or u|oc or] eqn:E.
  - apply parseChar_inv in E as [-> ->].
    assert (Hdo : (longest_digit_run or 0 <= 9)%nat).
    { pose proof (longest_digit_run_suffix [ch "("] or 0) as Hx.
      cbn [app] in Hx. lia. }
    destruct (_parseTerm or) as [tc tr t0|tc tr] eqn:Et; [|discriminate].
    apply IH in Et; [|cbn [length]; lia|exact Hdo].
    destruct (_parseChar tr (ch ")")) as [cc cr u'|cc cr]; [|discriminate].
    intros H. pose proof (success_result _ _ _ _ _ _ H) as Ht.
    apply success_consumed in H. subst t c.
    intros k. specialize (Et k). rewrite !length_app. cbn [length consumed].
    lia.
  - clear E. pose proof (parseFactor_wf s) as Hw.
    destruct (_parseFactor s) as [fc fr f|fc fr] eqn:Ef; [|discriminate].
    cbn [well_formed] in Hw.
    assert (Hl : (length fr <= length s)%nat).
    { rewrite <- Hw, length_app. lia. }
    assert (Hfc : (1 <= length fc)%nat).
    { apply parseFactor_progress in Ef. destruct fc; [contradiction|].
      cbn [length]. lia. }
    apply (parseFactor_bound _ _ _ _ Hd) in Ef.
    assert (Hsub : forall char ac ar a,
              parseCharTerm_with _parseTerm fr char = Success ac ar a ->
              NoDup (obj_keys (exponents a)) /\
              bounded_vector (32000000000 * Z.of_nat (length ac)) (exponents a)).
    { intros char ac ar a Ha.
      apply (parseCharTerm_inv fr char) in Ha as (s' & tc & -> & Ht & ->).
      split; [exact (parseTerm_NoDup _ _ _ _ Ht)|].
      assert (Hds : (longest_digit_run s' 0 <= 9)%nat).
      { pose proof (longest_digit_run_suffix (fc ++ [char]) s' 0) as Hx.
        rewrite <- app_assoc in Hx. cbn [app] in Hx. rewrite Hw in Hx. lia. }
      apply IH in Ht; [|cbn [length] in Hl; lia|exact Hds].
      intros k. specialize (Ht k). cbn [length]. lia. }
    assert (Hmerge : forall op ac ar a,
              (forall x y, Z.abs (op x y) <= Z.abs x + Z.abs y) ->
              parseCharTerm_with _parseTerm fr (ch "*") = Success ac ar a \/
              parseCharTerm_with _parseTerm fr (ch "/") = Success ac ar a ->
              bounded_vector (32000000000 * Z.of_nat (length (fc ++ ac)))
                (obj_merge op (exponents f) (exponents a))).
    { intros op ac ar a Hop Ha.
      assert (Hs : NoDup (obj_keys (exponents a)) /\
                   bounded_vector (32000000000 * Z.of_nat (length ac))
                     (exponents a))
        by (destruct Ha as [Ha|Ha]; exact (Hsub _ _ _ _ Ha)).
      destruct Hs as [Hn Hb]. intros k.
      rewrite (obj_merge_get op _ _ k Hn). specialize (Hb k).
      specialize (Ef k). rewrite length_app.
      destruct (obj_get (exponents a) k) as [z|]; cbn [or0] in *.
      - specialize (Hop (or0 (obj_get (exponents f) k)) z). lia.
      - lia. }
    destruct (parseCharTerm_with _parseTerm fr (ch "*")) as [ac ar a|ac ar] eqn:Ea.
    + intros H. pose proof (success_result _ _ _ _ _ _ H) as Ht.
      apply success_consumed in H. subst t c. cbn [exponents].
      apply (Hmerge Z.add ac ar a); [intros; lia | now left].
    + destruct (parseCharTerm_with _parseTerm fr (ch "/")) as [sc sr t0|sc sr] eqn:Es.
      * intros H. pose proof (success_result _ _ _ _ _ _ H) as Ht.
        apply success_consumed in H. subst t c. cbn [exponents].
        apply (Hmerge Z.sub sc sr t0); [intros; lia | now right].
      * intros H. pose proof (success_result _ _ _ _ _ _ H) as Ht.
        apply success_consumed in H. subst t c.
        intros k. specialize (Ef k). lia.
Qed.

Lemma bounded_vector_opp (B : Z) (E : exps) :
  bounded_vector B E -> bounded_vector B (obj_map Z.opp E).
Proof.
  intros H k. rewrite obj_get_map. specialize (H k).
  destruct (obj_get E k); cbn [option_map or0] in *; lia.
Qed.

Lemma parseExpression_bound (s : jsstring) c r e :
  (longest_digit_run s 0 <= 9)%nat ->
  _parseExpression s = Returns (Success c r e) ->
  NoDup (obj_keys (e_exponents e)) /\
  bounded_vector (32000000000 * Z.of_nat (length s) + 1000000000)
    (e_exponents e).
Proof.
  intros Hd. unfold _parseExpression. pose proof (parseMagnitude_wf s) as Hm.
  pose proof (fun mc mr m => parseMagnitude_bound s mc mr m Hd) as Hmb.
  destruct (success (_parseMagnitude s) || str_eqb (consumed (_parseMagnitude s)) [])
    eqn:Eg; [|discriminate].
  assert (Hr : consumed (_parseMagnitude s) ++ rest (_parseMagnitude s) = s).
  { destruct (_parseMagnitude s) as [mc mr m|mc mr]; simpl in *; [exact Hm|].
    apply str_eqb_eq in Eg. subst. tauto. }
  destruct (rest (_parseMagnitude s)) as [|x t0] eqn:Er.
  - destruct (_parseMagnitude s) as [mc mr m|mc mr] eqn:Em; [|discriminate].
    intros H. injection H as _ _ <-. cbn [e_exponents].
    specialize (Hmb _ _ _ eq_refl). split.
    + repeat constructor. intros [].
    + intros k. cbn [obj_get]. destruct (str_eqb (js "10") k); cbn [or0]; lia.
  - set (operator := if N.eqb x (ch "*") then _ else _).
    assert (Hop : operator ++
              substring_from (if str_eqb operator [] then 0 else 1) (x :: t0)
            = x :: t0).
    { unfold operator. destruct (N.eqb_spec x (ch "*")) as [->|_]; [reflexivity|].
      destruct (N.eqb_spec x (ch "/")) as [->|_]; reflexivity. }
    set (rest' := substring_from _ (x :: t0)) in *.
    assert (Hs : (consumed (_parseMagnitude s) ++ operator) ++ rest' = s).
    { rewrite <- app_assoc, Hop. exact Hr. }
    assert (Hdr : (longest_digit_run rest' 0 <= 9)%nat).
    { pose proof (longest_digit_run_suffix
                    (consumed (_parseMagnitude s) ++ operator) rest' 0) as Hx.
      rewrite Hs in Hx. lia. }
    pose proof (parseTerm_wf rest') as Hw.
    destruct (_parseTerm rest') as [tc tr t|tc tr] eqn:Et; [|discriminate].
    cbn [well_formed] in Hw.
    pose proof (parseTerm_NoDup _ _ _ _ Et) as Hn.
    pose proof (parseTerm_bound _ _ _ _ Hdr Et) as Hb.
    assert (Hlen : (length tc <= length s)%nat).
    { rewrite <- Hs, <- Hw, !length_app. lia. }
    intros H. injection H as _ _ <-. cbn [e_exponents].
    set (exponents1 := if str_eqb operator (js "/") then _ else _).
    assert (H1 : NoDup (obj_keys exponents1) /\
                 bounded_vector (32000000000 * Z.of_nat (length tc)) exponents1).
    { unfold exponents1. destruct (str_eqb operator (js "/")).
      - rewrite obj_map_keys. split; [exact Hn|].
        now apply bounded_vector_opp.
      - now split. }
    destruct H1 as [Hn1 Hb1].
    destruct (_parseMagnitude s) as [mc mr m|mc mr] eqn:Em.
    + specialize (Hmb _ _ _ eq_refl). split.
      * unfold obj_add. now apply obj_set_NoDup.
      * intros k. unfold obj_add. rewrite obj_get_set.
        pose proof (Hb1 k) as Hk. pose proof (Hb1 (js "10")) as H10.
        destruct (str_eqb (js "10") k); cbn [or0]; lia.
    + split; [exact Hn1|]. intros k. specialize (Hb1 k). lia.
Qed.



Lemma exact_input_bound (s : jsstring) :
  exact_input s = true ->
  (longest_digit_run s 0 <= 9)%nat /\
  32000000000 * Z.of_nat (length s) + 1000000000 <= 9007199254740991.
Proof.
  unfold exact_input. rewrite andb_true_iff, Z.leb_le, Nat.leb_le. lia.
Qed.


(** ** Exact inputs *)

Lemma bounded_safe (B : Z) (E : exps) :
  B <= 9007199254740991 -> bounded_vector B E -> safe_vector E.
Proof.
  intros HB H k. unfold safe_integer. apply Z.leb_le. specialize (H k). lia.
Qed.

Lemma parseInteger_safe (s : jsstring) c r v :
  exact_input s = true -> _parseInteger s = Success c r v ->
  safe_integer v = true.
Proof.
  intros Hex H. apply exact_input_bound in Hex as [Hd _].
  apply (parseInteger_bound _ _ _ _ Hd) in H.
  unfold safe_integer. apply Z.leb_le.
  change (10 ^ 9) with 1000000000 in H. lia.
Qed.

Lemma parseMagnitude_safe (s : jsstring) c r m :
  exact_input s = true -> _parseMagnitude s = Success c r m ->
  safe_integer (exponent m) = true.
Proof.
  intros Hex H. apply exact_input_bound in Hex as [Hd _].
  apply (parseMagnitude_bound _ _ _ _ Hd) in H.
  unfold safe_integer. apply Z.leb_le.
  change (10 ^ 9) with 1000000000 in H. lia.
Qed.

Lemma parseBase_safe (s : jsstring) c r b :
  _parseBase s = Success c r b -> safe_vector (exponents b).
Proof.
  intros H. apply (bounded_safe 32); [lia|].
  exact (parseBase_bound _ _ _ _ H).
Qed.

Lemma parseFactor_safe (s : jsstring) c r f :
  exact_input s = true -> _parseFactor s = Success c r f ->
  safe_vector (exponents f).
Proof.
  intros Hex H. apply exact_input_bound in Hex as [Hd _].
  apply (bounded_safe 32000000000); [lia|].
  exact (parseFactor_bound _ _ _ _ Hd H).
Qed.

Lemma parseTerm_safe (s : jsstring) c r t :
  exact_input s = true -> _parseTerm s = Success c r t ->
  safe_vector (exponents t).
Proof.
  intros Hex H. apply exact_input_bound in Hex as [Hd Hlen].
  pose proof (parseTerm_wf s) as Hw. rewrite H in Hw. cbn [well_formed] in Hw.
  assert (Hl : (length c <= length s)%nat).
  { rewrite <- Hw, length_app. lia. }
  apply (bounded_safe (32000000000 * Z.of_nat (length c))); [lia|].
  exact (parseTerm_bound _ _ _ _ Hd H).
Qed.

Lemma parseExpression_safe (s : jsstring) c r e :
  exact_input s = true -> _parseExpression s = Returns (Success c r e) ->
  safe_vector (e_exponents e).
Proof.
  intros Hex H. apply exact_input_bound in Hex as [Hd Hlen].
  apply (bounded_safe _ _ Hlen).
  exact (proj2 (parseExpression_bound _ _ _ _ Hd H)).
Qed.

(** X18. On an input of at most 100000 characters in which no number has
    more than nine digits, every integer that the grammar reads or computes
    is one that a binary64 number holds exactly: the exponents that are read
    are below 10^9, those of a factor are at most 32 * 10^9, those of a term
    at most 32 * 10^9 for each character consumed, all below 2^53.  The
    rest of such an input is such an input, so this holds of every call the
    rules make on it. *)
Theorem exact_input_is_safe (s : jsstring) :
  exact_input s = true ->
  (forall a b, s = a ++ b -> exact_input b = true) /\
  (forall c r v, _parseInteger s = Success c r v -> Z.abs v < 10 ^ 9) /\
  (forall c r m, _parseMagnitude s = Success c r m ->
     Z.abs (exponent m) < 10 ^ 9) /\
  (forall c r f, _parseFactor s = Success c r f ->
     bounded_vector 32000000000 (exponents f)) /\
  (forall c r t, _parseTerm s = Success c r t ->
     bounded_vector (32000000000 * Z.of_nat (length c)) (exponents t) /\
     safe_vector (exponents t)) /\
  (forall c r e, _parseExpression s = Returns (Success c r e) ->
     safe_vector (e_exponents e)).
Proof.
  intros Hex. pose proof (exact_input_bound s Hex) as [Hd _].
  split; [intros a b ->; exact (exact_input_suffix a b Hex)|].
  split; [intros c r v; exact (parseInteger_bound s c r v Hd)|].
  split; [intros c r m; exact (parseMagnitude_bound s c r m Hd)|].
  split; [intros c r f; exact (parseFactor_bound s c r f Hd)|].
  split.
  - intros c r t H. split; [exact (parseTerm_bound s c r t Hd H)|].
    exact (parseTerm_safe s c r t Hex H).
  - intros c r e. exact (parseExpression_safe s c r e Hex).
Qed.

Lemma exact_input_is_safe_witness :
  bounded_vector (32000000000 * 5) [(js "10", -6); (js "m", -2)] /\
  safe_vector [(js "10", -6); (js "m", -2)].
Proof.
  destruct (exact_input_is_safe (js "km^-2") eq_refl)
    as (_ & _ & _ & _ & H & _).
  apply (H (js "km^-2") []
           {| exponents := [(js "10", -6); (js "m", -2)];
              conversion := fun magnitude => magnitude |}).
  vm_compute. reflexivity.
Defined.

(** ** The algebra of exponents on exact inputs *)

(** X12. On an input whose integers the code holds exactly
    ([exact_input]), multiplying a factor by a term adds their exponents
    key by key, and dividing it by a term subtracts them, the exponents of
    ten included; a key that one side lacks counts for 0.  The exponents
    that are combined and the results are integers below 2^53. *)
Theorem term_exponent_algebra (s fc fr : jsstring) (f : unit_result) :
  exact_input s = true ->
  _parseFactor s = Success fc fr f ->
  safe_vector (exponents f) /\
  (forall ac ar a, _parseAsterixTerm fr = Success ac ar a ->
     exists t, _parseTerm s = Success (fc ++ ac) ar t /\
               vector_sum (exponents t) (exponents f) (exponents a) /\
               safe_vector (exponents a) /\ safe_vector (exponents t)) /\
  (success (_parseAsterixTerm fr) = false ->
   forall sc sr d, _parseSlashTerm fr = Success sc sr d ->
     exists t, _parseTerm s = Success (fc ++ sc) sr t /\
               vector_difference (exponents t) (exponents f) (exponents d) /\
               safe_vector (exponents d) /\ safe_vector (exponents t)).
Proof.
  intros Hex Hf. destruct (parseTerm_sum s fc fr f Hf) as [Hm Hd].
  pose proof (parseFactor_wf s) as Hw. rewrite Hf in Hw.
  cbn [well_formed] in Hw.
  assert (Hsub : forall char ac ar a,
            _parseCharTerm fr char = Success ac ar a ->
            safe_vector (exponents a)).
  { intros char ac ar a Ha.
    apply parseCharTerm_inv in Ha as (s' & tc & -> & Ht & _).
    refine (parseTerm_safe s' _ _ _ _ Ht).
    apply (exact_input_suffix (fc ++ [char])).
    rewrite <- app_assoc. cbn [app]. now rewrite Hw. }
  split; [exact (parseFactor_safe _ _ _ _ Hex Hf)|]. split.
  - intros ac ar a Ha. destruct (Hm _ _ _ Ha) as (t & Ht & Hv). exists t.
    split; [exact Ht|]. split; [exact Hv|].
    split; [exact (Hsub (ch "*") _ _ _ Ha)|].
    exact (parseTerm_safe _ _ _ _ Hex Ht).
  - intros Hn sc sr d Hs. destruct (Hd Hn _ _ _ Hs) as (t & Ht & Hv).
    exists t. split; [exact Ht|]. split; [exact Hv|].
    split; [exact (Hsub (ch "/") _ _ _ Hs)|].
    exact (parseTerm_safe _ _ _ _ Hex Ht).
Qed.

Lemma term_exponent_algebra_witness :
  exists t, _parseTerm (js "kN*km") = Success (js "kN" ++ js "*km") [] t /\
            vector_sum (exponents t)
              [(js "10", 6); (js "g", 1); (js "m", 1); (js "s", -2)]
              [(js "10", 3); (js "m", 1)] /\
            safe_vector [(js "10", 3); (js "m", 1)] /\
            safe_vector (exponents t).
Proof.
  refine (proj1 (proj2 (term_exponent_algebra (js "kN*km") (js "kN") (js "*km")
            {| exponents := [(js "10", 6); (js "g", 1); (js "m", 1); (js "s", -2)];
               conversion := fun magnitude => magnitude |} _ _))
            (js "*km") []
            {| exponents := [(js "10", 3); (js "m", 1)];
               conversion := fun magnitude => magnitude |} _);
    vm_compute; reflexivity.
Defined.

Lemma expression_operands_safe (s mc tr' : jsstring) (m : magnitude_result)
    (a tc r : jsstring) (t : unit_result) :
  exact_input s = true ->
  _parseMagnitude s = Success mc (a ++ tr') m ->
  _parseTerm tr' = Success tc r t ->
  safe_integer (exponent m) = true /\ safe_vector (exponents t).
Proof.
  intros Hex Hm Ht. split; [exact (parseMagnitude_safe _ _ _ _ Hex Hm)|].
  pose proof (parseMagnitude_wf s) as Hw. rewrite Hm in Hw.
  cbn [well_formed] in Hw.
  refine (parseTerm_safe tr' _ _ _ _ Ht).
  apply (exact_input_suffix (mc ++ a)). rewrite <- app_assoc. now rewrite Hw.
Qed.

(** X13. On an input whose integers the code holds exactly
    ([exact_input]), a magnitude multiplied by a term, with [*] or by
    juxtaposition, adds its power of ten to the exponent of ten of the term;
    a magnitude divided by a term first negates every exponent of the term,
    its exponent of ten included.  In both cases the numeric magnitude is
    the conversion of the term applied to the significand, and the
    exponents that are combined and the results are integers below 2^53. *)
Theorem expression_exponent_algebra (s mc tr : jsstring) (x : jschar)
    (m : magnitude_result) (tc r : jsstring) (t : unit_result) :
  exact_input s = true ->
  (_parseMagnitude s = Success mc (ch "*" :: tr) m ->
   _parseTerm tr = Success tc r t ->
   exists e,
     _parseExpression s = Returns (Success (mc ++ js "*" ++ tc) r e) /\
     magnitude e = conversion t (significand m) /\
     vector_sum (e_exponents e) [(js "10", exponent m)] (exponents t) /\
     safe_integer (exponent m) = true /\ safe_vector (exponents t) /\
     safe_vector (e_exponents e)) /\
  (_parseMagnitude s = Success mc (ch "/" :: tr) m ->
   _parseTerm tr = Success tc r t ->
   exists e,
     _parseExpression s = Returns (Success (mc ++ js "/" ++ tc) r e) /\
     magnitude e = conversion t (significand m) /\
     vector_difference (e_exponents e) [(js "10", exponent m)] (exponents t) /\
     safe_integer (exponent m) = true /\ safe_vector (exponents t) /\
     safe_vector (e_exponents e)) /\
  (_parseMagnitude s = Success mc (x :: tr) m ->
   x <> ch "*" -> x <> ch "/" ->
   _parseTerm (x :: tr) = Success tc r t ->
   exists e,
     _parseExpression s = Returns (Success (mc ++ tc) r e) /\
     magnitude e = conversion t (significand m) /\
     vector_sum (e_exponents e) [(js "10", exponent m)] (exponents t) /\
     safe_integer (exponent m) = true /\ safe_vector (exponents t) /\
     safe_vector (e_exponents e)).
Proof.
  intros Hex.
  destruct (parseExpression_sum s mc tr x m tc r t) as (H1 & H2 & H3).
  split; [|split].
  - intros Hm Ht. destruct (H1 Hm Ht) as (e & He & Hv & Hs). exists e.
    destruct (expression_operands_safe s mc tr m [ch "*"] tc r t Hex Hm Ht)
      as [Sm St].
    split; [exact He|]. split; [exact Hv|]. split; [exact Hs|].
    split; [exact Sm|]. split; [exact St|].
    exact (parseExpression_safe _ _ _ _ Hex He).
  - intros Hm Ht. destruct (H2 Hm Ht) as (e & He & Hv & Hs). exists e.
    destruct (expression_operands_safe s mc tr m [ch "/"] tc r t Hex Hm Ht)
      as [Sm St].
    split; [exact He|]. split; [exact Hv|]. split; [exact Hs|].
    split; [exact Sm|]. split; [exact St|].
    exact (parseExpression_safe _ _ _ _ Hex He).
  - intros Hm Ha Hd Ht. destruct (H3 Hm Ha Hd Ht) as (e & He & Hv & Hs).
    exists e.
    destruct (expression_operands_safe s mc (x :: tr) m [] tc r t Hex Hm Ht)
      as [Sm St].
    split; [exact He|]. split; [exact Hv|]. split; [exact Hs|].
    split; [exact Sm|]. split; [exact St|].
    exact (parseExpression_safe _ _ _ _ Hex He).
Qed.

Lemma expression_exponent_algebra_witness :
  exists e,
    _parseExpression (js "3e2/km") = Returns (Success (js "3e2" ++ js "/" ++ js "km") [] e) /\
    magnitude e = Dec 3 0 /\
    vector_difference (e_exponents e) [(js "10", 2)] [(js "10", 3); (js "m", 1)] /\
    safe_integer 2 = true /\ safe_vector [(js "10", 3); (js "m", 1)] /\
    safe_vector (e_exponents e).
Proof.
  refine (proj1 (proj2 (expression_exponent_algebra (js "3e2/km") (js "3e2")
            (js "km") (ch "k") {| significand := Dec 3 0; exponent := 2 |}
            (js "km") []
            {| exponents := [(js "10", 3); (js "m", 1)];
               conversion := fun magnitude => magnitude |} _)) _ _);
    vm_compute; reflexivity.
Defined.

(** X16. A base followed by [^] and an integer keeps the conversion of the
    base and, on an input whose integers the code holds exactly
    ([exact_input]), has every exponent of the base multiplied by that
    integer, the exponent of ten included, the integer, the exponents and
    their products being below 2^53; a base followed by [^] without an
    integer fails the factor, the caret counted in what was consumed. *)
Theorem factor_power (s bc cr : jsstring) (b : unit_result) :
  exact_input s = true ->
  _parseBase s = Success bc (ch "^" :: cr) b ->
  (forall ec er n, _parseExponent cr = Success ec er n ->
     exists f,
       _parseFactor s = Success (bc ++ js "^" ++ ec) er f /\
       conversion f = conversion b /\
       (forall k, or0 (obj_get (exponents f) k)
                  = or0 (obj_get (exponents b) k) * n) /\
       safe_integer n = true /\ safe_vector (exponents b) /\
       safe_vector (exponents f)) /\
  (forall ec er, _parseExponent cr = Failure ec er ->
     _parseFactor s = Failure (bc ++ js "^" ++ ec) s).
Proof.
  intros Hex Hb. destruct (parseFactor_power s bc cr b Hb) as [H1 H2].
  split; [|exact H2].
  intros ec er n He. destruct (H1 ec er n He) as (f & Hf & Hc & Hk).
  exists f. split; [exact Hf|]. split; [exact Hc|]. split; [exact Hk|].
  pose proof (parseBase_wf s) as Hw. rewrite Hb in Hw.
  cbn [well_formed] in Hw.
  split; [|split].
  - refine (parseInteger_safe cr ec er n _ He).
    apply (exact_input_suffix (bc ++ [ch "^"])).
    rewrite <- app_assoc. cbn [app]. now rewrite Hw.
  - exact (parseBase_safe _ _ _ _ Hb).
  - exact (parseFactor_safe _ _ _ _ Hex Hf).
Qed.

Lemma factor_power_witness :
  exists f,
    _parseFactor (js "km^-2/s") = Success (js "km" ++ js "^" ++ js "-2") (js "/s") f /\
    conversion f = (fun magnitude => magnitude) /\
    (forall k, or0 (obj_get (exponents f) k)
               = or0 (obj_get [(js "10", 3); (js "m", 1)] k) * -2) /\
    safe_integer (-2) = true /\ safe_vector [(js "10", 3); (js "m", 1)] /\
    safe_vector (exponents f).
Proof.
  refine (proj1 (factor_power (js "km^-2/s") (js "km") (js "-2/s")
            {| exponents := [(js "10", 3); (js "m", 1)];
               conversion := fun magnitude => magnitude |} _ _)
            (js "-2") (js "/s") (-2) _);
    vm_compute; reflexivity.
Defined.

(** ** Normalising a canonical form on exact inputs (C3) *)


